(** * run_matrix: the interface-test matrix runner

    A shallow embedding of [run_matrix.py].  The runner is effectful code:
    it changes the working directory, inspects and mutates the filesystem
    and spawns shell commands.  Its functions are embedded as computations
    in a state-and-exception monad over an explicit [World]; whatever the
    spawned commands decide (exit statuses, the tree a clone leaves on
    disk, the collected registry) is read from a [Host].

    Python dictionaries whose order is never observed ([test_setup]) are
    finite maps; dictionaries that are iterated or printed (the registry
    and the result tree) are insertion-ordered association lists. *)

From Stdlib Require Import ZArith String Ascii List Lia.
From stdpp Require Import base option list strings gmap pretty.

Local Open Scope string_scope.
Local Open Scope list_scope.
Local Open Scope Z_scope.

(* ===================================================================== *)
(** * Python values *)
(* ===================================================================== *)

(** Truthiness of an [Optional[str]]: [None] and [''] are falsy. *)
Definition truthy (v : option string) : bool :=
  match v with
  | Some s => negb (String.eqb s "")
  | None => false
  end.

(** [v or default] on an [Optional[str]]. *)
Definition or_else (v : option string) (default : string) : string :=
  match v with
  | Some s => if String.eqb s "" then default else s
  | None => default
  end.

(** ** [int(str)], base ten

    Surrounding whitespace is stripped, one sign is allowed, and single
    underscores may separate digits.  Strings are byte strings here, so
    only the ASCII digits and the ASCII whitespace are recognised. *)

Definition is_space (c : ascii) : bool :=
  let n := nat_of_ascii c in
  ((9 <=? n)%nat && (n <=? 13)%nat) || (n =? 32)%nat || ((28 <=? n)%nat && (n <=? 31)%nat).

Definition digit_of (c : ascii) : option Z :=
  let n := nat_of_ascii c in
  if ((48 <=? n)%nat && (n <=? 57)%nat)%bool then Some (Z.of_nat (n - 48)) else None.

Fixpoint lstrip (s : string) : string :=
  match s with
  | String c rest => if is_space c then lstrip rest else s
  | EmptyString => EmptyString
  end.

Fixpoint rstrip (s : string) : string :=
  match s with
  | String c rest =>
      match rstrip rest with
      | EmptyString => if is_space c then EmptyString else String c EmptyString
      | kept => String c kept
      end
  | EmptyString => EmptyString
  end.

Definition strip (s : string) : string := rstrip (lstrip s).

(** [digits acc after_digit s]: [after_digit] tells whether the previous
    character was a digit, the only place where an underscore or the end
    of the literal is accepted. *)
Fixpoint digits (acc : Z) (after_digit : bool) (s : string) : option Z :=
  match s with
  | EmptyString => if after_digit then Some acc else None
  | String c rest =>
      match digit_of c with
      | Some d => digits (10 * acc + d) true rest
      | None =>
          if (Ascii.eqb c "_" && after_digit)%bool then digits acc false rest
          else None
      end
  end.

Definition py_int (s : string) : option Z :=
  match strip s with
  | String "-" rest => Z.opp <$> digits 0 false rest
  | String "+" rest => digits 0 false rest
  | body => digits 0 false body
  end.

(** [s[1:]] *)
Definition slice_from_1 (s : string) : string :=
  match s with
  | String _ rest => rest
  | EmptyString => EmptyString
  end.

(* ===================================================================== *)
(** * Ordered dictionaries *)
(* ===================================================================== *)

Module PyDict.
Section Dict.
Context {V : Type}.

Definition t := list (string * V).

Fixpoint get (k : string) (d : t) : option V :=
  match d with
  | [] => None
  | (k', v) :: rest => if String.eqb k' k then Some v else get k rest
  end.

(** [d[k] = v]: an existing key keeps its position, a new key goes last. *)
Fixpoint set (k : string) (v : V) (d : t) : t :=
  match d with
  | [] => [(k, v)]
  | (k', v') :: rest =>
      if String.eqb k' k then (k, v) :: rest else (k', v') :: set k v rest
  end.

Definition keys (d : t) : list string := map fst d.
End Dict.
Arguments t : clear implicits.
End PyDict.

(* ===================================================================== *)
(** * Paths *)
(* ===================================================================== *)

(** A [pathlib.PurePosixPath]: whether it starts at the filesystem root,
    and its components. *)
Record PurePath := mkPath { anchored : bool; parts : list string }.

Fixpoint split_on (sep : ascii) (s : string) : list string :=
  match s with
  | EmptyString => [EmptyString]
  | String c rest =>
      if Ascii.eqb c sep then EmptyString :: split_on sep rest
      else match split_on sep rest with
           | hd :: tl => String c hd :: tl
           | [] => [String c EmptyString]
           end
  end.

Definition is_component (c : string) : bool :=
  negb (String.eqb c "" || String.eqb c ".").

(** [Path(s)]: empty components and [.] are dropped, [..] is kept. *)
Definition Path (s : string) : PurePath :=
  {| anchored := match s with String "/" _ => true | _ => false end;
     parts := List.filter is_component (split_on "/" s) |}.

(** [p / q] *)
Definition joinpath (p q : PurePath) : PurePath :=
  if anchored q then q
  else {| anchored := anchored p; parts := parts p ++ parts q |}.

Infix "</>" := joinpath (at level 40, left associativity).

(** [p.parent] *)
Definition parent (p : PurePath) : PurePath :=
  {| anchored := anchored p; parts := removelast (parts p) |}.

Fixpoint join_with (sep : string) (l : list string) : string :=
  match l with
  | [] => ""
  | [x] => x
  | x :: rest => x +:+ sep +:+ join_with sep rest
  end.

(** [str(p)] *)
Definition path_str (p : PurePath) : string :=
  match anchored p, parts p with
  | true, l => "/" +:+ join_with "/" l
  | false, [] => "."
  | false, l => join_with "/" l
  end.

(* ===================================================================== *)
(** * The world *)
(* ===================================================================== *)

(** Filesystem entries are keyed by their absolute location, component by
    component.  Components are compared as written: [..] and symbolic
    links are not resolved. *)
Definition Location := list string.

Inductive Node :=
| Dir
| File (content : string).

Inductive Command :=
| GitClone (branch_option : option string) (url : string) (target : PurePath)
| MkVenv
| PipInstallTester
| PipInstallRequirements
| Pytest (test_path : PurePath).

(** How a spawned shell ends: it exits with a status, or a signal kills it. *)
Inductive Termination :=
| Exited (status : N)
| Killed (signal : positive).

(** [Popen.returncode] *)
Definition returncode (t : Termination) : Z :=
  match t with
  | Exited status => Z.of_N status
  | Killed signal => Z.neg signal
  end.

Inductive Event :=
| CleanCalled (root : Location)
| Rmtree (root : Location)
| Spawned (wd : Location) (cmd : Command)
| Written (file : Location).

Record World := mkWorld {
  cwd : Location;
  fs : gmap Location Node;
  trace : list Event
}.

Definition resolve (w : World) (p : PurePath) : Location :=
  if anchored p then parts p else cwd w ++ parts p.

Definition exists_ (w : World) (p : PurePath) : bool :=
  match fs w !! resolve w p with Some _ => true | None => false end.

Definition is_dir (w : World) (p : PurePath) : bool :=
  match fs w !! resolve w p with Some Dir => true | _ => false end.

Definition is_file (w : World) (p : PurePath) : bool :=
  match fs w !! resolve w p with Some (File _) => true | _ => false end.

(* ===================================================================== *)
(** * Exceptions and the runner monad *)
(* ===================================================================== *)

Inductive Exn :=
| SetupError (msg : string)
| InterfaceTestError
| CalledProcessError (code : Z)
| FileNotFoundError
| NotADirectoryError
| IsADirectoryError
| KeyError (key : string)
| ValueError.

Inductive Result (A : Type) :=
| Returned (a : A)
| Raised (e : Exn).
Arguments Returned {A} a.
Arguments Raised {A} e.

(** A computation transforms the world and either returns or raises;
    what it did to the world before raising stays done. *)
Definition M (A : Type) : Type := World → Result A * World.

Definition ret {A} (a : A) : M A := λ w, (Returned a, w).

Definition raise {A} (e : Exn) : M A := λ w, (Raised e, w).

Definition bind {A B} (m : M A) (k : A → M B) : M B :=
  λ w, match m w with
       | (Returned a, w') => k a w'
       | (Raised e, w') => (Raised e, w')
       end.

(** [try: m  except <handled>: handler] *)
Definition try_except {A} (m : M A) (handler : Exn → option (M A)) : M A :=
  λ w, match m w with
       | (Returned a, w') => (Returned a, w')
       | (Raised e, w') =>
           match handler e with
           | Some h => h w'
           | None => (Raised e, w')
           end
       end.

Notation "x <~ m ; k" := (bind m (λ x, k))
  (at level 20, m at level 100, k at level 200, only parsing).
Notation "m ;> k" := (bind m (λ _, k))
  (at level 100, k at level 200, right associativity, only parsing).

Definition log (ev : Event) : M unit :=
  λ w, (Returned tt, {| cwd := cwd w; fs := fs w; trace := trace w ++ [ev] |}).

Definition getcwd : M PurePath :=
  λ w, (Returned {| anchored := true; parts := cwd w |}, w).

Definition chdir (p : PurePath) : M unit :=
  λ w, match fs w !! resolve w p with
       | Some Dir =>
           (Returned tt, {| cwd := resolve w p; fs := fs w; trace := trace w |})
       | Some (File _) => (Raised NotADirectoryError, w)
       | None => (Raised FileNotFoundError, w)
       end.

Definition path_exists (p : PurePath) : M bool := λ w, (Returned (exists_ w p), w).

Definition path_is_dir (p : PurePath) : M bool := λ w, (Returned (is_dir w p), w).

Definition path_is_file (p : PurePath) : M bool := λ w, (Returned (is_file w p), w).

(** [shutil.rmtree(root)]: the entry and everything below it go. *)
Definition rmtree (root : PurePath) : M unit :=
  λ w, let top := resolve w root in
       (Returned tt,
        {| cwd := cwd w;
           fs := filter (λ entry, ¬ top `prefix_of` entry.1) (fs w);
           trace := trace w ++ [Rmtree top] |}).

(** [with open(p, "w") as file: file.write(content)] *)
Definition write_text (p : PurePath) (content : string) : M unit :=
  λ w, let file := resolve w p in
       match fs w !! file, fs w !! removelast file with
       | Some Dir, _ => (Raised IsADirectoryError, w)
       | _, Some Dir =>
           (Returned tt,
            {| cwd := cwd w;
               fs := <[file := File content]> (fs w);
               trace := trace w ++ [Written file] |})
       | _, Some (File _) => (Raised NotADirectoryError, w)
       | _, None => (Raised FileNotFoundError, w)
       end.

(** [for x in xs: state = body(state, x)] *)
Fixpoint for_each {A S} (xs : list A) (body : S → A → M S) (state : S) : M S :=
  match xs with
  | [] => ret state
  | x :: rest => state' <~ body state x; for_each rest body state'
  end.

(* ===================================================================== *)
(** * The registry *)
(* ===================================================================== *)

(** Modelled from the spec: the declarations of [_CharmTestConfig] and
    [_RoleTestSpec] live in [interface_tester.collector], outside the
    sources.  A participant has a name, a source location, an optional
    branch and an optional [test_setup] mapping whose entries ['location']
    and ['identifier'] hold an optional string each; a role carries its
    test cases and its charms. *)
Record CharmConfig := mkCharm {
  name : string;
  url : string;
  branch : option string;
  test_setup : option (gmap string (option string))
}.

Inductive TestCase := test_case (label : string).

Record RoleTestSpec := mkRole {
  tests : list TestCase;
  charms : list CharmConfig
}.

Definition ResultsPerCharm := PyDict.t bool.
Definition ResultsPerRole := PyDict.t ResultsPerCharm.
Definition ResultsPerVersion := PyDict.t ResultsPerRole.
Definition ResultsPerInterface := PyDict.t ResultsPerVersion.

Definition TestsPerRole := PyDict.t RoleTestSpec.
Definition TestsPerVersion := PyDict.t TestsPerRole.
Definition Registry := PyDict.t TestsPerVersion.

(** [d[k]] on a dictionary. *)
Definition subscript {V} (d : PyDict.t V) (k : string) : M V :=
  match PyDict.get k d with
  | Some v => ret v
  | None => raise (KeyError k)
  end.

Definition subscript_map {V} (d : gmap string V) (k : string) : M V :=
  match d !! k with
  | Some v => ret v
  | None => raise (KeyError k)
  end.

(* ===================================================================== *)
(** * The host *)
(* ===================================================================== *)

(** What the runner cannot decide by itself.  [spawn wd cmd] is how the
    shell running [cmd] in directory [wd] ends; [checkout wd cmd] is the
    tree a clone leaves at its target ([None]: the target is not created),
    entries relative to the target.  The virtual environment, the
    installed packages and whatever the tests write are not represented:
    the runner never looks at them. *)
Record Host := mkHost {
  collect_tests : PurePath → string → Registry;
  spawn : Location → Command → Termination;
  checkout : Location → Command → option (list (Location * Node))
}.

Fixpoint prefixes (l : Location) : list Location :=
  match l with
  | [] => [[]]
  | c :: rest => [] :: map (cons c) (prefixes rest)
  end.

(** Entries are created where nothing exists yet. *)
Definition fill (entries : list (Location * Node)) (m : gmap Location Node)
    : gmap Location Node :=
  foldr (λ entry acc, match acc !! entry.1 with
                      | Some _ => acc
                      | None => <[entry.1 := entry.2]> acc
                      end)
        m entries.

(** The target and the directories above it, as [mkdir -p] makes them. *)
Definition mkdirs (target : Location) (m : gmap Location Node) : gmap Location Node :=
  fill (map (λ d, (d, Dir)) (prefixes target)) m.

(** The checked-out entries appear below the target. *)
Definition install (target : Location) (tree : list (Location * Node))
    (m : gmap Location Node) : gmap Location Node :=
  fill (map (λ entry, (target ++ entry.1, entry.2)) tree) (mkdirs target m).

(* ===================================================================== *)
(** * The runner *)
(* ===================================================================== *)

Definition FIXTURE_PATH : string := "tests/interface/conftest.py".
Definition FIXTURE_IDENTIFIER : string := "interface_tester".

(** The default of the [root] parameter of [_prepare_repo] and [_clean]. *)
Definition default_root : PurePath := Path "/tmp/charm-relation-interfaces-tests/".

Module FixtureSpec.
Record t := make { path : PurePath; id : string }.
End FixtureSpec.

Definition nl : string := String (ascii_of_nat 10) EmptyString.
Definition quote : string := String (ascii_of_nat 34) EmptyString.

(** [_TEST_CONTENT.format(interface=…, fixture_id=…, version=…)] *)
Definition _TEST_CONTENT (interface fixture_id : string) (version : Z) : string :=
  nl +:+ "# file generated by run_matrix.py" +:+ nl
  +:+ "from interface_tester import InterfaceTester" +:+ nl
  +:+ "def test_" +:+ interface +:+ "_interface(" +:+ fixture_id +:+ ": InterfaceTester):" +:+ nl
  +:+ "    " +:+ fixture_id +:+ ".configure(" +:+ nl
  +:+ "        interface_name=" +:+ quote +:+ interface +:+ quote +:+ "," +:+ nl
  +:+ "        interface_version=" +:+ pretty version +:+ "," +:+ nl
  +:+ "    )" +:+ nl
  +:+ "    " +:+ fixture_id +:+ ".run()" +:+ nl.

Section Runner.
Context (h : Host).

(** [subprocess.call(cmd, shell=True)]: the command runs in the current
    directory; only a clone changes the part of the filesystem the
    runner looks at. *)
Definition subprocess_call (cmd : Command) : M Z :=
  λ w, let ended := spawn h (cwd w) cmd in
       let disk :=
         match cmd, checkout h (cwd w) cmd with
         | GitClone _ _ target, Some tree => install (resolve w target) tree (fs w)
         | _, _ => fs w
         end in
       (Returned (returncode ended),
        {| cwd := cwd w; fs := disk; trace := trace w ++ [Spawned (cwd w) cmd] |}).

(** [subprocess.check_call(cmd, shell=True)] *)
Definition subprocess_check_call (cmd : Command) : M unit :=
  retcode <~ subprocess_call cmd;
  if retcode =? 0 then ret tt else raise (CalledProcessError retcode).

Definition _clone_charm_repo (charm_config : CharmConfig) (charm_path : PurePath) : M unit :=
  let branch_option :=
    if truthy (branch charm_config) then branch charm_config else None in
  retcode <~ subprocess_call (GitClone branch_option (url charm_config) charm_path);
  if 0 <? retcode then
    raise (SetupError ("Failed to clone repo for " +:+ name charm_config
                       +:+ "; check the charms.yaml config."))
  else ret tt.

Definition _clean (root : PurePath) : M unit :=
  (λ w, log (CleanCalled (resolve w root)) w) ;>
  present <~ path_is_dir root;
  if present then rmtree root else ret tt.

Definition _generate_test (interface : string) (test_path : PurePath)
    (fixture_id : string) (version : Z) : M PurePath :=
  let test_content := _TEST_CONTENT interface fixture_id version in
  let test_filename := "interface-test-" +:+ interface +:+ ".py" in
  write_text (test_path </> Path test_filename) test_content ;>
  ret (test_path </> Path test_filename).

Definition _get_fixture (charm_config : CharmConfig) (charm_path : PurePath)
    : M FixtureSpec.t :=
  let fixture_path := charm_path </> Path FIXTURE_PATH in
  let fixture_id := FIXTURE_IDENTIFIER in
  match test_setup charm_config with
  | None => ret (FixtureSpec.make fixture_path fixture_id)
  | Some setup =>
      if decide (setup = ∅) then ret (FixtureSpec.make fixture_path fixture_id)
      else
        location <~ subscript_map setup "location";
        let fixture_path :=
          if truthy location then charm_path </> Path (or_else location "")
          else fixture_path in
        identifier <~ subscript_map setup "identifier";
        let fixture_id :=
          if truthy identifier then or_else identifier "" else fixture_id in
        ret (FixtureSpec.make fixture_path fixture_id)
  end.

Definition _setup_venv (charm_path : PurePath) : M unit :=
  original_wd <~ getcwd;
  chdir charm_path ;>
  try_except
    (subprocess_check_call MkVenv ;>
     subprocess_check_call PipInstallTester ;>
     subprocess_check_call PipInstallRequirements)
    (λ e, match e with
          | CalledProcessError _ => Some (raise (SetupError "venv setup failed"))
          | _ => None
          end) ;>
  chdir original_wd.

Definition _run_test_with_pytest (root test_path : PurePath) : M unit :=
  original_wd <~ getcwd;
  chdir root ;>
  try_except
    (subprocess_check_call (Pytest test_path))
    (λ e, match e with
          | CalledProcessError _ => Some (raise InterfaceTestError)
          | _ => None
          end) ;>
  chdir original_wd.

Definition _prepare_repo (charm_config : CharmConfig) (interface : string)
    (version : Z) (root : PurePath) : M (PurePath * PurePath) :=
  let charm_path := root </> Path (name charm_config) in
  present <~ path_exists charm_path;
  (if present then ret tt
   else _clone_charm_repo charm_config charm_path ;> _setup_venv charm_path) ;>
  fixture_spec <~
    try_except (_get_fixture charm_config charm_path)
      (λ e, match e with
            | FileNotFoundError =>
                Some (raise (SetupError ("unable to get fixture spec from "
                                         +:+ path_str charm_path)))
            | _ => None
            end);
  found <~ path_is_file (FixtureSpec.path fixture_spec);
  (if found then ret tt
   else raise (SetupError ("fixture missing for charm " +:+ name charm_config))) ;>
  test_path <~ _generate_test interface (parent (FixtureSpec.path fixture_spec))
                 (FixtureSpec.id fixture_spec) version;
  ret (charm_path, test_path).

Definition _test_charm (charm_config : CharmConfig) (interface : string)
    (version : Z) (role : string) : M bool :=
  prepared <~
    try_except (paths <~ _prepare_repo charm_config interface version default_root;
                ret (Some paths))
      (λ e, match e with
            | SetupError _ => Some (ret None)
            | _ => None
            end);
  match prepared with
  | None => ret false
  | Some (charm_path, test_path) =>
      try_except (_run_test_with_pytest charm_path test_path ;> ret true)
        (λ e, match e with
              | InterfaceTestError => Some (ret false)
              | _ => None
              end)
  end.

(** The body of the loop of [_test_charms]. *)
Definition _test_charms_body (interface : string) (version : Z) (role : string)
    (out : ResultsPerCharm) (charm_config : CharmConfig) : M ResultsPerCharm :=
  success <~ _test_charm charm_config interface version role;
  ret (PyDict.set (name charm_config) success out).

Definition _test_charms (charm_configs : list CharmConfig) (interface : string)
    (version : Z) (role : string) : M ResultsPerCharm :=
  for_each charm_configs (_test_charms_body interface version role) [].

(** The body of the loop of [_test_roles]. *)
Definition _test_roles_body (tests_per_role : TestsPerRole) (interface : string)
    (version : Z) (results_per_role : ResultsPerRole) (role : string)
    : M ResultsPerRole :=
  spec <~ subscript tests_per_role role;
  let interface_tests := tests spec in
  let charm_configs := charms spec in
  match interface_tests, charm_configs with
  | [], _ => ret (PyDict.set role [] results_per_role)
  | _, [] => ret (PyDict.set role [] results_per_role)
  | _, _ =>
      results <~ _test_charms charm_configs interface version role;
      ret (PyDict.set role results results_per_role)
  end.

Definition _test_roles (tests_per_role : TestsPerRole) (interface : string)
    (version : Z) : M ResultsPerRole :=
  for_each ["provider"; "requirer"]
    (_test_roles_body tests_per_role interface version) [].

(** The body of the loop of [_test_interface_version]. *)
Definition _test_interface_version_body (interface : string)
    (results_per_version : ResultsPerVersion) (item : string * TestsPerRole)
    : M ResultsPerVersion :=
  let '(version, tests_per_role) := item in
  version_int <~ match py_int (slice_from_1 version) with
                 | Some n => ret n
                 | None => raise ValueError
                 end;
  results <~ _test_roles tests_per_role interface version_int;
  ret (PyDict.set version results results_per_version).

Definition _test_interface_version (tests_per_version : TestsPerVersion)
    (interface : string) : M ResultsPerVersion :=
  for_each tests_per_version (_test_interface_version_body interface) [].

(** The body of the loop of [run_interface_tests]. *)
Definition run_interface_tests_body (test_results : ResultsPerInterface)
    (item : string * TestsPerVersion) : M ResultsPerInterface :=
  let '(interface, version_to_roles) := item in
  results_per_version <~ _test_interface_version version_to_roles interface;
  ret (PyDict.set interface results_per_version test_results).

Definition run_interface_tests (path : PurePath) (include : string)
    : M ResultsPerInterface :=
  _clean default_root ;>
  let collected := collect_tests h path include in
  for_each collected run_interface_tests_body [].

End Runner.

(* ===================================================================== *)
(** * Vocabulary of the properties *)
(* ===================================================================== *)

(** The override a participant declares under [key], if any: a string
    that is neither missing, [None] nor empty. *)
Definition override (charm_config : CharmConfig) (key : string) : option string :=
  match test_setup charm_config with
  | Some setup =>
      match setup !! key with
      | Some (Some s) => if String.eqb s "" then None else Some s
      | _ => None
      end
  | None => None
  end.

(** A [test_setup] is either absent, empty, or carries both entries. *)
Definition complete_setup (charm_config : CharmConfig) : Prop :=
  match test_setup charm_config with
  | Some setup =>
      setup = ∅ ∨ (is_Some (setup !! "location") ∧ is_Some (setup !! "identifier"))
  | None => True
  end.


Definition is_git (cmd : Command) : bool :=
  match cmd with GitClone _ _ _ => true | _ => false end.

(** The clone command [_clone_charm_repo] spawns for a participant. *)
Definition clone_command (charm_config : CharmConfig) (charm_path : PurePath) : Command :=
  GitClone (if truthy (branch charm_config) then branch charm_config else None)
    (url charm_config) charm_path.

Definition is_clone (ev : Event) : bool :=
  match ev with Spawned _ (GitClone _ _ _) => true | _ => false end.

(** An environment build starts with the creation of the virtual
    environment. *)
Definition is_env_build (ev : Event) : bool :=
  match ev with Spawned _ MkVenv => true | _ => false end.

(** Any step of an environment build. *)
Definition is_env_step (ev : Event) : bool :=
  match ev with
  | Spawned _ (MkVenv | PipInstallTester | PipInstallRequirements) => true
  | _ => false
  end.

(** The rest of the body of [_prepare_repo], once the charm directory is
    in place: the fixture is resolved and checked, the test is generated. *)
Definition prepare_repo_rest (charm_config : CharmConfig) (interface : string)
    (version : Z) (charm_path : PurePath) : M (PurePath * PurePath) :=
  fixture_spec <~
    try_except (_get_fixture charm_config charm_path)
      (λ e, match e with
            | FileNotFoundError =>
                Some (raise (SetupError ("unable to get fixture spec from "
                                         +:+ path_str charm_path)))
            | _ => None
            end);
  found <~ path_is_file (FixtureSpec.path fixture_spec);
  (if found then ret tt
   else raise (SetupError ("fixture missing for charm " +:+ name charm_config))) ;>
  test_path <~ _generate_test interface (parent (FixtureSpec.path fixture_spec))
                 (FixtureSpec.id fixture_spec) version;
  ret (charm_path, test_path).

(** The events a computation appends to the trace of [w]. *)
Definition new_events (w w' : World) : list Event :=
  drop (length (trace w)) (trace w').

Definition clones (events : list Event) : nat :=
  length (List.filter is_clone events).

Definition env_builds (events : list Event) : nat :=
  length (List.filter is_env_build events).

(** The trace has grown by [c] clones and [b] environment builds. *)
Definition counted (c b : nat) : relation World :=
  λ w w', ∃ events,
    trace w' = trace w ++ events ∧ clones events = c ∧ env_builds events = b.

Definition is_write (ev : Event) : Prop :=
  match ev with Written _ => True | _ => False end.

(** Neither a clone nor the start of an environment build. *)
Definition quiet (ev : Event) : Prop :=
  is_clone ev = false ∧ is_env_build ev = false.

(** The working directory is where it was. *)
Definition stays : relation World := λ w w', cwd w' = cwd w.

(** Idempotent provisioning as the specification words it: two calls for
    the same participant, the first one on a workspace without the charm
    directory, make one clone and one environment build. *)
Definition provisioning_twice_clones_once : Prop :=
  ∀ (h : Host) (charm_config : CharmConfig) (interface : string) (version : Z)
    (w : World),
    exists_ w (default_root </> Path (name charm_config)) = false →
    let w1 := (_prepare_repo h charm_config interface version default_root w).2 in
    let w2 := (_prepare_repo h charm_config interface version default_root w1).2 in
    clones (new_events w w2) = 1%nat ∧ env_builds (new_events w w2) = 1%nat.

(** [steps R m w]: run from [w], the computation [m] ends in a world that
    [R] relates to [w]. *)
Definition steps {A} (R : relation World) (m : M A) (w : World) : Prop :=
  R w (m w).2.

(** The trace has grown by events that satisfy [P]. *)
Definition appends (P : Event → Prop) : relation World :=
  λ w w', ∃ events, trace w' = trace w ++ events ∧ Forall P events.

(** Directories are still directories and entries are still there. *)
Definition grows : relation World :=
  λ w w', ∀ loc,
    (fs w !! loc = Some Dir → fs w' !! loc = Some Dir) ∧
    (is_Some (fs w !! loc) → is_Some (fs w' !! loc)).

Definition is_clean_call (ev : Event) : Prop :=
  match ev with CleanCalled _ => True | _ => False end.



(** A role for which nothing is to be run. *)
Definition empty_role (spec : RoleTestSpec) : Prop :=
  tests spec = [] ∨ charms spec = [].

(** ** Isolation of the units of work *)

Definition charm_path (charm_config : CharmConfig) : PurePath :=
  default_root </> Path (name charm_config).

Definition charm_location (charm_config : CharmConfig) : Location :=
  parts (charm_path charm_config).

(** [loc] is out of the reach of what happens to a directory at [A]: it is
    neither [A], nor below it, nor above it. *)
Definition outside (A loc : Location) : Prop :=
  ¬ A `prefix_of` loc ∧ ¬ loc `prefix_of` A.

(** The fixture of the participant lies in a directory of its checkout. *)
Definition confined (charm_config : CharmConfig) : Prop :=
  ∀ w spec w',
    _get_fixture charm_config (charm_path charm_config) w = (Returned spec, w') →
    anchored (FixtureSpec.path spec) = true ∧
    charm_location charm_config `prefix_of` removelast (parts (FixtureSpec.path spec)).

(** It does not matter from which directory the participant is cloned. *)
Definition clone_anywhere (h : Host) (charm_config : CharmConfig) : Prop :=
  ∀ wd wd',
    let cmd := clone_command charm_config (charm_path charm_config) in
    spawn h wd cmd = spawn h wd' cmd ∧ checkout h wd cmd = checkout h wd' cmd.

(** A participant whose charm directory neither contains [A] nor lies in it. *)
Definition sibling (h : Host) (A : Location) (charm_config : CharmConfig) : Prop :=
  outside A (charm_location charm_config) ∧
  confined charm_config ∧
  clone_anywhere h charm_config.

Definition in_a_directory (w : World) : Prop := fs w !! cwd w = Some Dir.

(** The process is in a directory afterwards if it was in one before. *)
Definition settled : relation World :=
  λ w w', in_a_directory w → in_a_directory w'.

(** Out of the reach of [A], the second world is as the first. *)
Definition alike (A : Location) : relation World :=
  λ w1 w2, ∀ loc, outside A loc → fs w1 !! loc = fs w2 !! loc.

Definition paired (A : Location) : relation World :=
  λ w1 w2, in_a_directory w1 ∧ in_a_directory w2 ∧ alike A w1 w2.

(** Run side by side, the two computations end alike. *)
Definition together {T} (R : relation World) (m1 m2 : M T) (w1 w2 : World) : Prop :=
  (m1 w1).1 = (m2 w2).1 ∧ R (m1 w1).2 (m2 w2).2.

(** The guarded parts of [_setup_venv] and of [_run_test_with_pytest]. *)
Definition venv_steps (h : Host) : M unit :=
  try_except
    (subprocess_check_call h MkVenv ;>
     subprocess_check_call h PipInstallTester ;>
     subprocess_check_call h PipInstallRequirements)
    (λ e, match e with
          | CalledProcessError _ => Some (raise (SetupError "venv setup failed"))
          | _ => None
          end).

Definition pytest_step (h : Host) (test_path : PurePath) : M unit :=
  try_except
    (subprocess_check_call h (Pytest test_path))
    (λ e, match e with
          | CalledProcessError _ => Some (raise InterfaceTestError)
          | _ => None
          end).

Definition named (n : string) (charm_config : CharmConfig) : bool :=
  String.eqb (name charm_config) n.

(** The registry without the participants called [n]. *)
Definition drop_charm (n : string) (spec : RoleTestSpec) : RoleTestSpec :=
  {| tests := tests spec;
     charms := List.filter (λ c, negb (named n c)) (charms spec) |}.

Definition without_roles (n : string) (tests_per_role : TestsPerRole) : TestsPerRole :=
  map (λ item, (item.1, drop_charm n item.2)) tests_per_role.

Definition without_versions (n : string) (versions : TestsPerVersion) : TestsPerVersion :=
  map (λ item, (item.1, without_roles n item.2)) versions.

Definition without (n : string) (registry : Registry) : Registry :=
  map (λ item, (item.1, without_versions n item.2)) registry.

(** The host that collects the same registry, for the participants called
    [n]. *)
Definition forgetting (n : string) (h : Host) : Host :=
  {| collect_tests := λ path include, without n (collect_tests h path include);
     spawn := spawn h;
     checkout := checkout h |}.

Definition charms_of_roles (tests_per_role : TestsPerRole) : list CharmConfig :=
  flat_map (λ item, charms item.2) tests_per_role.

Definition charms_of_versions (versions : TestsPerVersion) : list CharmConfig :=
  flat_map (λ item, charms_of_roles item.2) versions.

Definition charms_of (registry : Registry) : list CharmConfig :=
  flat_map (λ item, charms_of_versions item.2) registry.

(** Every participant of the registry is either called [n] and confined,
    or a sibling of the participants called [n]. *)
Definition separates (h : Host) (n : string) (charm_config : CharmConfig) : Prop :=
  if named n charm_config then confined charm_config
  else sibling h (parts (default_root </> Path n)) charm_config.

(** [per_role[role][charm]] and [per_version[version][role][charm]] *)
Definition outcome_in_roles (per_role : ResultsPerRole) (role charm : string)
    : option bool :=
  match PyDict.get role per_role with
  | Some per_charm => PyDict.get charm per_charm
  | None => None
  end.

Definition outcome_in_versions (per_version : ResultsPerVersion)
    (version role charm : string) : option bool :=
  match PyDict.get version per_version with
  | Some per_role => outcome_in_roles per_role role charm
  | None => None
  end.

(** [tree[interface][version][role][charm]] *)
Definition outcome (tree : ResultsPerInterface) (interface version role charm : string)
    : option bool :=
  match PyDict.get interface tree with
  | Some per_version =>
      match PyDict.get version per_version with
      | Some per_role =>
          match PyDict.get role per_role with
          | Some per_charm => PyDict.get charm per_charm
          | None => None
          end
      | None => None
      end
  | None => None
  end.

(** [raises P m]: whatever [m] raises satisfies [P]. *)
Definition raises {T} (P : Exn → Prop) (m : M T) : Prop :=
  ∀ w e w', m w = (Raised e, w') → P e.

(** The exceptions for which the runner has no handler. *)
Definition escapes (e : Exn) : Prop :=
  match e with
  | SetupError _ | InterfaceTestError | CalledProcessError _ => False
  | _ => True
  end.

Definition is_setup_error (e : Exn) : Prop :=
  match e with SetupError _ => True | _ => False end.

(** Failure isolation as the specification words it: whatever unit of work
    failed before it, a unit records what it would have recorded had the
    failing unit not been run. *)
Definition isolation_as_stated : Prop :=
  ∀ (h : Host) (failing sibling_unit : CharmConfig)
    (interface interface' : string) (version version' : Z) (role role' : string)
    (w : World),
    let failed := _test_charm h failing interface version role w in
    failed.1 = Returned false →
    (_test_charm h sibling_unit interface' version' role' failed.2).1
      = (_test_charm h sibling_unit interface' version' role' w).1.

(* ===================================================================== *)
(** * Example hosts and worlds *)
(* ===================================================================== *)

Module Examples.

(** A repository that ships the conventional fixture. *)
Definition repo_tree : list (Location * Node) :=
  [ (["tests"], Dir);
    (["tests"; "interface"], Dir);
    (["tests"; "interface"; "conftest.py"], File "fixture") ].

Definition clones_repo (wd : Location) (cmd : Command) : option (list (Location * Node)) :=
  if is_git cmd then Some repo_tree else None.

Definition traefik : CharmConfig :=
  mkCharm "traefik" "https://github.com/canonical/traefik-k8s-operator" None None.

Definition nginx : CharmConfig :=
  mkCharm "nginx" "https://github.com/canonical/nginx-ingress-integrator-operator"
    (Some "main") None.

(** Every command succeeds. *)
Definition healthy (collected : Registry) : Host :=
  {| collect_tests := λ _ _, collected;
     spawn := λ _ _, Exited 0;
     checkout := clones_repo |}.

(** No repository can be cloned: git exits with 128 and leaves nothing. *)
Definition offline (collected : Registry) : Host :=
  {| collect_tests := λ _ _, collected;
     spawn := λ _ cmd, if is_git cmd then Exited 128 else Exited 0;
     checkout := λ _ _, None |}.

(** Clones succeed, but the requirements cannot be installed. *)
Definition broken_requirements (collected : Registry) : Host :=
  {| collect_tests := λ _ _, collected;
     spawn := λ _ cmd, match cmd with
                       | PipInstallRequirements => Exited 1
                       | _ => Exited 0
                       end;
     checkout := clones_repo |}.

(** Everything is set up, and the tests fail. *)
Definition failing_tests (collected : Registry) : Host :=
  {| collect_tests := λ _ _, collected;
     spawn := λ _ cmd, match cmd with
                       | Pytest _ => Exited 1
                       | _ => Exited 0
                       end;
     checkout := clones_repo |}.

(** A machine on which nothing has been cloned yet. *)
Definition fresh : World :=
  {| cwd := ["home"]; fs := {[ [] := Dir; ["home"] := Dir ]}; trace := [] |}.

(** A participant that overrides the fixture location only. *)
Definition relocated : CharmConfig :=
  mkCharm "relocated" "https://example.org/relocated.git" None
    (Some {[ "location" := Some "tests/conftest.py"; "identifier" := None ]}).

(** A participant whose overrides are both left blank. *)
Definition blank : CharmConfig :=
  mkCharm "blank" "https://example.org/blank.git" None
    (Some {[ "location" := Some ""; "identifier" := None ]}).

Definition traefik_path : PurePath := default_root </> Path "traefik".

(** The machine once traefik has been cloned. *)
Definition cloned : World :=
  {| cwd := ["home"];
     fs := install (parts traefik_path) repo_tree (fs fresh);
     trace := [] |}.

Definition ingress_v2 : Registry :=
  [("ingress",
    [("v2", [("provider", mkRole [test_case "t1"] [traefik]);
             ("requirer", mkRole [] [])])])].

(** The same registry with the requirer registered before the provider. *)
Definition requirer_first : TestsPerRole :=
  [("requirer", mkRole [] []);
   ("provider", mkRole [test_case "t1"] [traefik])].

Definition provider_first : TestsPerRole :=
  [("provider", mkRole [test_case "t1"] [traefik]);
   ("requirer", mkRole [] [])].

Definition ingress_v2_requirer_first : Registry :=
  [("ingress", [("v2", requirer_first)])].

(** Only traefik's requirements cannot be installed. *)
Definition traefik_broken (collected : Registry) : Host :=
  {| collect_tests := λ _ _, collected;
     spawn := λ wd cmd,
       match cmd with
       | PipInstallRequirements =>
           if decide (wd = parts traefik_path) then Exited 1 else Exited 0
       | _ => Exited 0
       end;
     checkout := clones_repo |}.

Definition two_charms : Registry :=
  [("ingress",
    [("v2", [("provider", mkRole [test_case "t1"] [traefik; nginx]);
             ("requirer", mkRole [test_case "t2"] [nginx])])])].

End Examples.


(* ===================================================================== *)
(** * Vocabulary of the further properties *)
(* ===================================================================== *)

(** The commands of an environment build, in the order in which
    [_setup_venv] spawns them. *)
Definition venv_commands : list Command :=
  [MkVenv; PipInstallTester; PipInstallRequirements].

(** The commands that are spawned when each one is run only if the ones
    before it ended with status zero, and whether all of them did. *)
Fixpoint until_failure (h : Host) (wd : Location) (cmds : list Command)
    : list Command * bool :=
  match cmds with
  | [] => ([], true)
  | cmd :: rest =>
      if returncode (spawn h wd cmd) =? 0 then
        (cmd :: (until_failure h wd rest).1, (until_failure h wd rest).2)
      else ([cmd], false)
  end.

(** The fixture file a participant with a complete [test_setup] is
    expected to ship. *)
Definition expected_fixture (charm_config : CharmConfig) : PurePath :=
  match override charm_config "location" with
  | Some location => charm_path charm_config </> Path location
  | None => charm_path charm_config </> Path FIXTURE_PATH
  end.

(** What provisioning says when it gives up. *)
Definition clone_failed (charm_config : CharmConfig) : string :=
  "Failed to clone repo for " +:+ name charm_config +:+ "; check the charms.yaml config.".

Definition fixture_missing (charm_config : CharmConfig) : string :=
  "fixture missing for charm " +:+ name charm_config.

Definition no_fixture_spec (charm_path : PurePath) : string :=
  "unable to get fixture spec from " +:+ path_str charm_path.

(** What [_prepare_repo] may raise: any exception that is no SetupError,
    or a SetupError with one of three messages. *)
Definition gives_up (charm_config : CharmConfig) (e : Exn) : Prop :=
  match e with
  | SetupError msg =>
      msg = clone_failed charm_config ∨ msg = "venv setup failed"
      ∨ msg = fixture_missing charm_config
  | _ => True
  end.

(** ** The shape of the results *)

(** The charm is registered for the role, and the role has tests. *)
Definition registered_in_roles (tests_per_role : TestsPerRole) (role charm : string)
    : Prop :=
  (role = "provider" ∨ role = "requirer") ∧
  ∃ spec,
    PyDict.get role tests_per_role = Some spec ∧
    tests spec ≠ [] ∧
    charm ∈ name <$> charms spec.

Definition registered_in_versions (versions : TestsPerVersion)
    (version role charm : string) : Prop :=
  ∃ tests_per_role,
    PyDict.get version versions = Some tests_per_role ∧
    registered_in_roles tests_per_role role charm.

Definition registered (registry : Registry) (interface version role charm : string)
    : Prop :=
  ∃ versions,
    PyDict.get interface registry = Some versions ∧
    registered_in_versions versions version role charm.

(** No interface is listed twice, and no version of an interface is: what
    is collected is a dictionary of dictionaries. *)
Definition well_keyed (registry : Registry) : Prop :=
  NoDup (PyDict.keys registry) ∧
  ∀ item, item ∈ registry → NoDup (PyDict.keys item.2).

(** ** Names and numerals *)

(** Every character is a decimal digit. *)
Fixpoint all_digits (s : string) : bool :=
  match s with
  | EmptyString => true
  | String c rest =>
      match digit_of c with
      | Some _ => all_digits rest
      | None => false
      end
  end.

(** A name without a slash. *)
Fixpoint plain (s : string) : bool :=
  match s with
  | EmptyString => true
  | String c rest => negb (Ascii.eqb c "/") && plain rest
  end.

(** The name of the test file generated for an interface. *)
Definition test_filename (interface : string) : string :=
  "interface-test-" +:+ interface +:+ ".py".

(** ** Where a verdict comes from *)

(** The verdict is the one that a unit of work returned for a charm of
    this name among the charms of the role. *)
Definition verdict_of_unit (h : Host) (spec : RoleTestSpec) (interface : string)
    (version : Z) (role charm : string) (verdict : bool) : Prop :=
  ∃ charm_config w w',
    charm_config ∈ charms spec ∧
    name charm_config = charm ∧
    _test_charm h charm_config interface version role w = (Returned verdict, w').

Definition verdict_in_roles (h : Host) (tests_per_role : TestsPerRole)
    (interface : string) (version : Z) (role charm : string) (verdict : bool) : Prop :=
  ∃ spec,
    PyDict.get role tests_per_role = Some spec ∧
    verdict_of_unit h spec interface version role charm verdict.

Definition verdict_in_versions (h : Host) (versions : TestsPerVersion)
    (interface version role charm : string) (verdict : bool) : Prop :=
  ∃ tests_per_role version_int,
    (version, tests_per_role) ∈ versions ∧
    py_int (slice_from_1 version) = Some version_int ∧
    verdict_in_roles h tests_per_role interface version_int role charm verdict.

(** The process is where it was, or in the directory of one of the
    charms. *)
Definition wanders (charm_configs : list CharmConfig) : relation World :=
  λ w w', cwd w' = cwd w ∨ ∃ c, c ∈ charm_configs ∧ cwd w' = charm_location c.

(** ** Where commands are spawned *)

(** An event of the unit of work of a charm, started in directory [start],
    that is where it belongs: a clone spawned from [start], another command
    spawned in the directory of the charm, or the writing of a file. *)
Definition in_place (charm_config : CharmConfig) (start : Location) (ev : Event) : Prop :=
  match ev with
  | Spawned wd cmd =>
      if is_git cmd then
        wd = start ∧ cmd = clone_command charm_config (charm_path charm_config)
      else wd = charm_location charm_config
  | Written _ => True
  | CleanCalled _ | Rmtree _ => False
  end.

(** ** Registries that cannot abort a run by themselves *)

(** The errors of the filesystem. *)
Definition filesystem_error (e : Exn) : Prop :=
  match e with
  | FileNotFoundError | NotADirectoryError | IsADirectoryError => True
  | _ => False
  end.

(** Both roles are there, and every charm has a [test_setup] that is
    absent, empty or complete. *)
Definition sound_roles (tests_per_role : TestsPerRole) : Prop :=
  is_Some (PyDict.get "provider" tests_per_role) ∧
  is_Some (PyDict.get "requirer" tests_per_role) ∧
  Forall complete_setup (charms_of_roles tests_per_role).

(** Every version label has an integer after its first character, and
    the roles of every version are sound. *)
Definition sound_versions (versions : TestsPerVersion) : Prop :=
  Forall (λ item, is_Some (py_int (slice_from_1 item.1)) ∧ sound_roles item.2) versions.

Definition sound_registry (registry : Registry) : Prop :=
  Forall (λ item, sound_versions item.2) registry.
(* ===================================================================== *)
(** * Fixture resolution *)
(* ===================================================================== *)

Section Fixture.

Lemma lookup_empty_setup (key : string) :
  (∅ : gmap string (option string)) !! key = None.
Proof. apply lookup_empty. Qed.

Lemma truthy_or_else (v : option string) :
  truthy v = true → ∃ s, v = Some s ∧ s ≠ "" ∧ or_else v "" = s.
Proof.
  destruct v as [s|]; simpl; [|discriminate].
  destruct (String.eqb_spec s ""); [discriminate|]. eauto.
Qed.

Lemma get_fixture_resolved (charm_config : CharmConfig) (charm_path : PurePath)
    (w : World) :
  complete_setup charm_config →
  _get_fixture charm_config charm_path w =
    (Returned
       (FixtureSpec.make
          (match override charm_config "location" with
           | Some location => charm_path </> Path location
           | None => charm_path </> Path FIXTURE_PATH
           end)
          (match override charm_config "identifier" with
           | Some identifier => identifier
           | None => FIXTURE_IDENTIFIER
           end)), w).
Proof.
  unfold complete_setup, _get_fixture, override.
  destruct (test_setup charm_config) as [setup|]; [|done].
  intros [-> | [[loc Hloc] [ident Hident]]].
  - rewrite !lookup_empty_setup. by rewrite decide_True.
  - rewrite decide_False; last by (intros ->; rewrite lookup_empty_setup in Hloc).
    unfold bind, subscript_map, ret. rewrite Hloc, Hident.
    destruct loc as [l|], ident as [i|]; simpl;
      repeat match goal with |- context [String.eqb ?s ""] =>
               destruct (String.eqb s "") end; reflexivity.
Qed.

(** A mapping that lacks one of the two keys makes the subscript raise. *)
Lemma get_fixture_missing_key (charm_config : CharmConfig) (charm_path : PurePath)
    (w : World) (setup : gmap string (option string)) :
  test_setup charm_config = Some setup →
  setup ≠ ∅ →
  setup !! "location" = None ∨
    (is_Some (setup !! "location") ∧ setup !! "identifier" = None) →
  ∃ key, _get_fixture charm_config charm_path w = (Raised (KeyError key), w).
Proof.
  intros Hsetup Hne Hmiss. unfold _get_fixture. rewrite Hsetup.
  rewrite decide_False by done. unfold bind, subscript_map, ret, raise.
  destruct Hmiss as [-> | [[loc ->] ->]]; eauto.
Qed.

End Fixture.





(* ===================================================================== *)
(** * What a computation does to the world *)
(* ===================================================================== *)

Section Steps.
Context (R : relation World) `{!PreOrder R}.

Lemma steps_ret {A} (a : A) w : steps R (ret a) w.
Proof. unfold steps. reflexivity. Qed.

Lemma steps_raise {A} e w : steps R (@raise A e) w.
Proof. unfold steps. reflexivity. Qed.

Lemma steps_same {A} (m : M A) w : (m w).2 = w → steps R m w.
Proof. unfold steps. intros ->. reflexivity. Qed.

Lemma steps_bind {A B} (m : M A) (k : A → M B) w :
  steps R m w →
  (∀ a w', m w = (Returned a, w') → steps R (k a) w') →
  steps R (bind m k) w.
Proof.
  unfold steps, bind. intros Hm Hk.
  destruct (m w) as [[a|e] w'] eqn:Hrun; simpl in *; [|done].
  etrans; [exact Hm|]. by apply Hk.
Qed.

Lemma steps_try_except {A} (m : M A) handler w :
  steps R m w →
  (∀ e w' h, m w = (Raised e, w') → handler e = Some h → steps R h w') →
  steps R (try_except m handler) w.
Proof.
  unfold steps, try_except. intros Hm Hh.
  destruct (m w) as [[a|e] w'] eqn:Hrun; simpl in *; [done|].
  destruct (handler e) as [h'|] eqn:He; simpl; [|done].
  etrans; [exact Hm|]. by eapply Hh.
Qed.

Lemma steps_for_each {A S} (xs : list A) (body : S → A → M S) :
  (∀ s x w, x ∈ xs → steps R (body s x) w) →
  ∀ s w, steps R (for_each xs body s) w.
Proof.
  induction xs as [|x rest IH]; intros Hbody s w; simpl.
  - apply steps_ret.
  - apply steps_bind.
    + apply Hbody. by left.
    + intros s' w' _. apply IH. intros ? ? ? ?. apply Hbody. by right.
Qed.

Lemma steps_subscript {V} (d : PyDict.t V) k w : steps R (subscript d k) w.
Proof. unfold subscript. destruct (PyDict.get k d); [apply steps_ret|apply steps_raise]. Qed.

Lemma steps_get_fixture charm_config charm_path w :
  steps R (_get_fixture charm_config charm_path) w.
Proof.
  unfold _get_fixture. destruct (test_setup charm_config) as [setup|]; [|apply steps_ret].
  case_decide; [apply steps_ret|].
  unfold subscript_map.
  apply steps_bind; [destruct (setup !! "location"); [apply steps_ret|apply steps_raise]|].
  intros ? ? _.
  apply steps_bind; [destruct (setup !! "identifier"); [apply steps_ret|apply steps_raise]|].
  intros ? ? _. apply steps_ret.
Qed.

Context (h : Host).
Context (R_chdir : ∀ p w, steps R (chdir p) w).
Context (R_call : ∀ cmd w, is_git cmd = false → steps R (subprocess_call h cmd) w).
Context (R_clone : ∀ cmd w, is_git cmd = true → steps R (subprocess_call h cmd) w).
Context (R_write : ∀ p content w, steps R (write_text p content) w).

Lemma steps_subprocess_check_call cmd w :
  is_git cmd = false → steps R (subprocess_check_call h cmd) w.
Proof.
  intros Hcmd. apply steps_bind; [by apply R_call|].
  intros retcode w' _. destruct (retcode =? 0); [apply steps_ret|apply steps_raise].
Qed.

Lemma steps_generate_test interface test_path fixture_id version w :
  steps R (_generate_test interface test_path fixture_id version) w.
Proof.
  unfold _generate_test. apply steps_bind; [apply R_write|].
  intros ? ? _. apply steps_ret.
Qed.

Lemma steps_clone_charm_repo charm_config charm_path w :
  steps R (_clone_charm_repo h charm_config charm_path) w.
Proof.
  unfold _clone_charm_repo. apply steps_bind; [by apply R_clone|].
  intros retcode ? _. destruct (0 <? retcode); [apply steps_raise|apply steps_ret].
Qed.

Lemma steps_setup_venv charm_path w : steps R (_setup_venv h charm_path) w.
Proof.
  unfold _setup_venv.
  apply steps_bind; [by apply steps_same|]. intros original_wd ? _.
  apply steps_bind; [apply R_chdir|]. intros ? ? _.
  apply steps_bind; [|intros; apply R_chdir].
  apply steps_try_except.
  - repeat (apply steps_bind; [by apply steps_subprocess_check_call|]; intros ? ? _).
    by apply steps_subprocess_check_call.
  - intros [] ? ? _ [= <-]. apply steps_raise.
Qed.

Lemma steps_run_test_with_pytest root test_path w :
  steps R (_run_test_with_pytest h root test_path) w.
Proof.
  unfold _run_test_with_pytest.
  apply steps_bind; [by apply steps_same|]. intros original_wd ? _.
  apply steps_bind; [apply R_chdir|]. intros ? ? _.
  apply steps_bind; [|intros; apply R_chdir].
  apply steps_try_except; [by apply steps_subprocess_check_call|].
  intros [] ? ? _ [= <-]. apply steps_raise.
Qed.

Lemma steps_prepare_repo_rest charm_config interface version charm_path w :
  steps R (prepare_repo_rest charm_config interface version charm_path) w.
Proof.
  unfold prepare_repo_rest. apply steps_bind.
  { apply steps_try_except; [apply steps_get_fixture|].
    intros [] ? ? _ [= <-]. apply steps_raise. }
  intros spec ? _. apply steps_bind; [by apply steps_same|]. intros found ? _.
  apply steps_bind; [destruct found; [apply steps_ret|apply steps_raise]|].
  intros ? ? _. apply steps_bind; [apply steps_generate_test|].
  intros ? ? _. apply steps_ret.
Qed.

Lemma steps_prepare_repo charm_config interface version root w :
  steps R (_prepare_repo h charm_config interface version root) w.
Proof.
  unfold _prepare_repo.
  apply steps_bind; [by apply steps_same|]. intros present ? _.
  apply steps_bind; [|intros ? ? _; apply steps_prepare_repo_rest].
  destruct present; [apply steps_ret|].
  apply steps_bind; [apply steps_clone_charm_repo|].
  intros ? ? _. apply steps_setup_venv.
Qed.

Lemma steps_test_charm charm_config interface version role w :
  steps R (_test_charm h charm_config interface version role) w.
Proof.
  unfold _test_charm. apply steps_bind.
  { apply steps_try_except.
    - apply steps_bind; [apply steps_prepare_repo|]. intros ? ? _. apply steps_ret.
    - intros [] ? ? _ [= <-]. apply steps_ret. }
  intros [[charm_path test_path]|] ? _; [|apply steps_ret].
  apply steps_try_except.
  - apply steps_bind; [apply steps_run_test_with_pytest|]. intros ? ? _. apply steps_ret.
  - intros [] ? ? _ [= <-]. apply steps_ret.
Qed.

Lemma steps_test_charms_body interface version role out charm_config w :
  steps R (_test_charms_body h interface version role out charm_config) w.
Proof.
  unfold _test_charms_body. apply steps_bind; [apply steps_test_charm|].
  intros ? ? _. apply steps_ret.
Qed.

Lemma steps_test_charms charm_configs interface version role w :
  steps R (_test_charms h charm_configs interface version role) w.
Proof.
  unfold _test_charms. apply steps_for_each. intros. apply steps_test_charms_body.
Qed.

Lemma steps_test_roles tests_per_role interface version w :
  steps R (_test_roles h tests_per_role interface version) w.
Proof.
  unfold _test_roles. apply steps_for_each. intros results role ? _.
  unfold _test_roles_body. apply steps_bind; [apply steps_subscript|].
  intros spec ? _. destruct (tests spec), (charms spec); try apply steps_ret.
  apply steps_bind; [apply steps_test_charms|]. intros ? ? _. apply steps_ret.
Qed.

Lemma steps_test_interface_version tests_per_version interface w :
  steps R (_test_interface_version h tests_per_version interface) w.
Proof.
  unfold _test_interface_version. apply steps_for_each.
  intros results [version tests_per_role] ? _. unfold _test_interface_version_body.
  apply steps_bind.
  { destruct (py_int (slice_from_1 version)); [apply steps_ret|apply steps_raise]. }
  intros ? ? _. apply steps_bind; [apply steps_test_roles|].
  intros ? ? _. apply steps_ret.
Qed.

Lemma steps_traversal collected results w :
  steps R (for_each collected (run_interface_tests_body h) results) w.
Proof.
  apply steps_for_each. intros acc [interface version_to_roles] ? _.
  unfold run_interface_tests_body.
  apply steps_bind; [apply steps_test_interface_version|].
  intros ? ? _. apply steps_ret.
Qed.

End Steps.

(* ===================================================================== *)
(** * Traces *)
(* ===================================================================== *)

Section Traces.
Context (P : Event → Prop).

#[global] Instance appends_preorder : PreOrder (appends P).
Proof.
  split.
  - intros w. exists []. split; [by rewrite app_nil_r|constructor].
  - intros w1 w2 w3 (evs & H12 & Hevs) (evs' & H23 & Hevs').
    exists (evs ++ evs'). split; [by rewrite H23, H12, app_assoc|by apply Forall_app].
Qed.

Lemma appends_chdir p w : steps (appends P) (chdir p) w.
Proof.
  exists []. split; [|constructor]. rewrite app_nil_r. unfold chdir.
  by destruct (fs w !! resolve w p) as [[|?]|].
Qed.

Lemma appends_write_text p content w :
  (∀ file, P (Written file)) → steps (appends P) (write_text p content) w.
Proof.
  intros P_written. unfold steps, appends, write_text.
  destruct (fs w !! resolve w p) as [[|?]|], (fs w !! removelast (resolve w p)) as [[|?]|];
    simpl; first [ by (exists []; rewrite app_nil_r)
                 | eexists [_]; split; [done|]; repeat constructor; apply P_written ].
Qed.

Lemma appends_subprocess_call h cmd w :
  P (Spawned (cwd w) cmd) → steps (appends P) (subprocess_call h cmd) w.
Proof. intros HP. eexists [_]. split; [done|]. by repeat constructor. Qed.

Lemma appends_traversal h collected results w :
  (∀ wd cmd, P (Spawned wd cmd)) →
  (∀ file, P (Written file)) →
  steps (appends P) (for_each collected (run_interface_tests_body h) results) w.
Proof.
  intros P_spawned P_written. apply steps_traversal; [apply _|..].
  - apply appends_chdir.
  - intros. by apply appends_subprocess_call.
  - intros. by apply appends_subprocess_call.
  - intros. by apply appends_write_text.
Qed.

End Traces.

(* ===================================================================== *)
(** * The workspace reset *)
(* ===================================================================== *)

Section Reset.

Lemma clean_unfold root w :
  _clean root w =
    (Returned tt,
     if is_dir w root then
       {| cwd := cwd w;
          fs := filter (λ entry, ¬ resolve w root `prefix_of` entry.1) (fs w);
          trace := (trace w ++ [CleanCalled (resolve w root)]) ++ [Rmtree (resolve w root)] |}
     else
       {| cwd := cwd w; fs := fs w;
          trace := trace w ++ [CleanCalled (resolve w root)] |}).
Proof.
  unfold _clean, bind, log, path_is_dir, rmtree, ret, is_dir, resolve; simpl.
  by destruct (fs w !! _) as [[|?]|].
Qed.

Lemma clean_removes_tree root w loc :
  is_dir w root = true →
  fs (_clean root w).2 !! loc =
    if decide (resolve w root `prefix_of` loc) then None else fs w !! loc.
Proof.
  intros Hdir. rewrite clean_unfold, Hdir. simpl.
  rewrite map_lookup_filter. destruct (fs w !! loc) as [node|]; simpl.
  - case_decide.
    + rewrite option_guard_False; [done|]. simpl. tauto.
    + by rewrite option_guard_True.
  - by case_decide.
Qed.

Lemma clean_keeps_other root w :
  is_dir w root = false → fs (_clean root w).2 = fs w.
Proof. intros Hdir. by rewrite clean_unfold, Hdir. Qed.

Lemma clean_leaves_no_root root w : is_dir (_clean root w).2 root = false.
Proof.
  destruct (is_dir w root) eqn:Hdir.
  - unfold is_dir.
    replace (resolve (_clean root w).2 root) with (resolve w root)
      by (rewrite clean_unfold, Hdir; reflexivity).
    rewrite clean_removes_tree by done. by rewrite decide_True.
  - rewrite clean_unfold, Hdir. exact Hdir.
Qed.

Lemma clean_idempotent root w :
  fs (_clean root (_clean root w).2).2 = fs (_clean root w).2.
Proof. apply clean_keeps_other, clean_leaves_no_root. Qed.

Lemma resolve_anchored w p : anchored p = true → resolve w p = parts p.
Proof. unfold resolve. by intros ->. Qed.

Lemma resolve_default_root w : resolve w default_root = parts default_root.
Proof. by apply resolve_anchored. Qed.

Lemma clean_trace root w :
  ∃ extra,
    trace (_clean root w).2 = trace w ++ CleanCalled (resolve w root) :: extra ∧
    Forall (λ ev, ¬ is_clean_call ev) extra.
Proof.
  rewrite clean_unfold. destruct (is_dir w root); simpl.
  - exists [Rmtree (resolve w root)]. split; [by rewrite <- app_assoc|].
    repeat constructor. exact id.
  - by exists [].
Qed.

End Reset.

(** C7. Every run calls the workspace reset exactly once, and before
    anything else: the first event of the run is the call of [_clean] on
    the workspace root, and no later event is a call of [_clean].  [_clean]
    always returns; when the root is a directory, the root and everything
    below it are gone afterwards and every other entry is kept; when the
    root is absent the filesystem is as it was; a second call changes
    nothing more. *)
Theorem workspace_reset_once_and_first (h : Host) :
  (∀ path include w,
     ∃ events,
       trace (run_interface_tests h path include w).2
         = trace w ++ CleanCalled (parts default_root) :: events ∧
       Forall (λ ev, ¬ is_clean_call ev) events) ∧
  (∀ root w,
     (_clean root w).1 = Returned tt ∧
     (is_dir w root = true →
        ∀ loc, fs (_clean root w).2 !! loc =
                 if decide (resolve w root `prefix_of` loc) then None else fs w !! loc) ∧
     (exists_ w root = false → fs (_clean root w).2 = fs w) ∧
     fs (_clean root (_clean root w).2).2 = fs (_clean root w).2).
Proof.
  split.
  - intros path include w. unfold run_interface_tests, bind.
    pose proof (clean_trace default_root w) as Hclean.
    destruct (_clean default_root w) as [[[]|e] w1].
    + destruct (appends_traversal (λ ev, ¬ is_clean_call ev)
                  h (collect_tests h path include) [] w1 (λ _ _, id) (λ _, id))
        as (evs & Htrace & Hevs).
      destruct Hclean as (extra & Hclean & Hextra).
      rewrite resolve_default_root in Hclean. cbn [snd] in Hclean.
      exists (extra ++ evs). split.
      * rewrite Htrace, Hclean. by rewrite <- app_assoc.
      * by apply Forall_app.
    + destruct Hclean as (extra & Hclean & Hextra).
      rewrite resolve_default_root in Hclean. cbn [snd] in Hclean.
      by exists extra.
  - intros root w. split; [by rewrite clean_unfold|].
    split; [intros; by apply clean_removes_tree|].
    split; [|apply clean_idempotent].
    intros Habsent. apply clean_keeps_other.
    unfold exists_, is_dir in *. by destruct (fs w !! resolve w root).
Qed.

(* ===================================================================== *)
(** * Cloning *)
(* ===================================================================== *)

Section Cloning.
Context (h : Host).

Lemma new_events_app w w' events :
  trace w' = trace w ++ events → new_events w w' = events.
Proof. intros H. unfold new_events. rewrite H. by rewrite drop_app_length. Qed.

Lemma returncode_exited_positive status : status ≠ 0%N → (0 <? returncode (Exited status)) = true.
Proof. intros Hne. simpl. apply Z.ltb_lt. lia. Qed.

Lemma clone_charm_repo_failure charm_config charm_path w status :
  spawn h (cwd w) (clone_command charm_config charm_path) = Exited status →
  status ≠ 0%N →
  ∃ w',
    _clone_charm_repo h charm_config charm_path w =
      (Raised (SetupError ("Failed to clone repo for " +:+ name charm_config
                           +:+ "; check the charms.yaml config.")), w') ∧
    trace w' = trace w ++ [Spawned (cwd w) (clone_command charm_config charm_path)].
Proof.
  intros Hspawn Hne. unfold _clone_charm_repo, bind, subprocess_call.
  fold (clone_command charm_config charm_path). rewrite Hspawn.
  rewrite returncode_exited_positive by done. unfold raise. eauto.
Qed.

(** A shell that a signal kills has a negative return code, which the
    test [retcode > 0] lets through. *)
Lemma clone_charm_repo_killed charm_config charm_path w signal :
  spawn h (cwd w) (clone_command charm_config charm_path) = Killed signal →
  (_clone_charm_repo h charm_config charm_path w).1 = Returned tt.
Proof.
  intros Hspawn. unfold _clone_charm_repo, bind, subprocess_call.
  fold (clone_command charm_config charm_path). by rewrite Hspawn.
Qed.

End Cloning.

(** C6. Whenever the clone of a participant exits with a status other than
    zero, the provisioner raises a SetupError whose message carries the
    participant's name, and the clone is the only command it has spawned:
    no step of an environment build was run. *)
Theorem failed_clone_raises_SetupError
    (h : Host) (charm_config : CharmConfig) (interface : string) (version : Z)
    (root : PurePath) (w : World) (status : N) :
  let charm_path := root </> Path (name charm_config) in
  exists_ w charm_path = false →
  spawn h (cwd w) (clone_command charm_config charm_path) = Exited status →
  status ≠ 0%N →
  ∃ w',
    _prepare_repo h charm_config interface version root w =
      (Raised (SetupError ("Failed to clone repo for " +:+ name charm_config
                           +:+ "; check the charms.yaml config.")), w') ∧
    new_events w w' = [Spawned (cwd w) (clone_command charm_config charm_path)] ∧
    Forall (λ ev, is_env_step ev = false) (new_events w w').
Proof.
  intros charm_path Habsent Hspawn Hne.
  destruct (clone_charm_repo_failure h charm_config charm_path w status Hspawn Hne)
    as (w' & Hclone & Htrace).
  exists w'. unfold _prepare_repo. fold charm_path.
  unfold bind at 1. unfold path_exists. rewrite Habsent. cbv iota beta.
  unfold bind at 1. unfold bind at 1. rewrite Hclone.
  rewrite (new_events_app _ _ _ Htrace).
  split; [done|]. split; [done|]. by repeat constructor.
Qed.

Lemma failed_clone_raises_SetupError_witness :
  let h := Examples.offline [] in
  let charm_path := default_root </> Path (name Examples.traefik) in
  ∃ w',
    _prepare_repo h Examples.traefik "ingress" 2 default_root Examples.fresh =
      (Raised (SetupError ("Failed to clone repo for " +:+ name Examples.traefik
                           +:+ "; check the charms.yaml config.")), w') ∧
    new_events Examples.fresh w'
      = [Spawned (cwd Examples.fresh) (clone_command Examples.traefik charm_path)] ∧
    Forall (λ ev, is_env_step ev = false) (new_events Examples.fresh w').
Proof.
  apply (failed_clone_raises_SetupError (Examples.offline []) Examples.traefik
           "ingress" 2 default_root Examples.fresh 128%N).
  - reflexivity.
  - reflexivity.
  - discriminate.
Defined.

(* ===================================================================== *)
(** * The working directory *)
(* ===================================================================== *)

Section WorkingDirectory.
Context (h : Host).

Lemma chdir_returned p w w' :
  chdir p w = (Returned tt, w') →
  cwd w' = resolve w p ∧ fs w' = fs w ∧ trace w' = trace w ∧ fs w !! resolve w p = Some Dir.
Proof.
  unfold chdir. destruct (fs w !! resolve w p) as [[|?]|]; [|done..].
  by intros [= <-].
Qed.

Lemma chdir_raised p w e w' : chdir p w = (Raised e, w') → w' = w.
Proof.
  unfold chdir. destruct (fs w !! resolve w p) as [[|?]|]; [done|..]; by intros [= _ <-].
Qed.

Lemma subprocess_call_cwd cmd w : cwd (subprocess_call h cmd w).2 = cwd w.
Proof. done. Qed.

Lemma subprocess_check_call_cwd cmd w : cwd (subprocess_check_call h cmd w).2 = cwd w.
Proof.
  unfold subprocess_check_call, bind, subprocess_call.
  by destruct (returncode _ =? 0).
Qed.

(** The three installation steps stay in the directory they start in. *)
Lemma venv_steps_cwd w :
  cwd ((subprocess_check_call h MkVenv ;>
        subprocess_check_call h PipInstallTester ;>
        subprocess_check_call h PipInstallRequirements) w).2 = cwd w.
Proof.
  unfold bind.
  destruct (subprocess_check_call h MkVenv w) as [[[]|e] w1] eqn:H1;
    pose proof (subprocess_check_call_cwd MkVenv w) as C1; rewrite H1 in C1; [|done].
  destruct (subprocess_check_call h PipInstallTester w1) as [[[]|e] w2] eqn:H2;
    pose proof (subprocess_check_call_cwd PipInstallTester w1) as C2; rewrite H2 in C2;
    simpl in *; [|congruence].
  rewrite subprocess_check_call_cwd. congruence.
Qed.

(** On the paths that return, the working directory is back where it was. *)
Lemma setup_venv_returned charm_path w w' :
  _setup_venv h charm_path w = (Returned tt, w') → cwd w' = cwd w.
Proof.
  unfold _setup_venv. unfold bind at 1. unfold getcwd.
  unfold bind at 1. destruct (chdir charm_path w) as [[[]|e] w1] eqn:Hcd; [|done].
  unfold bind at 1. unfold try_except.
  destruct ((subprocess_check_call h MkVenv ;> _) w1) as [[[]|e] w2]; simpl.
  - intros Hback. by apply chdir_returned in Hback as (-> & _).
  - destruct e; simpl; discriminate.
Qed.

Lemma run_test_with_pytest_returned root test_path w w' :
  _run_test_with_pytest h root test_path w = (Returned tt, w') → cwd w' = cwd w.
Proof.
  unfold _run_test_with_pytest. unfold bind at 1. unfold getcwd.
  unfold bind at 1. destruct (chdir root w) as [[[]|e] w1] eqn:Hcd; [|done].
  unfold bind at 1. unfold try_except.
  destruct (subprocess_check_call h (Pytest test_path) w1) as [[[]|e] w2]; simpl.
  - intros Hback. by apply chdir_returned in Hback as (-> & _).
  - destruct e; simpl; discriminate.
Qed.

(** On the paths that raise SetupError or InterfaceTestError, the process
    stays in the directory it had changed into. *)
Lemma setup_venv_raised charm_path w msg w' :
  _setup_venv h charm_path w = (Raised (SetupError msg), w') →
  cwd w' = resolve w charm_path.
Proof.
  unfold _setup_venv. unfold bind at 1. unfold getcwd.
  unfold bind at 1. destruct (chdir charm_path w) as [[[]|e] w1] eqn:Hcd.
  - apply chdir_returned in Hcd as (Hcwd & _).
    unfold bind at 1. unfold try_except.
    pose proof (venv_steps_cwd w1) as Hsteps.
    destruct ((subprocess_check_call h MkVenv ;> _) w1) as [[[]|e] w2]; simpl in *.
    + intros Hback. apply chdir_raised in Hback. congruence.
    + destruct e; simpl; intros [= <-]; congruence.
  - intros [= -> <-]. unfold chdir in Hcd.
    by destruct (fs w !! resolve w charm_path) as [[|?]|].
Qed.

Lemma run_test_with_pytest_raised root test_path w w' :
  _run_test_with_pytest h root test_path w = (Raised InterfaceTestError, w') →
  cwd w' = resolve w root.
Proof.
  unfold _run_test_with_pytest. unfold bind at 1. unfold getcwd.
  unfold bind at 1. destruct (chdir root w) as [[[]|e] w1] eqn:Hcd.
  - apply chdir_returned in Hcd as (Hcwd & _).
    unfold bind at 1. unfold try_except.
    pose proof (subprocess_check_call_cwd (Pytest test_path) w1) as Hstep.
    destruct (subprocess_check_call h (Pytest test_path) w1) as [[[]|e] w2]; simpl in *.
    + intros Hback. apply chdir_raised in Hback. congruence.
    + destruct e; simpl; intros [= <-]; congruence.
  - intros [= -> <-]. unfold chdir in Hcd.
    by destruct (fs w !! resolve w root) as [[|?]|].
Qed.

End WorkingDirectory.

(** C1, at a failing input.  The process is in [/home] and traefik has been
    cloned.  When the requirements cannot be installed, [_setup_venv] raises
    SetupError and leaves the process inside the charm directory; when the
    tests fail, [_run_test_with_pytest] raises InterfaceTestError and leaves
    the process inside the charm directory as well.  In both cases the
    working directory after the call differs from the one before it. *)
Theorem failure_leaves_working_directory_changed :
  let before := Examples.cloned in
  let charm_path := Examples.traefik_path in
  let test_path := charm_path </> Path "tests/interface/interface-test-ingress.py" in
  let built := _setup_venv (Examples.broken_requirements []) charm_path before in
  let tested := _run_test_with_pytest (Examples.failing_tests []) charm_path test_path before in
  built.1 = Raised (SetupError "venv setup failed") ∧
  cwd built.2 = parts charm_path ∧
  tested.1 = Raised InterfaceTestError ∧
  cwd tested.2 = parts charm_path ∧
  cwd before = ["home"] ∧
  parts charm_path ≠ cwd before.
Proof. vm_compute. repeat split; discriminate. Qed.

(* ===================================================================== *)
(** * Dictionaries and loops *)
(* ===================================================================== *)

Section Dictionaries.
Context {V : Type}.
Implicit Types (d : PyDict.t V) (k : string) (v : V).

Lemma get_set_eq k v d : PyDict.get k (PyDict.set k v d) = Some v.
Proof.
  induction d as [|[k' v'] rest IH]; simpl.
  - by rewrite String.eqb_refl.
  - destruct (String.eqb_spec k' k) as [->|Hne]; simpl.
    + by rewrite String.eqb_refl.
    + by destruct (String.eqb_spec k' k).
Qed.

Lemma get_set_ne k k' v d : k ≠ k' → PyDict.get k (PyDict.set k' v d) = PyDict.get k d.
Proof.
  intros Hne. induction d as [|[k0 v0] rest IH]; simpl.
  - by destruct (String.eqb_spec k' k) as [->|].
  - destruct (String.eqb_spec k0 k') as [->|Hne']; simpl.
    + by destruct (String.eqb_spec k' k) as [->|].
    + by destruct (String.eqb_spec k0 k).
Qed.

Lemma get_set k k' v d :
  PyDict.get k (PyDict.set k' v d) = if decide (k = k') then Some v else PyDict.get k d.
Proof. case_decide as H; [subst; apply get_set_eq|by apply get_set_ne]. Qed.

Lemma keys_set_new k v d :
  PyDict.get k d = None → PyDict.keys (PyDict.set k v d) = PyDict.keys d ++ [k].
Proof.
  induction d as [|[k' v'] rest IH]; simpl; [done|].
  destruct (String.eqb_spec k' k); [done|]. intros H. simpl. f_equal. by apply IH.
Qed.

Lemma keys_set_old k v d :
  is_Some (PyDict.get k d) → PyDict.keys (PyDict.set k v d) = PyDict.keys d.
Proof.
  induction d as [|[k' v'] rest IH]; simpl; [by intros [? ?]|].
  destruct (String.eqb_spec k' k) as [->|]; [done|].
  intros H. simpl. f_equal. by apply IH.
Qed.

Lemma get_Some_elem k v d : PyDict.get k d = Some v → (k, v) ∈ d.
Proof.
  induction d as [|[k' v'] rest IH]; simpl; [done|].
  destruct (String.eqb_spec k' k) as [->|].
  - intros [= ->]. by left.
  - intros H. right. by apply IH.
Qed.

Lemma get_None_keys k d : PyDict.get k d = None ↔ k ∉ PyDict.keys d.
Proof.
  induction d as [|[k' v'] rest IH]; simpl.
  - split; [intros _; apply not_elem_of_nil|done].
  - rewrite not_elem_of_cons. destruct (String.eqb_spec k' k) as [->|]; [by split; [|intros []]|].
    rewrite IH. split; [by split|by intros []].
Qed.

Lemma elem_get_NoDup k v d : NoDup (PyDict.keys d) → (k, v) ∈ d → PyDict.get k d = Some v.
Proof.
  induction d as [|[k' v'] rest IH]; simpl; [by intros _ ?%elem_of_nil|].
  intros [Hfresh Hrest]%NoDup_cons [[= -> ->]|Hin]%elem_of_cons.
  - by rewrite String.eqb_refl.
  - destruct (String.eqb_spec k' k) as [->|]; [|by apply IH].
    exfalso. apply Hfresh. apply list_elem_of_fmap. by exists (k, v).
Qed.

(** The order in which the keys were inserted does not matter to a lookup. *)
Lemma get_permutation k d d' :
  NoDup (PyDict.keys d) → d ≡ₚ d' → PyDict.get k d = PyDict.get k d'.
Proof.
  intros Hnodup Hperm.
  assert (Hnodup' : NoDup (PyDict.keys d')).
  { unfold PyDict.keys. by rewrite <- Hperm. }
  destruct (PyDict.get k d) as [v|] eqn:Hget.
  - symmetry. apply elem_get_NoDup; [done|]. rewrite <- Hperm. by apply get_Some_elem.
  - destruct (PyDict.get k d') as [v'|] eqn:Hget'; [|done].
    apply get_Some_elem in Hget'. rewrite <- Hperm in Hget'.
    apply (elem_get_NoDup _ _ _ Hnodup) in Hget'. congruence.
Qed.

End Dictionaries.

Section Loops.
Context {A S : Type}.
Implicit Types (xs : list A) (body : S → A → M S).

Lemma for_each_app xs ys body s w :
  for_each (xs ++ ys) body s w =
    match for_each xs body s w with
    | (Returned s', w') => for_each ys body s' w'
    | (Raised e, w') => (Raised e, w')
    end.
Proof.
  revert s w. induction xs as [|x rest IH]; intros s w; simpl; [done|].
  unfold bind. destruct (body s x w) as [[s'|e] w']; [apply IH|done].
Qed.

Lemma returned_pair (r : Result S * World) s :
  r.1 = Returned s → r = (Returned s, r.2).
Proof. destruct r as [res w]. simpl. by intros ->. Qed.

Lemma for_each_cons x xs body s w :
  for_each (x :: xs) body s w =
    match body s x w with
    | (Returned s', w') => for_each xs body s' w'
    | (Raised e, w') => (Raised e, w')
    end.
Proof. done. Qed.

(** An invariant of the loop state that every iteration keeps. *)
Lemma for_each_invariant (I : S → Prop) xs body :
  (∀ s x w s' w', x ∈ xs → I s → body s x w = (Returned s', w') → I s') →
  ∀ s w s' w', I s → for_each xs body s w = (Returned s', w') → I s'.
Proof.
  induction xs as [|x rest IH]; intros Hbody s w s' w' Hs; simpl.
  - by intros [= <- _].
  - unfold bind. destruct (body s x w) as [[s1|e] w1] eqn:Hx; [|done].
    apply IH; [|by eapply Hbody; [left|..]].
    intros ? ? ? ? ? ?. apply Hbody. by right.
Qed.

End Loops.

Section Results.
Context {A V : Type}.
Context (body : PyDict.t V → string * A → M (PyDict.t V)).
Context (Q : string * A → V → Prop).

(** Every iteration stores, under the key of its item, a value that [Q]
    relates to the item. *)
Context (body_sets : ∀ acc item w acc' w',
  body acc item w = (Returned acc', w') →
  ∃ v, acc' = PyDict.set item.1 v acc ∧ Q item v).

Lemma for_each_values items acc w d w' k v :
  for_each items body acc w = (Returned d, w') →
  PyDict.get k d = Some v →
  PyDict.get k acc = Some v ∨ ∃ item, item ∈ items ∧ item.1 = k ∧ Q item v.
Proof.
  revert acc w. induction items as [|item rest IH]; intros acc w; simpl.
  - intros [= <- _]. by left.
  - unfold bind. destruct (body acc item w) as [[acc1|e] w1] eqn:Hitem; [|done].
    intros Hrest Hget. destruct (IH _ _ Hrest Hget) as [Hacc | (item' & Hin & Hk & HQ)].
    + destruct (body_sets _ _ _ _ _ Hitem) as (v' & -> & HQ).
      rewrite get_set in Hacc. case_decide as Hk.
      * injection Hacc as <-. right. exists item. split; [by left|done].
      * by left.
    + right. exists item'. split; [by right|done].
Qed.

Lemma for_each_values_NoDup items w d w' k x :
  NoDup (PyDict.keys items) →
  PyDict.get k items = Some x →
  for_each items body [] w = (Returned d, w') →
  ∃ v, PyDict.get k d = Some v ∧ Q (k, x) v.
Proof.
  intros Hnodup Hx Hrun.
  assert (Hkey : is_Some (PyDict.get k d)).
  { apply get_Some_elem in Hx.
    revert Hrun. generalize (@nil (string * V)). revert w.
    clear Hnodup. induction items as [|item rest IH]; intros w acc; [by apply elem_of_nil in Hx|].
    simpl. unfold bind. destruct (body acc item w) as [[acc1|e] w1] eqn:Hitem; [|done].
    intros Hrest. apply elem_of_cons in Hx as [<-|Hin]; [|by eapply IH].
    destruct (body_sets _ _ _ _ _ Hitem) as (v' & -> & _). simpl in Hrest.
    eapply (for_each_invariant (λ acc, is_Some (PyDict.get k acc))); [|..|exact Hrest].
    - intros s item' ? s' ? _ Hs Hstep.
      destruct (body_sets _ _ _ _ _ Hstep) as (v'' & -> & _).
      rewrite get_set. by case_decide.
    - rewrite get_set_eq. eauto. }
  destruct Hkey as [v Hv]. exists v. split; [done|].
  destruct (for_each_values _ _ _ _ _ _ _ Hrun Hv) as [Hnil | ([k' x'] & Hin & Hk & HQ)];
    [done|]. simpl in Hk. subst k'.
  apply (elem_get_NoDup _ _ _ Hnodup) in Hin. congruence.
Qed.

End Results.

(* ===================================================================== *)
(** * Version labels *)
(* ===================================================================== *)

Section Versions.
Context (h : Host).

Lemma test_interface_version_body_malformed interface results version tests_per_role w :
  py_int (slice_from_1 version) = None →
  _test_interface_version_body h interface results (version, tests_per_role) w
    = (Raised ValueError, w).
Proof. intros Hint. unfold _test_interface_version_body, bind. by rewrite Hint. Qed.

Lemma test_interface_version_malformed interface before version tests_per_role after
    w results w' :
  py_int (slice_from_1 version) = None →
  for_each before (_test_interface_version_body h interface) [] w = (Returned results, w') →
  _test_interface_version h (before ++ (version, tests_per_role) :: after) interface w
    = (Raised ValueError, w').
Proof.
  intros Hint Hbefore. unfold _test_interface_version.
  rewrite for_each_app, Hbefore, for_each_cons.
  by rewrite test_interface_version_body_malformed.
Qed.

End Versions.



(* ===================================================================== *)
(** * Roles *)
(* ===================================================================== *)

Section Roles.
Context (h : Host).

Lemma test_roles_body_empty tests_per_role interface version results role spec w :
  PyDict.get role tests_per_role = Some spec →
  empty_role spec →
  _test_roles_body h tests_per_role interface version results role w
    = (Returned (PyDict.set role [] results), w).
Proof.
  intros Hspec Hempty. unfold _test_roles_body, bind, subscript. rewrite Hspec.
  unfold ret at 1. destruct Hempty as [-> | ->]; [done|].
  by destruct (tests spec).
Qed.

Lemma test_roles_body_sets tests_per_role interface version results role w acc w' :
  _test_roles_body h tests_per_role interface version results role w = (Returned acc, w') →
  ∃ per_charm, acc = PyDict.set role per_charm results.
Proof.
  unfold _test_roles_body, bind, subscript.
  destruct (PyDict.get role tests_per_role) as [spec|]; [|done]. unfold ret at 1.
  destruct (tests spec), (charms spec); try (intros [= <- _]; eauto).
  destruct (_test_charms _ _ _ _ _ _) as [[per_charm|e] w1]; [|done].
  intros [= <- _]. eauto.
Qed.

Lemma test_roles_unfold tests_per_role interface version w :
  _test_roles h tests_per_role interface version w =
    match _test_roles_body h tests_per_role interface version [] "provider" w with
    | (Returned acc, w1) =>
        _test_roles_body h tests_per_role interface version acc "requirer" w1
    | (Raised e, w1) => (Raised e, w1)
    end.
Proof.
  unfold _test_roles. rewrite for_each_cons.
  destruct (_test_roles_body _ _ _ _ _ _ _) as [[acc|e] w1]; [|done].
  rewrite for_each_cons.
  by destruct (_test_roles_body _ _ _ _ _ _ _) as [[acc'|e] w2].
Qed.

Lemma test_roles_returned tests_per_role interface version w per_role w' :
  _test_roles h tests_per_role interface version w = (Returned per_role, w') →
  ∃ provided required, per_role = [("provider", provided); ("requirer", required)].
Proof.
  rewrite test_roles_unfold.
  destruct (_test_roles_body _ _ _ _ [] _ _) as [[acc|e] w1] eqn:Hprovider; [|done].
  apply test_roles_body_sets in Hprovider as [provided ->].
  intros [required ->]%test_roles_body_sets. by exists provided, required.
Qed.

Lemma test_roles_keys tests_per_role interface version w per_role w' :
  _test_roles h tests_per_role interface version w = (Returned per_role, w') →
  PyDict.keys per_role = ["provider"; "requirer"].
Proof. by intros (provided & required & ->)%test_roles_returned. Qed.

Lemma test_roles_empty_role tests_per_role interface version w per_role w' role spec :
  _test_roles h tests_per_role interface version w = (Returned per_role, w') →
  role = "provider" ∨ role = "requirer" →
  PyDict.get role tests_per_role = Some spec →
  empty_role spec →
  PyDict.get role per_role = Some [].
Proof.
  rewrite test_roles_unfold. intros Hrun Hrole Hspec Hempty.
  destruct Hrole as [-> | ->].
  - rewrite (test_roles_body_empty _ _ _ _ _ _ _ Hspec Hempty) in Hrun.
    apply test_roles_body_sets in Hrun as [required ->]. done.
  - destruct (_test_roles_body _ _ _ _ [] _ _) as [[acc|e] w1] eqn:Hprovider; [|done].
    rewrite (test_roles_body_empty _ _ _ _ _ _ _ Hspec Hempty) in Hrun.
    injection Hrun as <- _. apply get_set_eq.
Qed.

(** Only lookups are made in the mapping of the roles. *)
Lemma test_roles_lookups tests_per_role tests_per_role' interface version w :
  (∀ role, PyDict.get role tests_per_role' = PyDict.get role tests_per_role) →
  _test_roles h tests_per_role' interface version w
    = _test_roles h tests_per_role interface version w.
Proof.
  intros Hget. rewrite !test_roles_unfold.
  unfold _test_roles_body, bind, subscript. by rewrite !Hget.
Qed.

Lemma test_interface_version_body_sets interface acc item w acc' w' :
  _test_interface_version_body h interface acc item w = (Returned acc', w') →
  ∃ per_role,
    acc' = PyDict.set item.1 per_role acc ∧
    ∃ version_int w1 w2,
      _test_roles h item.2 interface version_int w1 = (Returned per_role, w2).
Proof.
  destruct item as [version tests_per_role]. unfold _test_interface_version_body, bind.
  destruct (py_int (slice_from_1 version)) as [n|]; [|done]. unfold ret at 1.
  destruct (_test_roles h tests_per_role interface n w) as [[per_role|e] w1] eqn:Hroles;
    [|done].
  intros [= <- _]. exists per_role. split; [done|]. by exists n, w, w1.
Qed.

Lemma run_interface_tests_body_sets acc item w acc' w' :
  run_interface_tests_body h acc item w = (Returned acc', w') →
  ∃ per_version,
    acc' = PyDict.set item.1 per_version acc ∧
    ∃ w1 w2, _test_interface_version h item.2 item.1 w1 = (Returned per_version, w2).
Proof.
  destruct item as [interface versions]. unfold run_interface_tests_body, bind.
  destruct (_test_interface_version h versions interface w) as [[per_version|e] w1] eqn:Hv;
    [|done].
  intros [= <- _]. exists per_version. split; [done|]. by exists w, w1.
Qed.

Lemma run_interface_tests_traversal path include w tree w' :
  run_interface_tests h path include w = (Returned tree, w') →
  for_each (collect_tests h path include) (run_interface_tests_body h) []
    (_clean default_root w).2 = (Returned tree, w').
Proof.
  unfold run_interface_tests, bind.
  by destruct (_clean default_root w) as [[[]|e] w0].
Qed.

End Roles.

(** C4. A role whose test list or charm list is empty gets the empty mapping:
    the iteration for that role stores [{}] under the role's key and leaves
    the world as it was, so no charm is attempted; and in the tree a run
    returns, [tree[interface][version][role]] is there and is [{}].  (The
    value under a role is a mapping by its type; it cannot be [false].) *)
Theorem empty_role_yields_empty_mapping (h : Host) :
  (∀ tests_per_role interface version results role spec w,
     PyDict.get role tests_per_role = Some spec →
     empty_role spec →
     _test_roles_body h tests_per_role interface version results role w
       = (Returned (PyDict.set role [] results), w)) ∧
  (∀ path include w tree w' interface versions version tests_per_role role spec,
     run_interface_tests h path include w = (Returned tree, w') →
     NoDup (PyDict.keys (collect_tests h path include)) →
     PyDict.get interface (collect_tests h path include) = Some versions →
     NoDup (PyDict.keys versions) →
     PyDict.get version versions = Some tests_per_role →
     role = "provider" ∨ role = "requirer" →
     PyDict.get role tests_per_role = Some spec →
     empty_role spec →
     ∃ per_version per_role,
       PyDict.get interface tree = Some per_version ∧
       PyDict.get version per_version = Some per_role ∧
       PyDict.get role per_role = Some []).
Proof.
  split; [intros; by eapply test_roles_body_empty|].
  intros path include w tree w' interface versions version tests_per_role role spec
    Hrun%run_interface_tests_traversal Hinterfaces Hversions Hnodup Hroles Hrole Hspec Hempty.
  destruct (for_each_values_NoDup _ _ (run_interface_tests_body_sets h)
              _ _ _ _ _ _ Hinterfaces Hversions Hrun)
    as (per_version & Hper_version & w1 & w2 & Hrun_version).
  simpl in Hrun_version.
  destruct (for_each_values_NoDup _ _ (test_interface_version_body_sets h interface)
              _ _ _ _ _ _ Hnodup Hroles Hrun_version)
    as (per_role & Hper_role & n & w3 & w4 & Hrun_roles).
  simpl in Hrun_roles.
  exists per_version, per_role. split; [done|]. split; [done|].
  by eapply test_roles_empty_role.
Qed.

Lemma empty_role_yields_empty_mapping_witness :
  let h := Examples.healthy Examples.ingress_v2 in
  ∃ per_version per_role,
    PyDict.get "ingress" [("ingress", [("v2", [("provider", [("traefik", true)]);
                                               ("requirer", [])])])]
      = Some per_version ∧
    PyDict.get "v2" per_version = Some per_role ∧
    PyDict.get "requirer" per_role = Some [].
Proof.
  intros h.
  apply (proj2 (empty_role_yields_empty_mapping h) (Path ".") "*" Examples.fresh
           [("ingress", [("v2", [("provider", [("traefik", true)]); ("requirer", [])])])]
           (run_interface_tests h (Path ".") "*" Examples.fresh).2
           "ingress"
           [("v2", [("provider", mkRole [test_case "t1"] [Examples.traefik]);
                    ("requirer", mkRole [] [])])]
           "v2"
           [("provider", mkRole [test_case "t1"] [Examples.traefik]);
            ("requirer", mkRole [] [])]
           "requirer" (mkRole [] [])).
  - apply returned_pair. vm_compute. reflexivity.
  - apply NoDup_singleton.
  - reflexivity.
  - apply NoDup_singleton.
  - reflexivity.
  - by right.
  - reflexivity.
  - by left.
Defined.

(** C8. In every tree a run returns, the roles of every interface and
    version are [provider] then [requirer], in this order.  The order in
    which the registry holds the roles plays no part: [_test_roles] gives
    the same outcome on any reordering of the mapping of the roles. *)
Theorem roles_in_fixed_order (h : Host) :
  (∀ path include w tree w' interface per_version version per_role,
     run_interface_tests h path include w = (Returned tree, w') →
     PyDict.get interface tree = Some per_version →
     PyDict.get version per_version = Some per_role →
     PyDict.keys per_role = ["provider"; "requirer"]) ∧
  (∀ tests_per_role tests_per_role' interface version w,
     NoDup (PyDict.keys tests_per_role) →
     tests_per_role ≡ₚ tests_per_role' →
     _test_roles h tests_per_role' interface version w
       = _test_roles h tests_per_role interface version w) ∧
  (∀ tests_per_role interface version w per_role w',
     _test_roles h tests_per_role interface version w = (Returned per_role, w') →
     PyDict.keys per_role = ["provider"; "requirer"]).
Proof.
  split; [|split].
  - intros path include w tree w' interface per_version version per_role
      Hrun%run_interface_tests_traversal Hper_version Hper_role.
    destruct (for_each_values _ _ (run_interface_tests_body_sets h)
                _ _ _ _ _ _ _ Hrun Hper_version)
      as [Hnil | ([interface' versions] & _ & _ & w1 & w2 & Hrun_version)]; [done|].
    simpl in Hrun_version.
    destruct (for_each_values _ _ (test_interface_version_body_sets h interface')
                _ _ _ _ _ _ _ Hrun_version Hper_role)
      as [Hnil | ([version' roles] & _ & _ & n & w3 & w4 & Hrun_roles)]; [done|].
    by eapply test_roles_keys.
  - intros tests_per_role tests_per_role' interface version w Hnodup Hperm.
    apply test_roles_lookups. intros role. symmetry. by apply get_permutation.
  - intros. by eapply test_roles_keys.
Qed.

Lemma roles_in_fixed_order_witness :
  let h := Examples.healthy Examples.ingress_v2_requirer_first in
  PyDict.keys [("provider", [("traefik", true)]); ("requirer", @nil (string * bool))]
    = ["provider"; "requirer"] ∧
  _test_roles h Examples.requirer_first "ingress" 2 Examples.fresh
    = _test_roles h Examples.provider_first "ingress" 2 Examples.fresh.
Proof.
  intros h. split.
  - apply (proj1 (roles_in_fixed_order h) (Path ".") "*" Examples.fresh
             [("ingress", [("v2", [("provider", [("traefik", true)]); ("requirer", [])])])]
             (run_interface_tests h (Path ".") "*" Examples.fresh).2
             "ingress"
             [("v2", [("provider", [("traefik", true)]); ("requirer", [])])]
             "v2").
    + apply returned_pair. vm_compute. reflexivity.
    + reflexivity.
    + reflexivity.
  - apply (proj1 (proj2 (roles_in_fixed_order h))).
    + apply NoDup_cons. split; [|apply NoDup_singleton].
      rewrite list_elem_of_singleton. discriminate.
    + apply Permutation_swap.
Defined.

(* ===================================================================== *)
(** * The filesystem *)
(* ===================================================================== *)

Section Filesystem.
Implicit Types (m : gmap Location Node) (entries : list (Location * Node)).

Lemma fill_cons entry entries m :
  fill (entry :: entries) m =
    match fill entries m !! entry.1 with
    | Some _ => fill entries m
    | None => <[entry.1 := entry.2]> (fill entries m)
    end.
Proof. done. Qed.

(** What [fill] leaves at a location depends on what was there only. *)
Lemma fill_lookup_ext entries m1 m2 loc :
  m1 !! loc = m2 !! loc → fill entries m1 !! loc = fill entries m2 !! loc.
Proof.
  intros Hloc. induction entries as [|entry rest IH]; [done|].
  rewrite !fill_cons. destruct (decide (entry.1 = loc)) as [<-|Hne].
  - pose proof IH as IH'.
    destruct (fill rest m1 !! entry.1) eqn:H1, (fill rest m2 !! entry.1) eqn:H2;
      try discriminate; rewrite ?lookup_insert_eq; congruence.
  - destruct (fill rest m1 !! entry.1), (fill rest m2 !! entry.1);
      by rewrite ?lookup_insert_ne.
Qed.

Lemma fill_keeps entries m loc node :
  m !! loc = Some node → fill entries m !! loc = Some node.
Proof.
  intros Hloc. induction entries as [|entry rest IH]; [done|].
  rewrite fill_cons. destruct (fill rest m !! entry.1) eqn:Hentry; [done|].
  rewrite lookup_insert_ne; [done|]. intros Heq. rewrite Heq in Hentry. congruence.
Qed.

Lemma fill_elsewhere entries m loc :
  loc ∉ entries.*1 → fill entries m !! loc = m !! loc.
Proof.
  induction entries as [|entry rest IH]; [done|].
  rewrite fmap_cons, not_elem_of_cons. intros [Hne Hrest].
  rewrite fill_cons. destruct (fill rest m !! entry.1); [by apply IH|].
  rewrite lookup_insert_ne by done. by apply IH.
Qed.

Lemma fill_creates entries m loc :
  loc ∈ entries.*1 → is_Some (fill entries m !! loc).
Proof.
  induction entries as [|entry rest IH]; [by intros ?%elem_of_nil|].
  rewrite fmap_cons, elem_of_cons. intros Hin. rewrite fill_cons.
  destruct (decide (loc = entry.1)) as [->|Hne].
  - destruct (fill rest m !! entry.1) eqn:Hentry; [by rewrite Hentry|].
    rewrite lookup_insert_eq. eauto.
  - destruct Hin as [?|Hin]; [done|].
    destruct (fill rest m !! entry.1); [by apply IH|].
    rewrite lookup_insert_ne by done. by apply IH.
Qed.

Lemma prefixes_self (l : Location) : l ∈ prefixes l.
Proof.
  induction l as [|c rest IH]; simpl; [by left|].
  right. apply list_elem_of_fmap. by exists rest.
Qed.

Lemma prefixes_prefix (l p : Location) : p ∈ prefixes l → p `prefix_of` l.
Proof.
  revert p. induction l as [|c rest IH]; intros p; simpl.
  - intros ->%list_elem_of_singleton. done.
  - intros [->|Hin]%elem_of_cons; [apply prefix_nil|].
    apply list_elem_of_fmap in Hin as (q & -> & Hq). by apply prefix_cons, IH.
Qed.

Lemma mkdirs_target target m : m !! target = None → mkdirs target m !! target = Some Dir.
Proof.
  intros Habsent. unfold mkdirs.
  generalize (prefixes_self target). generalize (prefixes target) as dirs.
  induction dirs as [|d rest IH]; [by intros ?%elem_of_nil|].
  intros Hin. rewrite fmap_cons, fill_cons. simpl.
  destruct (decide (d = target)) as [->|Hne].
  - destruct (fill _ m !! target) as [node|] eqn:Hthere; [|by rewrite lookup_insert_eq].
    destruct (decide (target ∈ rest)) as [Hrest|Hrest].
    + specialize (IH Hrest). injection IH as ->. exact Hthere.
    + exfalso. change (map ?f rest) with (f <$> rest) in Hthere.
      rewrite fill_elsewhere in Hthere; [congruence|].
      rewrite <- list_fmap_compose. by rewrite list_fmap_id.
  - apply elem_of_cons in Hin as [?|Hin]; [done|].
    destruct (fill _ m !! d); [by apply IH|].
    rewrite lookup_insert_ne by done. by apply IH.
Qed.

Lemma install_target target tree m :
  m !! target = None → install target tree m !! target = Some Dir.
Proof. intros Habsent. unfold install. by apply fill_keeps, mkdirs_target. Qed.

Lemma install_keeps target tree m loc node :
  m !! loc = Some node → install target tree m !! loc = Some node.
Proof. intros Hloc. unfold install, mkdirs. by do 2 apply fill_keeps. Qed.

Lemma install_lookup_ext target tree m1 m2 loc :
  m1 !! loc = m2 !! loc → install target tree m1 !! loc = install target tree m2 !! loc.
Proof. intros Hloc. unfold install, mkdirs. by do 2 apply fill_lookup_ext. Qed.

(** A clone touches the target, what is above it and what is below it. *)
Lemma install_elsewhere target tree m loc :
  ¬ target `prefix_of` loc → ¬ loc `prefix_of` target →
  install target tree m !! loc = m !! loc.
Proof.
  intros Hbelow Habove. unfold install, mkdirs.
  rewrite !fill_elsewhere; [done|..].
  - rewrite <- list_fmap_compose, list_fmap_id. by intros ?%prefixes_prefix.
  - rewrite <- list_fmap_compose. intros (entry & -> & _)%list_elem_of_fmap.
    apply Hbelow. simpl. by apply prefix_app_r.
Qed.

Lemma not_exists w p : exists_ w p = false → fs w !! resolve w p = None.
Proof. unfold exists_. by destruct (fs w !! resolve w p). Qed.

Lemma exists_present w p : exists_ w p = true ↔ is_Some (fs w !! resolve w p).
Proof.
  unfold exists_. destruct (fs w !! resolve w p); split; eauto; try done.
Qed.

#[global] Instance grows_preorder : PreOrder grows.
Proof.
  split.
  - by intros w loc.
  - intros w1 w2 w3 H12 H23 loc. destruct (H12 loc), (H23 loc). split; auto.
Qed.

Lemma grows_same_fs w w' : fs w' = fs w → grows w w'.
Proof. intros Hfs loc. by rewrite Hfs. Qed.

Lemma grows_chdir p w : steps grows (chdir p) w.
Proof.
  apply grows_same_fs. unfold chdir. by destruct (fs w !! resolve w p) as [[|?]|].
Qed.

Lemma grows_subprocess_call h cmd w : steps grows (subprocess_call h cmd) w.
Proof.
  unfold steps, subprocess_call. simpl.
  destruct cmd; try by apply grows_same_fs.
  destruct (checkout h (cwd w) _) as [tree|]; [|by apply grows_same_fs].
  intros loc; simpl. split.
  - apply install_keeps.
  - intros [node Hnode]. exists node. by apply install_keeps.
Qed.

Lemma grows_write_text p content w : steps grows (write_text p content) w.
Proof.
  unfold steps, write_text.
  destruct (fs w !! resolve w p) as [[|?]|] eqn:Hfile,
           (fs w !! removelast (resolve w p)) as [[|?]|];
    simpl; try by apply grows_same_fs.
  all: intros loc; simpl; destruct (decide (loc = resolve w p)) as [->|Hne];
    rewrite ?lookup_insert_eq, ?lookup_insert_ne by done; rewrite ?Hfile; split; eauto; done.
Qed.

End Filesystem.

(* ===================================================================== *)
(** * Provisioning *)
(* ===================================================================== *)

Section Counting.

Lemma clones_app evs evs' : clones (evs ++ evs') = (clones evs + clones evs')%nat.
Proof. unfold clones. by rewrite List.filter_app, length_app. Qed.

Lemma env_builds_app evs evs' :
  env_builds (evs ++ evs') = (env_builds evs + env_builds evs')%nat.
Proof. unfold env_builds. by rewrite List.filter_app, length_app. Qed.

Lemma quiet_counts evs : Forall quiet evs → clones evs = 0%nat ∧ env_builds evs = 0%nat.
Proof.
  induction 1 as [|ev rest [Hclone Hbuild] _ [IHc IHb]]; [done|].
  unfold clones, env_builds in *. simpl. by rewrite Hclone, Hbuild.
Qed.

Lemma counted_then c1 b1 c2 b2 w1 w2 w3 :
  counted c1 b1 w1 w2 → counted c2 b2 w2 w3 → counted (c1 + c2) (b1 + b2) w1 w3.
Proof.
  intros (evs & H12 & Hc & Hb) (evs' & H23 & Hc' & Hb'). exists (evs ++ evs').
  rewrite clones_app, env_builds_app, H23, H12, app_assoc. by subst.
Qed.

Lemma counted_quiet w w' : appends quiet w w' → counted 0 0 w w'.
Proof. intros (evs & Htrace & [Hc Hb]%quiet_counts). by exists evs. Qed.

Lemma counted_then_quiet c b w1 w2 w3 :
  counted c b w1 w2 → appends quiet w2 w3 → counted c b w1 w3.
Proof.
  intros H12 H23%counted_quiet.
  replace c with (c + 0)%nat by lia. replace b with (b + 0)%nat by lia.
  by eapply counted_then.
Qed.

Lemma counted_new_events c b w w' :
  counted c b w w' → clones (new_events w w') = c ∧ env_builds (new_events w w') = b.
Proof.
  intros (evs & Htrace & Hc & Hb). unfold new_events.
  by rewrite Htrace, drop_app_length.
Qed.

Lemma appends_weaken (P P' : Event → Prop) w w' :
  (∀ ev, P ev → P' ev) → appends P w w' → appends P' w w'.
Proof.
  intros Himpl (evs & Htrace & Hevs). exists evs. split; [done|].
  by eapply Forall_impl.
Qed.

Lemma write_is_quiet ev : is_write ev → quiet ev.
Proof. by destruct ev. Qed.

(** A computation that counts, followed by one that is quiet. *)
Lemma steps_bind_counted {A B} c b (m : M A) (k : A → M B) w :
  steps (counted c b) m w →
  (∀ a w', m w = (Returned a, w') → steps (appends quiet) (k a) w') →
  steps (counted c b) (bind m k) w.
Proof.
  unfold steps, bind. intros Hm Hk.
  destruct (m w) as [[a|e] w'] eqn:Hrun; simpl in *; [|done].
  eapply counted_then_quiet; [exact Hm|]. by apply Hk.
Qed.

Lemma steps_try_except_counted {A} c b (m : M A) handler w :
  steps (counted c b) m w →
  (∀ e w' h, m w = (Raised e, w') → handler e = Some h → steps (appends quiet) h w') →
  steps (counted c b) (try_except m handler) w.
Proof.
  unfold steps, try_except. intros Hm Hh.
  destruct (m w) as [[a|e] w'] eqn:Hrun; simpl in *; [done|].
  destruct (handler e) as [h'|] eqn:He; simpl; [|done].
  eapply counted_then_quiet; [exact Hm|]. by eapply Hh.
Qed.

#[global] Instance stays_preorder : PreOrder stays.
Proof. split; [done|]. intros w1 w2 w3 H12 H23. unfold stays in *. congruence. Qed.

End Counting.

Section Provisioning.
Context (h : Host).

Lemma joinpath_anchored root q : anchored root = true → anchored (root </> q) = true.
Proof. unfold joinpath. intros Hroot. by destruct (anchored q) eqn:Hq. Qed.

Lemma prepare_repo_present charm_config interface version root w :
  exists_ w (root </> Path (name charm_config)) = true →
  _prepare_repo h charm_config interface version root w
    = prepare_repo_rest charm_config interface version
        (root </> Path (name charm_config)) w.
Proof.
  intros Hpresent. unfold _prepare_repo. unfold bind at 1. unfold path_exists.
  rewrite Hpresent. reflexivity.
Qed.

Lemma prepare_repo_absent charm_config interface version root w :
  exists_ w (root </> Path (name charm_config)) = false →
  let charm_path := root </> Path (name charm_config) in
  _prepare_repo h charm_config interface version root w
    = ((_clone_charm_repo h charm_config charm_path ;> _setup_venv h charm_path) ;>
       prepare_repo_rest charm_config interface version charm_path) w.
Proof.
  intros Habsent. unfold _prepare_repo. unfold bind at 1. unfold path_exists.
  rewrite Habsent. reflexivity.
Qed.

Lemma prepare_repo_rest_writes charm_config interface version charm_path w :
  steps (appends is_write) (prepare_repo_rest charm_config interface version charm_path) w.
Proof.
  apply steps_prepare_repo_rest; [apply _|].
  intros. by apply appends_write_text.
Qed.

Lemma prepare_repo_rest_grows charm_config interface version charm_path w :
  steps grows (prepare_repo_rest charm_config interface version charm_path) w.
Proof. apply steps_prepare_repo_rest; [apply _|]. apply grows_write_text. Qed.

Lemma prepare_repo_rest_stays charm_config interface version charm_path w :
  steps stays (prepare_repo_rest charm_config interface version charm_path) w.
Proof.
  apply steps_prepare_repo_rest; [apply _|].
  intros p content w0. unfold steps, stays, write_text.
  by destruct (fs w0 !! resolve w0 p) as [[|?]|],
              (fs w0 !! removelast (resolve w0 p)) as [[|?]|].
Qed.

Lemma prepare_repo_rest_returned charm_config interface version charm_path w paths w' :
  prepare_repo_rest charm_config interface version charm_path w = (Returned paths, w') →
  paths.1 = charm_path.
Proof.
  unfold prepare_repo_rest, bind.
  destruct (try_except _ _ w) as [[spec|e] w1]; [|done].
  unfold path_is_file. destruct (is_file w1 _); [|done]. unfold ret at 1.
  destruct (_generate_test _ _ _ _ w1) as [[test_path|e] w2]; [|done].
  by intros [= <- _].
Qed.

(** The clone of a participant that succeeds and leaves a tree. *)
Lemma clone_charm_repo_success charm_config charm_path w tree :
  spawn h (cwd w) (clone_command charm_config charm_path) = Exited 0 →
  checkout h (cwd w) (clone_command charm_config charm_path) = Some tree →
  _clone_charm_repo h charm_config charm_path w =
    (Returned tt,
     {| cwd := cwd w;
        fs := install (resolve w charm_path) tree (fs w);
        trace := trace w ++ [Spawned (cwd w) (clone_command charm_config charm_path)] |}).
Proof.
  intros Hspawn Hcheckout. unfold _clone_charm_repo, bind, subprocess_call.
  fold (clone_command charm_config charm_path). rewrite Hspawn, Hcheckout. reflexivity.
Qed.

Lemma quiet_check_call cmd w :
  quiet (Spawned (cwd w) cmd) → steps (appends quiet) (subprocess_check_call h cmd) w.
Proof.
  intros Hquiet. apply steps_bind; [apply _|by apply appends_subprocess_call|].
  intros retcode w' _. destruct (retcode =? 0); [apply steps_ret|apply steps_raise]; apply _.
Qed.

Lemma subprocess_check_call_stays cmd w : stays w (subprocess_check_call h cmd w).2.
Proof. unfold stays. apply subprocess_check_call_cwd. Qed.

(** In a charm directory that is there, an environment build creates the
    virtual environment once. *)
Lemma setup_venv_builds_once charm_path w :
  fs w !! resolve w charm_path = Some Dir →
  steps (counted 0 1) (_setup_venv h charm_path) w.
Proof.
  intros Hdir. unfold steps, _setup_venv. unfold bind at 1. unfold getcwd.
  unfold bind at 1. unfold chdir at 1. rewrite Hdir.
  match goal with |- counted 0 1 w (bind ?m ?k ?w0).2 =>
    change (steps (counted 0 1) (bind m k) w0) end.
  apply steps_bind_counted; [|intros; apply appends_chdir].
  apply steps_try_except_counted; [|intros [] ? ? _ [= <-]; apply steps_raise; apply _].
  apply steps_bind_counted.
  - unfold subprocess_check_call. apply steps_bind_counted.
    + eexists [_]. by split.
    + intros retcode w' _.
      destruct (retcode =? 0); [apply steps_ret|apply steps_raise]; apply _.
  - intros [] w1 Hvenv.
    pose proof (subprocess_check_call_stays MkVenv
                  {| cwd := resolve w charm_path; fs := fs w; trace := trace w |}) as Hcwd.
    rewrite Hvenv in Hcwd.
    apply steps_bind; [apply _|by apply quiet_check_call|].
    intros [] w2 Htester. by apply quiet_check_call.
Qed.

Lemma setup_venv_grows charm_path w : steps grows (_setup_venv h charm_path) w.
Proof.
  apply steps_setup_venv; [apply _|apply grows_chdir|intros; apply grows_subprocess_call].
Qed.

Lemma setup_venv_quiet_rest charm_config interface version charm_path w :
  steps (appends quiet) (prepare_repo_rest charm_config interface version charm_path) w.
Proof.
  eapply appends_weaken; [exact write_is_quiet|]. apply prepare_repo_rest_writes.
Qed.

(** The first provisioning of a participant: one clone, one build, and the
    charm directory is there afterwards. *)
Lemma prepare_repo_first charm_config interface version root w tree :
  let charm_path := root </> Path (name charm_config) in
  anchored root = true →
  exists_ w charm_path = false →
  spawn h (cwd w) (clone_command charm_config charm_path) = Exited 0 →
  checkout h (cwd w) (clone_command charm_config charm_path) = Some tree →
  let w1 := (_prepare_repo h charm_config interface version root w).2 in
  counted 1 1 w w1 ∧ fs w1 !! parts charm_path = Some Dir.
Proof.
  intros charm_path Hroot Habsent Hspawn Hcheckout.
  assert (Hloc : ∀ w0, resolve w0 charm_path = parts charm_path).
  { intros w0. by apply resolve_anchored, joinpath_anchored. }
  set (cloned := {| cwd := cwd w;
                    fs := install (resolve w charm_path) tree (fs w);
                    trace := trace w ++ [Spawned (cwd w)
                                           (clone_command charm_config charm_path)] |}).
  set (rest := prepare_repo_rest charm_config interface version charm_path).
  assert (Hrun : _prepare_repo h charm_config interface version root w
                 = (_setup_venv h charm_path ;> rest) cloned).
  { rewrite prepare_repo_absent by done. fold charm_path rest. unfold bind.
    by rewrite (clone_charm_repo_success _ _ _ tree). }
  rewrite Hrun. clear Hrun.
  assert (Hdir : fs cloned !! parts charm_path = Some Dir).
  { simpl. rewrite Hloc. apply install_target.
    rewrite <- (Hloc w). by apply not_exists. }
  assert (Hclone : counted 1 0 w cloned) by (eexists [_]; by split).
  assert (Hcount : steps (counted 0 1) (_setup_venv h charm_path ;> rest) cloned).
  { apply steps_bind_counted.
    - apply setup_venv_builds_once. by rewrite Hloc.
    - intros. apply setup_venv_quiet_rest. }
  assert (Hgrows : steps grows (_setup_venv h charm_path ;> rest) cloned).
  { apply steps_bind; [apply _|apply setup_venv_grows|].
    intros. apply prepare_repo_rest_grows. }
  unfold steps in Hcount, Hgrows. split.
  - by apply (counted_then 1 0 0 1 _ cloned).
  - by apply Hgrows.
Qed.

End Provisioning.

(** C3, as the specification words it, fails: when the clone fails and
    leaves nothing behind, the second call clones again, and no environment
    is ever built. *)
Lemma provisioning_twice_counterexample : ¬ provisioning_twice_clones_once.
Proof.
  intros Hclaim.
  specialize (Hclaim (Examples.offline []) Examples.traefik "ingress" 2 Examples.fresh eq_refl).
  vm_compute in Hclaim. destruct Hclaim as [Hclones _]. discriminate Hclones.
Qed.

(** C3, amended.  When the charm directory is already there, the provisioner
    spawns no clone and no step of an environment build, leaves the
    directory in place and returns its path.  Hence two calls for the same
    charm name, the first on a workspace without the charm directory and
    with a clone that exits with status zero and leaves its checkout, make
    exactly one clone and exactly one environment build. *)
Theorem provisioning_reuses_charm_directory (h : Host) :
  (∀ charm_config interface version root w,
     let charm_path := root </> Path (name charm_config) in
     exists_ w charm_path = true →
     let after := _prepare_repo h charm_config interface version root w in
     clones (new_events w after.2) = 0%nat ∧
     Forall (λ ev, is_env_step ev = false) (new_events w after.2) ∧
     exists_ after.2 charm_path = true ∧
     ∀ paths, after.1 = Returned paths → paths.1 = charm_path) ∧
  (∀ charm_config charm_config' interface interface' version version' root w,
     let charm_path := root </> Path (name charm_config) in
     anchored root = true →
     name charm_config' = name charm_config →
     exists_ w charm_path = false →
     spawn h (cwd w) (clone_command charm_config charm_path) = Exited 0 →
     is_Some (checkout h (cwd w) (clone_command charm_config charm_path)) →
     let w1 := (_prepare_repo h charm_config interface version root w).2 in
     let w2 := (_prepare_repo h charm_config' interface' version' root w1).2 in
     clones (new_events w w2) = 1%nat ∧ env_builds (new_events w w2) = 1%nat).
Proof.
  split.
  - intros charm_config interface version root w charm_path Hpresent after.
    subst after. rewrite (prepare_repo_present h _ _ _ _ _ Hpresent). fold charm_path.
    pose proof (prepare_repo_rest_writes charm_config interface version charm_path w)
      as (evs & Htrace & Hevs).
    pose proof (prepare_repo_rest_grows charm_config interface version charm_path w)
      as Hgrows.
    pose proof (prepare_repo_rest_stays charm_config interface version charm_path w)
      as Hstays.
    unfold steps, stays in *.
    rewrite (new_events_app _ _ _ Htrace).
    split; [|split; [|split]].
    + apply quiet_counts. eapply Forall_impl; [exact Hevs|exact write_is_quiet].
    + eapply Forall_impl; [exact Hevs|]. by intros [].
    + apply exists_present. apply exists_present in Hpresent.
      unfold resolve in *. rewrite Hstays. by apply Hgrows.
    + intros paths Hreturned. eapply prepare_repo_rest_returned.
      by apply returned_pair.
  - intros charm_config charm_config' interface interface' version version' root w
      charm_path Hroot Hname Habsent Hspawn [tree Hcheckout] w1 w2.
    destruct (prepare_repo_first h charm_config interface version root w tree
                Hroot Habsent Hspawn Hcheckout) as [Hfirst Hdir].
    fold charm_path w1 in Hfirst, Hdir.
    assert (Hpresent : exists_ w1 (root </> Path (name charm_config')) = true).
    { rewrite Hname. fold charm_path. apply exists_present.
      rewrite resolve_anchored by (by apply joinpath_anchored). by exists Dir. }
    subst w2. rewrite (prepare_repo_present h _ _ _ _ _ Hpresent).
    apply counted_new_events. eapply counted_then_quiet; [exact Hfirst|].
    apply setup_venv_quiet_rest.
Qed.

Lemma provisioning_reuses_charm_directory_witness :
  let h := Examples.healthy [] in
  let w1 := (_prepare_repo h Examples.traefik "ingress" 1 default_root Examples.fresh).2 in
  let w2 := (_prepare_repo h Examples.traefik "ingress" 2 default_root w1).2 in
  clones (new_events Examples.fresh w2) = 1%nat ∧
  env_builds (new_events Examples.fresh w2) = 1%nat.
Proof.
  intros h.
  apply (proj2 (provisioning_reuses_charm_directory h)
           Examples.traefik Examples.traefik "ingress" "ingress" 1 2 default_root
           Examples.fresh).
  - reflexivity.
  - reflexivity.
  - reflexivity.
  - reflexivity.
  - eexists. reflexivity.
Defined.

(* ===================================================================== *)
(** * What is raised, and where it is caught *)
(* ===================================================================== *)

Section Raising.

Lemma raises_ret {T} P (a : T) : raises P (ret a).
Proof. by intros w e w'. Qed.

Lemma raises_raise {T} (P : Exn → Prop) e : P e → raises P (@raise T e).
Proof. by intros He w e' w' [= <- _]. Qed.

Lemma raises_bind {T U} P (m : M T) (k : T → M U) :
  raises P m → (∀ a, raises P (k a)) → raises P (bind m k).
Proof.
  intros Hm Hk w e w'. unfold bind.
  destruct (m w) as [[a|e0] w0] eqn:Hrun.
  - apply Hk.
  - intros [= <- _]. by eapply Hm.
Qed.

Lemma raises_try_except {T} P P' (m : M T) handler :
  raises P' m →
  (∀ e, P' e → match handler e with Some h => raises P h | None => P e end) →
  raises P (try_except m handler).
Proof.
  intros Hm Hh w e w'. unfold try_except.
  destruct (m w) as [[a|e0] w0] eqn:Hrun; [done|].
  specialize (Hh e0 (Hm _ _ _ Hrun)).
  destruct (handler e0) as [h0|]; [apply Hh|]. by intros [= <- _].
Qed.

Lemma raises_weaken {T} (P P' : Exn → Prop) (m : M T) :
  (∀ e, P e → P' e) → raises P m → raises P' m.
Proof. intros Himpl Hm w e w' Hrun. by eapply Himpl, Hm. Qed.

Lemma raises_for_each {T S} P (xs : list T) (body : S → T → M S) :
  (∀ s x, raises P (body s x)) → ∀ s, raises P (for_each xs body s).
Proof.
  intros Hbody. induction xs as [|x rest IH]; intros s; simpl.
  - apply raises_ret.
  - apply raises_bind; [apply Hbody|apply IH].
Qed.

Lemma raises_chdir p : raises escapes (chdir p).
Proof.
  intros w e w'. unfold chdir.
  destruct (fs w !! resolve w p) as [[|?]|]; [done|..]; by intros [= <- _].
Qed.

Lemma raises_write_text p content : raises escapes (write_text p content).
Proof.
  intros w e w'. unfold write_text.
  destruct (fs w !! resolve w p) as [[|?]|], (fs w !! removelast (resolve w p)) as [[|?]|];
    try done; by intros [= <- _].
Qed.

Lemma raises_check_call h cmd :
  raises (λ e, match e with CalledProcessError _ => True | _ => False end)
    (subprocess_check_call h cmd).
Proof.
  intros w e w'. unfold subprocess_check_call, bind, subprocess_call.
  destruct (_ =? 0); [done|]. by intros [= <- _].
Qed.

Lemma raises_get_fixture charm_config charm_path :
  raises escapes (_get_fixture charm_config charm_path).
Proof.
  unfold _get_fixture. destruct (test_setup charm_config) as [setup|]; [|apply raises_ret].
  case_decide; [apply raises_ret|]. unfold subscript_map.
  apply raises_bind; [destruct (setup !! "location"); [apply raises_ret|by apply raises_raise]|].
  intros ?. apply raises_bind; [|intros; apply raises_ret].
  destruct (setup !! "identifier"); [apply raises_ret|by apply raises_raise].
Qed.

Lemma raises_setup_venv h charm_path :
  raises (λ e, escapes e ∨ is_setup_error e) (_setup_venv h charm_path).
Proof.
  unfold _setup_venv. apply raises_bind; [by intros w e w'|]. intros original_wd.
  apply raises_bind; [eapply raises_weaken; [|apply raises_chdir]; by left|]. intros _.
  apply raises_bind; [|intros; eapply raises_weaken; [|apply raises_chdir]; by left].
  eapply raises_try_except.
  - repeat (apply raises_bind; [apply raises_check_call|]; intros _).
    apply raises_check_call.
  - intros []; try done. intros _. apply raises_raise. by right.
Qed.

Lemma raises_run_test_with_pytest h root test_path :
  raises (λ e, escapes e ∨ e = InterfaceTestError) (_run_test_with_pytest h root test_path).
Proof.
  unfold _run_test_with_pytest. apply raises_bind; [by intros w e w'|]. intros original_wd.
  apply raises_bind; [eapply raises_weaken; [|apply raises_chdir]; by left|]. intros _.
  apply raises_bind; [|intros; eapply raises_weaken; [|apply raises_chdir]; by left].
  eapply raises_try_except; [apply raises_check_call|].
  intros []; try done. intros _. apply raises_raise. by right.
Qed.

Lemma raises_prepare_repo h charm_config interface version root :
  raises (λ e, escapes e ∨ is_setup_error e)
    (_prepare_repo h charm_config interface version root).
Proof.
  unfold _prepare_repo. apply raises_bind; [by intros w e w'|]. intros present.
  apply raises_bind.
  { destruct present; [apply raises_ret|].
    apply raises_bind; [|intros; apply raises_setup_venv].
    unfold _clone_charm_repo. apply raises_bind; [by intros w e w'|].
    intros retcode. destruct (0 <? retcode); [apply raises_raise; by right|apply raises_ret]. }
  intros _. apply raises_bind.
  { eapply raises_try_except; [apply raises_get_fixture|].
    intros []; try done; try (by left). intros _. apply raises_raise. by right. }
  intros spec. apply raises_bind; [by intros w e w'|]. intros found.
  apply raises_bind; [destruct found; [apply raises_ret|apply raises_raise; by right]|].
  intros _. apply raises_bind; [|intros; apply raises_ret].
  unfold _generate_test. apply raises_bind; [|intros; apply raises_ret].
  eapply raises_weaken; [|apply raises_write_text]. by left.
Qed.

(** Neither SetupError nor InterfaceTestError leaves [_test_charm]. *)
Lemma raises_test_charm h charm_config interface version role :
  raises escapes (_test_charm h charm_config interface version role).
Proof.
  unfold _test_charm. apply raises_bind.
  - eapply raises_try_except.
    + apply raises_bind; [apply raises_prepare_repo|]. intros; apply raises_ret.
    + intros [] [He|He]; first [done|apply raises_ret].
  - intros [[charm_path test_path]|]; [|apply raises_ret].
    eapply raises_try_except.
    + apply raises_bind; [apply raises_run_test_with_pytest|]. intros; apply raises_ret.
    + intros [] [He|He]; first [done|apply raises_ret].
Qed.

Lemma test_charm_setup_error h charm_config interface version role w msg w' :
  _prepare_repo h charm_config interface version default_root w
    = (Raised (SetupError msg), w') →
  _test_charm h charm_config interface version role w = (Returned false, w').
Proof. intros Hprepare. unfold _test_charm, bind, try_except. by rewrite Hprepare. Qed.

Lemma test_charm_interface_test_error h charm_config interface version role
    w charm_path test_path w1 w2 :
  _prepare_repo h charm_config interface version default_root w
    = (Returned (charm_path, test_path), w1) →
  _run_test_with_pytest h charm_path test_path w1 = (Raised InterfaceTestError, w2) →
  _test_charm h charm_config interface version role w = (Returned false, w2).
Proof.
  intros Hprepare Htest. unfold _test_charm, bind, try_except.
  rewrite Hprepare. simpl. by rewrite Htest.
Qed.

End Raising.

(** C2, as the specification words it, fails for a sibling that is the same
    charm: traefik's requirements cannot be installed, so its unit as a
    provider fails and leaves the clone behind; its unit as a requirer then
    finds the directory, skips the build, and its tests pass.  Had the
    provider unit not been run, the requirer unit would have failed in the
    build itself. *)
Lemma isolation_counterexample : ¬ isolation_as_stated.
Proof.
  intros Hclaim.
  specialize (Hclaim (Examples.broken_requirements []) Examples.traefik Examples.traefik
                "ingress" "ingress" 2 2 "provider" "requirer" Examples.fresh).
  vm_compute in Hclaim. specialize (Hclaim eq_refl). discriminate Hclaim.
Qed.

(* ===================================================================== *)
(** * Isolation of the units of work *)
(* ===================================================================== *)

Section SideBySide.
Context {R : relation World}.

Lemma together_bind {T U} (m1 m2 : M T) (k1 k2 : T → M U) w1 w2 :
  together R m1 m2 w1 w2 →
  (∀ a w1' w2',
     m1 w1 = (Returned a, w1') → m2 w2 = (Returned a, w2') → R w1' w2' →
     together R (k1 a) (k2 a) w1' w2') →
  together R (bind m1 k1) (bind m2 k2) w1 w2.
Proof.
  unfold together, bind. intros [Hres Hworlds] Hk.
  destruct (m1 w1) as [[a|e] w1'], (m2 w2) as [[a'|e'] w2']; simpl in *;
    try discriminate.
  - injection Hres as <-. by apply Hk.
  - injection Hres as <-. by split.
Qed.

Lemma together_try_except {T} (m1 m2 : M T) handler w1 w2 :
  together R m1 m2 w1 w2 →
  (∀ e w1' w2' h0,
     m1 w1 = (Raised e, w1') → m2 w2 = (Raised e, w2') → handler e = Some h0 →
     R w1' w2' → together R h0 h0 w1' w2') →
  together R (try_except m1 handler) (try_except m2 handler) w1 w2.
Proof.
  unfold together, try_except. intros [Hres Hworlds] Hh.
  destruct (m1 w1) as [[a|e] w1'], (m2 w2) as [[a'|e'] w2']; simpl in *;
    try discriminate.
  - by split.
  - injection Hres as <-. destruct (handler e) as [h0|] eqn:He; [|by split].
    by eapply Hh.
Qed.

Lemma together_ret {T} (a : T) w1 w2 : R w1 w2 → together R (ret a) (ret a) w1 w2.
Proof. by split. Qed.

Lemma together_raise {T} e w1 w2 : R w1 w2 → together R (@raise T e) (raise e) w1 w2.
Proof. by split. Qed.

End SideBySide.

Section Reach.
Context (A : Location).

Lemma outside_below B loc : outside A B → B `prefix_of` loc → outside A loc.
Proof.
  intros [HAB HBA] HBloc. split.
  - intros HAloc. by destruct (prefix_weak_total A B loc HAloc HBloc).
  - intros HlocA. apply HBA. by etrans.
Qed.

Lemma removelast_prefix (l : Location) : removelast l `prefix_of` l.
Proof.
  destruct (decide (l = [])) as [->|Hne]; [done|].
  exists [List.last l ""]. by apply app_removelast_last.
Qed.

#[global] Instance alike_equivalence : Equivalence (alike A).
Proof.
  split.
  - by intros w loc.
  - intros w1 w2 H12 loc Hloc. symmetry. by apply H12.
  - intros w1 w2 w3 H12 H23 loc Hloc. etrans; [by apply H12|by apply H23].
Qed.

Lemma alike_same_fs w w' : fs w' = fs w → alike A w w'.
Proof. intros Hfs loc _. by rewrite Hfs. Qed.

Lemma alike_chdir p w : steps (alike A) (chdir p) w.
Proof.
  apply alike_same_fs. unfold chdir. by destruct (fs w !! resolve w p) as [[|?]|].
Qed.

Lemma alike_subprocess_call h cmd w :
  is_git cmd = false → steps (alike A) (subprocess_call h cmd) w.
Proof. intros Hcmd. apply alike_same_fs. by destruct cmd. Qed.

(** A clone into [A] is felt at [A], above it and below it only. *)
Lemma alike_clone h branch_option url target w :
  resolve w target = A →
  steps (alike A) (subprocess_call h (GitClone branch_option url target)) w.
Proof.
  intros Htarget. unfold steps, subprocess_call. simpl.
  destruct (checkout h (cwd w) _) as [tree|]; [|by apply alike_same_fs].
  intros loc [Hbelow Habove]. simpl. rewrite Htarget. symmetry. by apply install_elsewhere.
Qed.

(** So is a file written below [A]. *)
Lemma alike_write_text p content w :
  A `prefix_of` resolve w p → steps (alike A) (write_text p content) w.
Proof.
  intros Hbelow. unfold steps, write_text.
  destruct (fs w !! resolve w p) as [[|?]|], (fs w !! removelast (resolve w p)) as [[|?]|];
    simpl; try by apply alike_same_fs.
  all: intros loc [Hloc _]; simpl; rewrite lookup_insert_ne; [done|];
    intros Heq; apply Hloc; by rewrite <- Heq.
Qed.

#[global] Instance settled_preorder : PreOrder settled.
Proof.
  split.
  - intros w Hdir. exact Hdir.
  - intros w1 w2 w3 H12 H23 Hdir. apply H23, H12, Hdir.
Qed.

Lemma settled_grows w w' : grows w w' → cwd w' = cwd w → settled w w'.
Proof. intros Hgrows Hcwd Hdir. unfold in_a_directory in *. rewrite Hcwd. by apply Hgrows. Qed.

Lemma settled_chdir p w : steps settled (chdir p) w.
Proof.
  unfold steps, settled, in_a_directory, chdir.
  by destruct (fs w !! resolve w p) as [[|?]|] eqn:Hp.
Qed.

Lemma settled_subprocess_call h cmd w : steps settled (subprocess_call h cmd) w.
Proof. apply settled_grows; [apply grows_subprocess_call|done]. Qed.

Lemma settled_write_text p content w : steps settled (write_text p content) w.
Proof.
  apply settled_grows; [apply grows_write_text|].
  unfold write_text.
  by destruct (fs w !! resolve w p) as [[|?]|], (fs w !! removelast (resolve w p)) as [[|?]|].
Qed.

Lemma settled_test_charm h charm_config interface version role w :
  steps settled (_test_charm h charm_config interface version role) w.
Proof.
  apply steps_test_charm; [apply _|apply settled_chdir|..].
  - intros. apply settled_subprocess_call.
  - intros. apply settled_subprocess_call.
  - apply settled_write_text.
Qed.

End Reach.

Section Sibling.
Context (h : Host) (A : Location).

Lemma default_root_anchored : anchored default_root = true.
Proof. reflexivity. Qed.

Lemma resolve_charm_path w c : resolve w (charm_path c) = charm_location c.
Proof. apply resolve_anchored, joinpath_anchored, default_root_anchored. Qed.

Lemma fixture_is_pure c p : ∃ r, ∀ w, _get_fixture c p w = (r, w).
Proof.
  unfold _get_fixture. destruct (test_setup c) as [setup|]; [|by eexists].
  case_decide; [by eexists|]. unfold bind, subscript_map, ret, raise.
  destruct (setup !! "location") as [location|]; [|by eexists].
  destruct (setup !! "identifier") as [identifier|]; by eexists.
Qed.

Lemma guarded_fixture_is_pure c p handler :
  (∀ e, match handler e with
        | Some h0 => ∃ e', h0 = @raise FixtureSpec.t e'
        | None => True
        end) →
  ∃ r, ∀ w, try_except (_get_fixture c p) handler w = (r, w).
Proof.
  intros Hhandler. destruct (fixture_is_pure c p) as [[spec|e] Hpure].
  - exists (Returned spec). intros w. unfold try_except. by rewrite Hpure.
  - specialize (Hhandler e). destruct (handler e) as [h0|] eqn:He.
    + destruct Hhandler as [e' ->]. exists (Raised e'). intros w.
      unfold try_except. by rewrite Hpure, He.
    + exists (Raised e). intros w. unfold try_except. by rewrite Hpure, He.
Qed.

Lemma guarded_fixture_returned c p handler w spec w' :
  (∀ e, match handler e with
        | Some h0 => ∃ e', h0 = @raise FixtureSpec.t e'
        | None => True
        end) →
  try_except (_get_fixture c p) handler w = (Returned spec, w') →
  _get_fixture c p w = (Returned spec, w').
Proof.
  intros Hhandler. unfold try_except.
  destruct (_get_fixture c p w) as [[s|e] w0]; [done|].
  specialize (Hhandler e). destruct (handler e) as [h0|]; [|done].
  by destruct Hhandler as [e' ->].
Qed.

(** The name of the generated file is one component at least. *)
Lemma test_filename_parts interface :
  anchored (Path ("interface-test-" +:+ interface +:+ ".py")) = false ∧
  parts (Path ("interface-test-" +:+ interface +:+ ".py")) ≠ [].
Proof.
  split; [reflexivity|]. unfold Path, parts. simpl.
  by destruct (split_on "/" _).
Qed.

Lemma setup_venv_unfold p w :
  _setup_venv h p w =
    match fs w !! resolve w p with
    | Some Dir =>
        match venv_steps h {| cwd := resolve w p; fs := fs w; trace := trace w |} with
        | (Returned _, w') => chdir {| anchored := true; parts := cwd w |} w'
        | (Raised e, w') => (Raised e, w')
        end
    | Some (File _) => (Raised NotADirectoryError, w)
    | None => (Raised FileNotFoundError, w)
    end.
Proof.
  unfold _setup_venv. unfold bind at 1. unfold getcwd.
  unfold bind at 1. unfold chdir at 1.
  by destruct (fs w !! resolve w p) as [[|?]|].
Qed.

Lemma run_test_with_pytest_unfold root test_path w :
  _run_test_with_pytest h root test_path w =
    match fs w !! resolve w root with
    | Some Dir =>
        match pytest_step h test_path
                {| cwd := resolve w root; fs := fs w; trace := trace w |} with
        | (Returned _, w') => chdir {| anchored := true; parts := cwd w |} w'
        | (Raised e, w') => (Raised e, w')
        end
    | Some (File _) => (Raised NotADirectoryError, w)
    | None => (Raised FileNotFoundError, w)
    end.
Proof.
  unfold _run_test_with_pytest. unfold bind at 1. unfold getcwd.
  unfold bind at 1. unfold chdir at 1.
  by destruct (fs w !! resolve w root) as [[|?]|].
Qed.

Lemma check_call_run cmd wd disk history :
  is_git cmd = false →
  subprocess_check_call h cmd {| cwd := wd; fs := disk; trace := history |} =
    (if returncode (spawn h wd cmd) =? 0 then Returned tt
     else Raised (CalledProcessError (returncode (spawn h wd cmd))),
     {| cwd := wd; fs := disk; trace := history ++ [Spawned wd cmd] |}).
Proof.
  intros Hcmd. unfold subprocess_check_call, bind, subprocess_call. simpl.
  destruct cmd; try discriminate; by destruct (_ =? 0).
Qed.

(** The guarded steps look at the working directory only, and change
    neither it nor the filesystem. *)
Lemma venv_steps_run wd :
  ∃ r events, ∀ disk history,
    venv_steps h {| cwd := wd; fs := disk; trace := history |}
      = (r, {| cwd := wd; fs := disk; trace := history ++ events |}).
Proof.
  unfold venv_steps, try_except, bind.
  destruct (returncode (spawn h wd MkVenv) =? 0) eqn:H1;
    [destruct (returncode (spawn h wd PipInstallTester) =? 0) eqn:H2;
      [destruct (returncode (spawn h wd PipInstallRequirements) =? 0) eqn:H3|]|];
    eexists _, _; intros disk history;
    repeat (rewrite check_call_run by done; rewrite ?H1, ?H2, ?H3; cbn iota beta);
    unfold raise; rewrite <- ?app_assoc; reflexivity.
Qed.

Lemma pytest_step_run test_path wd :
  ∃ r events, ∀ disk history,
    pytest_step h test_path {| cwd := wd; fs := disk; trace := history |}
      = (r, {| cwd := wd; fs := disk; trace := history ++ events |}).
Proof.
  unfold pytest_step, try_except.
  destruct (returncode (spawn h wd (Pytest test_path)) =? 0) eqn:H1;
    eexists _, _; intros disk history;
    rewrite check_call_run by done; rewrite H1; cbn iota beta;
    unfold raise; reflexivity.
Qed.

End Sibling.

Section SiblingUnit.
Context (h : Host) (A : Location) (B : CharmConfig).
Context (HB : sibling h A B).

Lemma sibling_reads w1 w2 (loc : Location) :
  alike A w1 w2 → charm_location B `prefix_of` loc → fs w1 !! loc = fs w2 !! loc.
Proof.
  intros Halike Hbelow. apply Halike. eapply outside_below; [|exact Hbelow].
  by destruct HB.
Qed.

Lemma sibling_reads_parent w1 w2 (loc : list string) :
  alike A w1 w2 → charm_location B `prefix_of` loc → fs w1 !! loc = fs w2 !! loc.
Proof. apply sibling_reads. Qed.

Lemma exists_together w1 w2 :
  paired A w1 w2 →
  together (paired A) (path_exists (charm_path B)) (path_exists (charm_path B)) w1 w2.
Proof.
  intros Hpaired. split; [|done]. unfold path_exists, exists_. cbn [fst].
  rewrite !resolve_charm_path.
  by rewrite (sibling_reads w1 w2 (charm_location B)) by (done || apply Hpaired).
Qed.

Lemma clone_together w1 w2 :
  paired A w1 w2 →
  together (paired A) (_clone_charm_repo h B (charm_path B))
    (_clone_charm_repo h B (charm_path B)) w1 w2.
Proof.
  intros (Hdir1 & Hdir2 & Halike). destruct HB as (Hout & _ & Hanywhere).
  destruct (Hanywhere (cwd w1) (cwd w2)) as [Hspawn Hcheckout].
  unfold clone_command in Hspawn, Hcheckout.
  unfold _clone_charm_repo. apply together_bind.
  - split; [simpl; by rewrite Hspawn|]. split; [|split].
    + by apply settled_subprocess_call.
    + by apply settled_subprocess_call.
    + intros loc Hloc. simpl. rewrite Hcheckout, !resolve_charm_path.
      destruct (checkout h (cwd w2) _) as [tree|]; [|by apply Halike].
      apply install_lookup_ext. by apply Halike.
  - intros retcode w1' w2' _ _ Hpaired.
    destruct (0 <? retcode); [by apply together_raise|by apply together_ret].
Qed.

(** A command run from the charm directory, and the way back. *)
Lemma guarded_together (step : M unit) p w1 w2 :
  (∀ wd, ∃ r events, ∀ disk history,
     step {| cwd := wd; fs := disk; trace := history |}
       = (r, {| cwd := wd; fs := disk; trace := history ++ events |})) →
  resolve w1 p = charm_location B → resolve w2 p = charm_location B →
  paired A w1 w2 →
  together (paired A)
    (λ w, match fs w !! resolve w p with
          | Some Dir =>
              match step {| cwd := resolve w p; fs := fs w; trace := trace w |} with
              | (Returned _, w') => chdir {| anchored := true; parts := cwd w |} w'
              | (Raised e, w') => (Raised e, w')
              end
          | Some (File _) => (Raised NotADirectoryError, w)
          | None => (Raised FileNotFoundError, w)
          end)
    (λ w, match fs w !! resolve w p with
          | Some Dir =>
              match step {| cwd := resolve w p; fs := fs w; trace := trace w |} with
              | (Returned _, w') => chdir {| anchored := true; parts := cwd w |} w'
              | (Raised e, w') => (Raised e, w')
              end
          | Some (File _) => (Raised NotADirectoryError, w)
          | None => (Raised FileNotFoundError, w)
          end) w1 w2.
Proof.
  intros Hstep Hp1 Hp2 (Hdir1 & Hdir2 & Halike). unfold together.
  rewrite Hp1, Hp2.
  rewrite (sibling_reads w1 w2 (charm_location B)) by done.
  destruct (fs w2 !! charm_location B) as [[|content]|] eqn:Hthere; [|done..].
  destruct (Hstep (charm_location B)) as (r & events & Hrun). rewrite !Hrun.
  destruct r as [[]|e].
  - unfold chdir, resolve. simpl. unfold in_a_directory in Hdir1, Hdir2.
    rewrite Hdir1, Hdir2. simpl. done.
  - simpl. split; [done|]. split; [|split]; try done.
    unfold in_a_directory. simpl.
    by rewrite (sibling_reads w1 w2 (charm_location B)) by done.
Qed.

Lemma setup_venv_together w1 w2 :
  paired A w1 w2 →
  together (paired A) (_setup_venv h (charm_path B)) (_setup_venv h (charm_path B)) w1 w2.
Proof.
  intros Hpaired.
  pose proof (guarded_together (venv_steps h) (charm_path B) w1 w2 (venv_steps_run h)
                (resolve_charm_path _ _) (resolve_charm_path _ _) Hpaired) as Hside.
  unfold together in *. by rewrite !setup_venv_unfold.
Qed.

Lemma run_test_together test_path w1 w2 :
  paired A w1 w2 →
  together (paired A) (_run_test_with_pytest h (charm_path B) test_path)
    (_run_test_with_pytest h (charm_path B) test_path) w1 w2.
Proof.
  intros Hpaired.
  pose proof (guarded_together (pytest_step h test_path) (charm_path B) w1 w2
                (pytest_step_run h test_path)
                (resolve_charm_path _ _) (resolve_charm_path _ _) Hpaired) as Hside.
  unfold together in *. by rewrite !run_test_with_pytest_unfold.
Qed.

Lemma write_together p content w1 w2 :
  anchored p = true →
  charm_location B `prefix_of` parts p →
  charm_location B `prefix_of` removelast (parts p) →
  paired A w1 w2 →
  together (paired A) (write_text p content) (write_text p content) w1 w2.
Proof.
  intros Hanchored Hfile Hparent (Hdir1 & Hdir2 & Halike).
  assert (Hsettled1 := settled_write_text p content w1 Hdir1).
  assert (Hsettled2 := settled_write_text p content w2 Hdir2).
  unfold together, steps in *. revert Hsettled1 Hsettled2. unfold write_text.
  rewrite !(resolve_anchored _ p) by done.
  rewrite (sibling_reads w1 w2 (parts p)) by done.
  rewrite (sibling_reads_parent w1 w2 (removelast (parts p))) by done.
  destruct (fs w2 !! (parts p : Location)) as [[|?]|];
    destruct (fs w2 !! removelast (parts p)) as [[|?]|];
    simpl; intros Hsettled1 Hsettled2; (split; [done|]); (split; [|split]); try done.
  all: intros loc Hloc; simpl;
    destruct (decide (loc = parts p)) as [->|Hne];
    rewrite ?lookup_insert_eq, ?lookup_insert_ne by done; by try apply Halike.
Qed.

Lemma prepare_repo_rest_together interface version w1 w2 :
  paired A w1 w2 →
  together (paired A) (prepare_repo_rest B interface version (charm_path B))
    (prepare_repo_rest B interface version (charm_path B)) w1 w2.
Proof.
  intros Hpaired. unfold prepare_repo_rest.
  match goal with |- context [try_except _ ?hd] => set (handler := hd) end.
  assert (Hhandler : ∀ e, match handler e with
                          | Some h0 => ∃ e', h0 = @raise FixtureSpec.t e'
                          | None => True
                          end) by (intros []; simpl; eauto).
  destruct (guarded_fixture_is_pure B (charm_path B) handler Hhandler) as [r Hpure].
  apply together_bind; [split; by rewrite !Hpure|].
  intros spec w1' w2' Hspec _ Hpaired'.
  apply (guarded_fixture_returned _ _ _ _ _ _ Hhandler) in Hspec.
  destruct HB as (_ & Hconfined & _).
  destruct (Hconfined _ _ _ Hspec) as [Hanchored Hbelow].
  assert (Hfixture : charm_location B `prefix_of` parts (FixtureSpec.path spec)).
  { etrans; [exact Hbelow|apply removelast_prefix]. }
  apply together_bind.
  { split; [|done]. simpl. unfold is_file. rewrite !resolve_anchored by done.
    by rewrite (sibling_reads w1' w2' _) by (done || apply Hpaired'). }
  intros found w1'' w2'' _ _ Hpaired''.
  apply together_bind;
    [destruct found; [by apply together_ret|by apply together_raise]|].
  intros _ w1''' w2''' _ _ Hpaired'''.
  apply together_bind; [|intros; by apply together_ret].
  unfold _generate_test. apply together_bind; [|intros; by apply together_ret].
  destruct (test_filename_parts interface) as [Hrelative Hparts].
  apply write_together; [| | |done].
  - unfold joinpath. by rewrite Hrelative.
  - unfold joinpath. rewrite Hrelative. simpl. by apply prefix_app_r.
  - unfold joinpath. rewrite Hrelative. simpl.
    rewrite removelast_app by done. by apply prefix_app_r.
Qed.

Lemma prepare_repo_together interface version w1 w2 :
  paired A w1 w2 →
  together (paired A) (_prepare_repo h B interface version default_root)
    (_prepare_repo h B interface version default_root) w1 w2.
Proof.
  intros Hpaired. unfold _prepare_repo. fold (charm_path B).
  fold (prepare_repo_rest B interface version (charm_path B)).
  apply together_bind; [by apply exists_together|].
  intros present w1' w2' _ _ Hpaired'.
  apply together_bind; [|intros; by apply prepare_repo_rest_together].
  destruct present; [by apply together_ret|].
  apply together_bind; [by apply clone_together|].
  intros; by apply setup_venv_together.
Qed.

End SiblingUnit.

Section Units.
Context (h : Host) (A : Location).

Lemma prepare_repo_returned charm_config interface version root w paths w' :
  _prepare_repo h charm_config interface version root w = (Returned paths, w') →
  paths.1 = root </> Path (name charm_config).
Proof.
  destruct (exists_ w (root </> Path (name charm_config))) eqn:Hpresent.
  - rewrite prepare_repo_present by done. apply prepare_repo_rest_returned.
  - rewrite prepare_repo_absent by done. unfold bind at 1.
    destruct (bind _ _ w) as [[[]|e] w0]; [|done].
    apply prepare_repo_rest_returned.
Qed.

(** A sibling's unit of work runs alike in two worlds that are alike. *)
Lemma test_charm_together B interface version role w1 w2 :
  sibling h A B →
  paired A w1 w2 →
  together (paired A) (_test_charm h B interface version role)
    (_test_charm h B interface version role) w1 w2.
Proof.
  intros HB Hpaired. unfold _test_charm. apply together_bind.
  - apply together_try_except.
    + apply together_bind; [by apply prepare_repo_together|].
      intros; by apply together_ret.
    + intros [] w1' w2' h0 _ _ [= <-] Hpaired'. by apply together_ret.
  - intros [[path test_path]|] w1' w2' Hprepared _ Hpaired'; [|by apply together_ret].
    assert (path = charm_path B) as ->.
    { unfold try_except, bind in Hprepared.
      destruct (_prepare_repo h B interface version default_root w1) as [[paths|e] w0]
        eqn:Hprepare.
      - injection Hprepared as -> _. by apply prepare_repo_returned in Hprepare.
      - by destruct e. }
    apply together_try_except.
    + apply together_bind; [by apply run_test_together|].
      intros; by apply together_ret.
    + intros [] ? ? ? _ _ [= <-] ?. by apply together_ret.
Qed.

(** The unit of work of a participant at [A] is felt at [A], above it and
    below it only. *)
Lemma test_charm_reach c interface version role w :
  charm_location c = A →
  confined c →
  steps (alike A) (_test_charm h c interface version role) w.
Proof.
  intros Hlocation Hconfined.
  assert (Hcall : ∀ cmd w0, is_git cmd = false → steps (alike A) (subprocess_call h cmd) w0).
  { intros. by apply alike_subprocess_call. }
  unfold _test_charm. apply steps_bind; [apply _|..].
  - apply steps_try_except; [apply _|..];
      [|intros [] ? ? _ [= <-]; apply steps_ret; apply _].
    apply steps_bind; [apply _|..]; [|intros; apply steps_ret; apply _].
    unfold _prepare_repo. fold (charm_path c).
    fold (prepare_repo_rest c interface version (charm_path c)).
    apply steps_bind; [apply _|apply steps_same; [apply _|done]|]. intros present w0 _.
    apply steps_bind; [apply _|..].
    + destruct present; [apply steps_ret; apply _|].
      apply steps_bind; [apply _|..].
      * unfold _clone_charm_repo. apply steps_bind; [apply _|..].
        -- apply alike_clone. by rewrite resolve_charm_path.
        -- intros retcode ? _.
           destruct (0 <? retcode); [apply steps_raise|apply steps_ret]; apply _.
      * intros. apply steps_setup_venv; [apply _|apply alike_chdir|done].
    + intros _ w1 _. unfold prepare_repo_rest.
      match goal with |- context [try_except _ ?hd] => set (handler := hd) end.
      assert (Hhandler : ∀ e, match handler e with
                              | Some h0 => ∃ e', h0 = @raise FixtureSpec.t e'
                              | None => True
                              end) by (intros []; simpl; eauto).
      apply steps_bind; [apply _|..].
      * destruct (guarded_fixture_is_pure c (charm_path c) handler Hhandler) as [r Hpure].
        apply steps_same; [apply _|by rewrite Hpure].
      * intros spec w2 Hspec.
        apply (guarded_fixture_returned _ _ _ _ _ _ Hhandler) in Hspec.
        destruct (Hconfined _ _ _ Hspec) as [Hanchored Hbelow].
        rewrite Hlocation in Hbelow.
        apply steps_bind; [apply _|apply steps_same; [apply _|done]|]. intros found w3 _.
        apply steps_bind; [apply _|..];
          [destruct found; [apply steps_ret|apply steps_raise]; apply _|].
        intros _ w4 _. apply steps_bind; [apply _|..]; [|intros; apply steps_ret; apply _].
        unfold _generate_test.
        apply steps_bind; [apply _|..]; [|intros; apply steps_ret; apply _].
        destruct (test_filename_parts interface) as [Hrelative _].
        apply alike_write_text. unfold resolve, joinpath. rewrite Hrelative. simpl.
        rewrite Hanchored. by apply prefix_app_r.
  - intros [[path test_path]|] w1 _; [|apply steps_ret; apply _].
    apply steps_try_except; [apply _|..];
      [|intros [] ? ? _ [= <-]; apply steps_ret; apply _].
    apply steps_bind; [apply _|..]; [|intros; apply steps_ret; apply _].
    apply steps_run_test_with_pytest; [apply _|apply alike_chdir|done].
Qed.

End Units.


Section Following.
Context {X S : Type}.

(** The second loop follows the first one, item by item. *)
Lemma for_each_follows (f : X → X) (body1 body2 : S → X → M S)
    (Inv : S → S → World → World → Prop) xs :
  (∀ x s1 s2 w1 w2 s1' w1',
     x ∈ xs → Inv s1 s2 w1 w2 → body1 s1 x w1 = (Returned s1', w1') →
     ∃ s2' w2', body2 s2 (f x) w2 = (Returned s2', w2') ∧ Inv s1' s2' w1' w2') →
  ∀ s1 s2 w1 w2 r1 w1',
    Inv s1 s2 w1 w2 → for_each xs body1 s1 w1 = (Returned r1, w1') →
    ∃ r2 w2', for_each (map f xs) body2 s2 w2 = (Returned r2, w2') ∧ Inv r1 r2 w1' w2'.
Proof.
  induction xs as [|x rest IH]; intros Hbody s1 s2 w1 w2 r1 w1' Hinv; simpl.
  - intros [= <- <-]. by exists s2, w2.
  - unfold bind. destruct (body1 s1 x w1) as [[s1'|e] w1m] eqn:Hx; [|done].
    intros Hrest.
    destruct (Hbody x s1 s2 w1 w2 s1' w1m) as (s2' & w2m & Hx2 & Hinv'); [by left|done..|].
    rewrite Hx2. eapply IH; [|done..].
    intros ? ? ? ? ? ? ? ?. apply Hbody. by right.
Qed.

End Following.

Section Removal.
Context (h : Host) (n : string).

Local Abbreviation A := (parts (default_root </> Path n)).

Lemma named_location c : named n c = true → charm_location c = A.
Proof.
  unfold named. intros Hname%String.eqb_eq. unfold charm_location, charm_path.
  by rewrite Hname.
Qed.

Lemma get_set_other {V} (d1 d2 : PyDict.t V) k key v :
  (k ≠ n → PyDict.get k d1 = PyDict.get k d2) →
  k ≠ n →
  PyDict.get k (PyDict.set key v d1) = PyDict.get k (PyDict.set key v d2).
Proof. intros Hsame Hk. rewrite !get_set. case_decide; [done|by apply Hsame]. Qed.

(** The charms of a role, with and without the participants called [n]. *)
Lemma test_charms_follows interface version role charm_configs :
  Forall (separates h n) charm_configs →
  ∀ out1 out2 w1 w2 results w1',
    paired A w1 w2 →
    (∀ k, k ≠ n → PyDict.get k out1 = PyDict.get k out2) →
    for_each charm_configs (_test_charms_body h interface version role) out1 w1
      = (Returned results, w1') →
    ∃ results' w2',
      for_each (List.filter (λ c, negb (named n c)) charm_configs)
        (_test_charms_body h interface version role) out2 w2 = (Returned results', w2') ∧
      paired A w1' w2' ∧
      (∀ k, k ≠ n → PyDict.get k results = PyDict.get k results').
Proof.
  induction 1 as [|c rest Hc _ IH]; intros out1 out2 w1 w2 results w1' Hpaired Hout.
  - simpl. intros [= <- <-]. by exists out2, w2.
  - rewrite for_each_cons. unfold _test_charms_body at 1. unfold bind.
    destruct (_test_charm h c interface version role w1) as [[success|e] w1m] eqn:Hunit;
      [|done].
    unfold ret at 1. intros Hrest. simpl List.filter.
    unfold separates in Hc. destruct (named n c) eqn:Hnamed; simpl negb; cbv iota.
    + (* a unit of the participant that is left out *)
      eapply (IH _ out2 w1m w2); [| |exact Hrest].
      * destruct Hpaired as (Hdir1 & Hdir2 & Halike).
        pose proof (settled_test_charm h c interface version role w1 Hdir1) as Hdir1'.
        pose proof (test_charm_reach h A c interface version role w1
                      (named_location c Hnamed) Hc) as Hreach.
        unfold steps in *. rewrite Hunit in *. split; [done|]. split; [done|].
        etrans; [symmetry; exact Hreach|exact Halike].
      * intros k Hk. rewrite get_set. case_decide as Heq; [|by apply Hout].
        apply String.eqb_eq in Hnamed. congruence.
    + (* a sibling *)
      destruct (test_charm_together h A c interface version role w1 w2 Hc Hpaired)
        as [Hresult Hpaired'].
      rewrite Hunit in Hresult, Hpaired'. simpl in Hresult, Hpaired'.
      rewrite for_each_cons. unfold _test_charms_body at 1. unfold bind.
      destruct (_test_charm h c interface version role w2) as [r2 w2m].
      simpl in Hresult, Hpaired'. subst r2. unfold ret at 1.
      eapply IH; [exact Hpaired'| |exact Hrest].
      intros k Hk. apply get_set_other; [by apply Hout|done].
Qed.

Lemma get_map_values {V W} (f : V → W) (d : PyDict.t V) k :
  PyDict.get k (map (λ item, (item.1, f item.2)) d) = f <$> PyDict.get k d.
Proof.
  induction d as [|[k' v] rest IH]; simpl; [done|].
  by destruct (String.eqb k' k).
Qed.

Lemma outcome_in_roles_set per_role role results r c :
  outcome_in_roles (PyDict.set role results per_role) r c =
    if decide (r = role) then PyDict.get c results else outcome_in_roles per_role r c.
Proof. unfold outcome_in_roles. rewrite get_set. by case_decide. Qed.

Lemma outcome_in_versions_set per_version version results v r c :
  outcome_in_versions (PyDict.set version results per_version) v r c =
    if decide (v = version) then outcome_in_roles results r c
    else outcome_in_versions per_version v r c.
Proof. unfold outcome_in_versions. rewrite get_set. by case_decide. Qed.

Lemma outcome_set tree interface results i v r c :
  outcome (PyDict.set interface results tree) i v r c =
    if decide (i = interface) then outcome_in_versions results v r c
    else outcome tree i v r c.
Proof. unfold outcome. rewrite get_set. by case_decide. Qed.

Lemma charms_of_role_spec tests_per_role role spec :
  PyDict.get role tests_per_role = Some spec →
  Forall (separates h n) (charms_of_roles tests_per_role) →
  Forall (separates h n) (charms spec).
Proof.
  intros Hspec%get_Some_elem Hall. rewrite Forall_forall in Hall |- *.
  intros c Hc. apply Hall. unfold charms_of_roles.
  apply list_elem_of_In, in_flat_map. exists (role, spec).
  split; by apply list_elem_of_In.
Qed.

(** The loop body of [_test_roles], in one piece: with no charm to run, the
    loop over the charms gives the empty mapping as well. *)
Lemma test_roles_body_run tests_per_role interface version acc role w :
  _test_roles_body h tests_per_role interface version acc role w =
    match PyDict.get role tests_per_role with
    | None => (Raised (KeyError role), w)
    | Some spec =>
        match tests spec with
        | [] => (Returned (PyDict.set role [] acc), w)
        | _ :: _ =>
            match _test_charms h (charms spec) interface version role w with
            | (Returned results, w') => (Returned (PyDict.set role results acc), w')
            | (Raised e, w') => (Raised e, w')
            end
        end
    end.
Proof.
  unfold _test_roles_body, bind, subscript.
  destruct (PyDict.get role tests_per_role) as [spec|]; [|done]. unfold ret at 1.
  by destruct (tests spec), (charms spec).
Qed.

Lemma test_roles_body_follows tests_per_role interface version role
    acc1 acc2 w1 w2 acc1' w1' :
  Forall (separates h n) (charms_of_roles tests_per_role) →
  paired A w1 w2 →
  (∀ r c, c ≠ n → outcome_in_roles acc1 r c = outcome_in_roles acc2 r c) →
  _test_roles_body h tests_per_role interface version acc1 role w1
    = (Returned acc1', w1') →
  ∃ acc2' w2',
    _test_roles_body h (without_roles n tests_per_role) interface version acc2 role w2
      = (Returned acc2', w2') ∧
    paired A w1' w2' ∧
    (∀ r c, c ≠ n → outcome_in_roles acc1' r c = outcome_in_roles acc2' r c).
Proof.
  intros Hall Hpaired Hacc. rewrite !test_roles_body_run. unfold without_roles.
  rewrite get_map_values.
  destruct (PyDict.get role tests_per_role) as [spec|] eqn:Hspec; [|done].
  pose proof (charms_of_role_spec _ _ _ Hspec Hall) as Hcharms.
  cbn [fmap option_fmap option_map drop_charm tests charms].
  destruct (tests spec) as [|test rest_tests].
  { intros [= <- <-]. eexists _, _. split; [done|]. split; [done|].
    intros r c Hc. rewrite !outcome_in_roles_set. case_decide; [done|by apply Hacc]. }
  unfold _test_charms.
  destruct (for_each (charms spec) (_test_charms_body h interface version role) [] w1)
    as [[results|e] w1m] eqn:Hloop; [|done].
  intros [= <- <-].
  destruct (test_charms_follows interface version role (charms spec) Hcharms
              [] [] w1 w2 results w1m Hpaired (λ _ _, eq_refl) Hloop)
    as (results' & w2' & Hloop' & Hpaired' & Hresults).
  rewrite Hloop'. eexists _, _. split; [done|]. split; [done|].
  intros r c0 Hc0. rewrite !outcome_in_roles_set.
  case_decide; [by apply Hresults|by apply Hacc].
Qed.

Lemma test_roles_follows tests_per_role interface version w1 w2 per_role w1' :
  Forall (separates h n) (charms_of_roles tests_per_role) →
  paired A w1 w2 →
  _test_roles h tests_per_role interface version w1 = (Returned per_role, w1') →
  ∃ per_role' w2',
    _test_roles h (without_roles n tests_per_role) interface version w2
      = (Returned per_role', w2') ∧
    paired A w1' w2' ∧
    (∀ r c, c ≠ n → outcome_in_roles per_role r c = outcome_in_roles per_role' r c).
Proof.
  intros Hall Hpaired Hrun. unfold _test_roles in *.
  pose proof (for_each_follows id
                (_test_roles_body h tests_per_role interface version)
                (_test_roles_body h (without_roles n tests_per_role) interface version)
                (λ a1 a2 u1 u2,
                   paired A u1 u2 ∧
                   ∀ r c, c ≠ n → outcome_in_roles a1 r c = outcome_in_roles a2 r c)
                ["provider"; "requirer"]) as Hloop.
  match type of Hloop with ?P → _ => assert (Hbody : P) end.
  { intros role a1 a2 u1 u2 a1' u1' _ [Hu Ha] Hbody.
    destruct (test_roles_body_follows _ _ _ _ _ a2 _ u2 _ _ Hall Hu Ha Hbody)
      as (a2' & u2' & ? & ? & ?).
    by exists a2', u2'. }
  destruct (Hloop Hbody [] [] w1 w2 per_role w1' (conj Hpaired (λ _ _ _, eq_refl)) Hrun)
    as (per_role' & w2' & Hrun' & Hpaired' & Hsame).
  by exists per_role', w2'.
Qed.

Lemma charms_of_versions_item versions (item : string * TestsPerRole) :
  item ∈ versions →
  Forall (separates h n) (charms_of_versions versions) →
  Forall (separates h n) (charms_of_roles item.2).
Proof.
  intros Hitem Hall. rewrite Forall_forall in Hall |- *.
  intros c Hc. apply Hall. unfold charms_of_versions.
  apply list_elem_of_In, in_flat_map. exists item. split; by apply list_elem_of_In.
Qed.

Lemma charms_of_item registry (item : string * TestsPerVersion) :
  item ∈ registry →
  Forall (separates h n) (charms_of registry) →
  Forall (separates h n) (charms_of_versions item.2).
Proof.
  intros Hitem Hall. rewrite Forall_forall in Hall |- *.
  intros c Hc. apply Hall. unfold charms_of.
  apply list_elem_of_In, in_flat_map. exists item. split; by apply list_elem_of_In.
Qed.

Lemma test_interface_version_follows versions interface w1 w2 per_version w1' :
  Forall (separates h n) (charms_of_versions versions) →
  paired A w1 w2 →
  _test_interface_version h versions interface w1 = (Returned per_version, w1') →
  ∃ per_version' w2',
    _test_interface_version h (without_versions n versions) interface w2
      = (Returned per_version', w2') ∧
    paired A w1' w2' ∧
    (∀ v r c, c ≠ n →
       outcome_in_versions per_version v r c = outcome_in_versions per_version' v r c).
Proof.
  intros Hall Hpaired Hrun. unfold _test_interface_version, without_versions in *.
  pose proof (for_each_follows (λ item, (item.1, without_roles n item.2))
                (_test_interface_version_body h interface)
                (_test_interface_version_body h interface)
                (λ a1 a2 u1 u2,
                   paired A u1 u2 ∧
                   ∀ v r c, c ≠ n →
                     outcome_in_versions a1 v r c = outcome_in_versions a2 v r c)
                versions) as Hloop.
  match type of Hloop with ?P → _ => assert (Hbody : P) end.
  { intros [version tests_per_role] a1 a2 u1 u2 a1' u1' Hitem [Hu Ha].
    unfold _test_interface_version_body, bind. cbn [fst snd].
    destruct (py_int (slice_from_1 version)) as [version_int|]; [|done]. unfold ret at 1.
    destruct (_test_roles h tests_per_role interface version_int u1)
      as [[per_role|e] u1m] eqn:Hroles; [|done].
    intros [= <- <-].
    destruct (test_roles_follows _ _ _ _ u2 _ _
                (charms_of_versions_item _ _ Hitem Hall) Hu Hroles)
      as (per_role' & u2' & Hroles' & Hu' & Hper_role).
    cbn [fst snd] in Hroles'. unfold ret at 1. rewrite Hroles'. eexists _, _. split; [done|]. split; [done|].
    intros v r c Hc. rewrite !outcome_in_versions_set.
    case_decide; [by apply Hper_role|by apply Ha]. }
  destruct (Hloop Hbody [] [] w1 w2 per_version w1'
              (conj Hpaired (λ _ _ _ _, eq_refl)) Hrun)
    as (per_version' & w2' & Hrun' & Hpaired' & Hsame).
  by exists per_version', w2'.
Qed.

Lemma traversal_follows registry w1 w2 tree w1' :
  Forall (separates h n) (charms_of registry) →
  paired A w1 w2 →
  for_each registry (run_interface_tests_body h) [] w1 = (Returned tree, w1') →
  ∃ tree' w2',
    for_each (without n registry) (run_interface_tests_body h) [] w2
      = (Returned tree', w2') ∧
    paired A w1' w2' ∧
    (∀ i v r c, c ≠ n → outcome tree i v r c = outcome tree' i v r c).
Proof.
  intros Hall Hpaired Hrun. unfold without.
  pose proof (for_each_follows (λ item, (item.1, without_versions n item.2))
                (run_interface_tests_body h) (run_interface_tests_body h)
                (λ a1 a2 u1 u2,
                   paired A u1 u2 ∧
                   ∀ i v r c, c ≠ n → outcome a1 i v r c = outcome a2 i v r c)
                registry) as Hloop.
  match type of Hloop with ?P → _ => assert (Hbody : P) end.
  { intros [interface versions] a1 a2 u1 u2 a1' u1' Hitem [Hu Ha].
    unfold run_interface_tests_body, bind. cbn [fst snd].
    destruct (_test_interface_version h versions interface u1)
      as [[per_version|e] u1m] eqn:Hversions; [|done].
    intros [= <- <-].
    destruct (test_interface_version_follows _ _ _ u2 _ _
                (charms_of_item _ _ Hitem Hall) Hu Hversions)
      as (per_version' & u2' & Hversions' & Hu' & Hper_version).
    cbn [fst snd] in Hversions'. rewrite Hversions'. eexists _, _. split; [done|]. split; [done|].
    intros i v r c Hc. rewrite !outcome_set.
    case_decide; [by apply Hper_version|by apply Ha]. }
  destruct (Hloop Hbody [] [] w1 w2 tree w1'
              (conj Hpaired (λ _ _ _ _ _, eq_refl)) Hrun)
    as (tree' & w2' & Hrun' & Hpaired' & Hsame).
  by exists tree', w2'.
Qed.

End Removal.

Section Hypotheses.

(** A participant that does not move its fixture keeps it in its checkout. *)
Lemma confined_default_location c :
  complete_setup c → override c "location" = None → confined c.
Proof.
  intros Hcomplete Hlocation w spec w' Hfixture.
  rewrite (get_fixture_resolved c (charm_path c) w Hcomplete) in Hfixture.
  rewrite Hlocation in Hfixture. injection Hfixture as <- _. simpl.
  assert (Hanchored : anchored (charm_path c) = true)
    by apply joinpath_anchored, default_root_anchored.
  split.
  - unfold joinpath. simpl. exact Hanchored.
  - unfold joinpath. simpl.
    rewrite (removelast_app (parts (charm_path c))) by done. simpl.
    by apply prefix_app_r.
Qed.

(** Leaving the workspace root aside, the reset keeps the process in its
    directory. *)
Lemma clean_keeps_directory root w :
  in_a_directory w →
  ¬ resolve w root `prefix_of` cwd w →
  in_a_directory (_clean root w).2.
Proof.
  intros Hdir Houtside. unfold in_a_directory in *.
  destruct (is_dir w root) eqn:Hroot.
  - rewrite clean_removes_tree by done.
    replace (cwd (_clean root w).2) with (cwd w)
      by (rewrite clean_unfold; by destruct (is_dir w root)).
    by rewrite decide_False.
  - rewrite clean_keeps_other by done.
    replace (cwd (_clean root w).2) with (cwd w)
      by (rewrite clean_unfold; by destruct (is_dir w root)).
    done.
Qed.

Lemma forgetting_body n h :
  run_interface_tests_body (forgetting n h) = run_interface_tests_body h.
Proof. reflexivity. Qed.

End Hypotheses.


Section Witnesses.

Lemma traefik_confined : confined Examples.traefik.
Proof. by apply confined_default_location. Qed.

Lemma nginx_confined : confined Examples.nginx.
Proof. by apply confined_default_location. Qed.

Lemma nginx_sibling_of_traefik collected :
  sibling (Examples.traefik_broken collected) (charm_location Examples.traefik)
    Examples.nginx.
Proof.
  split; [|split].
  - split; intros [k Hk]; vm_compute in Hk; discriminate Hk.
  - apply nginx_confined.
  - intros wd wd'. by split.
Qed.

Lemma nginx_beside_traefik collected :
  separates (Examples.traefik_broken collected) "traefik" Examples.nginx.
Proof.
  unfold separates.
  replace (named "traefik" Examples.nginx) with false by reflexivity.
  split; [|split].
  - split; intros [k Hk]; vm_compute in Hk; discriminate Hk.
  - apply nginx_confined.
  - intros wd wd'. by split.
Qed.

Lemma traefik_itself h : separates h "traefik" Examples.traefik.
Proof.
  unfold separates.
  replace (named "traefik" Examples.traefik) with true by reflexivity.
  apply traefik_confined.
Qed.

End Witnesses.



(* ===================================================================== *)
(** * Further properties of the runner *)
(* ===================================================================== *)

Section Escaping.
Context (h : Host).

Lemma raised_pair {T} (r : Result T * World) e : r.1 = Raised e → r = (Raised e, r.2).
Proof. destruct r as [res w]. simpl. by intros ->. Qed.

Lemma raises_test_charms charm_configs interface version role :
  raises escapes (_test_charms h charm_configs interface version role).
Proof.
  unfold _test_charms. apply raises_for_each. intros out charm_config.
  unfold _test_charms_body.
  apply raises_bind; [apply raises_test_charm|intros; apply raises_ret].
Qed.

Lemma raises_test_roles tests_per_role interface version :
  raises escapes (_test_roles h tests_per_role interface version).
Proof.
  unfold _test_roles. apply raises_for_each. intros results role.
  unfold _test_roles_body, subscript. apply raises_bind.
  - destruct (PyDict.get role tests_per_role); [apply raises_ret|by apply raises_raise].
  - intros spec. destruct (tests spec), (charms spec); try apply raises_ret.
    apply raises_bind; [apply raises_test_charms|intros; apply raises_ret].
Qed.

Lemma raises_test_interface_version tests_per_version interface :
  raises escapes (_test_interface_version h tests_per_version interface).
Proof.
  unfold _test_interface_version. apply raises_for_each.
  intros results [version tests_per_role]. unfold _test_interface_version_body.
  apply raises_bind.
  - destruct (py_int (slice_from_1 version)); [apply raises_ret|by apply raises_raise].
  - intros version_int.
    apply raises_bind; [apply raises_test_roles|intros; apply raises_ret].
Qed.

End Escaping.

(** X3. No exception of the runner's own leaves a run: whatever
    [run_interface_tests] raises is neither SetupError, nor
    InterfaceTestError, nor CalledProcessError.  What does come out is what
    nothing handles: the KeyError of a missing key, the ValueError of a
    malformed version label, and the errors of the filesystem. *)
Theorem run_raises_only_what_nothing_handles
    (h : Host) (path : PurePath) (include : string) (w : World) (e : Exn) (w' : World) :
  run_interface_tests h path include w = (Raised e, w') → escapes e.
Proof.
  revert w e w'. change (raises escapes (run_interface_tests h path include)).
  unfold run_interface_tests. apply raises_bind.
  - intros w e w'. by rewrite clean_unfold.
  - intros _. apply raises_for_each. intros results [interface version_to_roles].
    unfold run_interface_tests_body.
    apply raises_bind; [apply raises_test_interface_version|intros; apply raises_ret].
Qed.

Lemma run_raises_only_what_nothing_handles_witness : escapes ValueError.
Proof.
  apply (run_raises_only_what_nothing_handles
           (Examples.healthy [("ingress", [("latest", Examples.provider_first)])])
           (Path ".") "*" Examples.fresh ValueError
           (run_interface_tests
              (Examples.healthy [("ingress", [("latest", Examples.provider_first)])])
              (Path ".") "*" Examples.fresh).2).
  apply raised_pair. vm_compute. reflexivity.
Defined.

Section Messages.
Context (h : Host) (charm_config : CharmConfig).

Lemma escapes_gives_up e : escapes e → gives_up charm_config e.
Proof. by destruct e. Qed.

(** The fixture resolver touches no file: a missing key is all it can
    raise. *)
Lemma get_fixture_key_error charm_path :
  raises (λ e, ∃ key, e = KeyError key) (_get_fixture charm_config charm_path).
Proof.
  unfold _get_fixture. destruct (test_setup charm_config) as [setup|]; [|apply raises_ret].
  case_decide; [apply raises_ret|]. unfold subscript_map.
  apply raises_bind;
    [destruct (setup !! "location"); [apply raises_ret|apply raises_raise; eauto]|].
  intros ?. apply raises_bind; [|intros; apply raises_ret].
  destruct (setup !! "identifier"); [apply raises_ret|apply raises_raise; eauto].
Qed.

Lemma gives_up_setup_venv charm_path : raises (gives_up charm_config) (_setup_venv h charm_path).
Proof.
  unfold _setup_venv. apply raises_bind; [by intros w e w'|]. intros original_wd.
  apply raises_bind;
    [eapply raises_weaken; [exact escapes_gives_up|apply raises_chdir]|]. intros _.
  apply raises_bind;
    [|intros; eapply raises_weaken; [exact escapes_gives_up|apply raises_chdir]].
  eapply raises_try_except.
  - repeat (apply raises_bind; [apply raises_check_call|]; intros _).
    apply raises_check_call.
  - intros []; try done. intros _. apply raises_raise. simpl. tauto.
Qed.

Lemma gives_up_prepare_repo interface version root :
  raises (gives_up charm_config) (_prepare_repo h charm_config interface version root).
Proof.
  unfold _prepare_repo. apply raises_bind; [by intros w e w'|]. intros present.
  apply raises_bind.
  { destruct present; [apply raises_ret|].
    apply raises_bind; [|intros; apply gives_up_setup_venv].
    unfold _clone_charm_repo. apply raises_bind; [by intros w e w'|].
    intros retcode. destruct (0 <? retcode); [|apply raises_ret].
    apply raises_raise. by left. }
  intros _. apply raises_bind.
  { eapply raises_try_except; [apply get_fixture_key_error|].
    by intros e [key ->]. }
  intros spec. apply raises_bind; [by intros w e w'|]. intros found.
  apply raises_bind.
  { destruct found; [apply raises_ret|]. apply raises_raise. simpl. tauto. }
  intros _. apply raises_bind; [|intros; apply raises_ret].
  unfold _generate_test. apply raises_bind; [|intros; apply raises_ret].
  eapply raises_weaken; [exact escapes_gives_up|apply raises_write_text].
Qed.

End Messages.

(** X4. Provisioning gives up with one of three messages: the clone
    failed, the environment build failed, or the fixture file is missing.
    The message of the handler around the fixture resolver is never
    raised: the resolver joins paths and reads the participant's mapping,
    so it cannot raise the FileNotFoundError that the handler waits for. *)
Theorem provisioning_gives_up_in_three_ways
    (h : Host) (charm_config : CharmConfig) (interface : string) (version : Z)
    (root : PurePath) (w : World) (msg : string) (w' : World) :
  _prepare_repo h charm_config interface version root w = (Raised (SetupError msg), w') →
  (msg = clone_failed charm_config ∨ msg = "venv setup failed"
   ∨ msg = fixture_missing charm_config) ∧
  msg ≠ no_fixture_spec (root </> Path (name charm_config)).
Proof.
  intros Hraised.
  pose proof (gives_up_prepare_repo h charm_config interface version root _ _ _ Hraised)
    as Hmsg.
  split; [exact Hmsg|].
  destruct Hmsg as [-> | [-> | ->]]; discriminate.
Qed.

Lemma provisioning_gives_up_in_three_ways_witness :
  ("Failed to clone repo for traefik; check the charms.yaml config."
     = clone_failed Examples.traefik
   ∨ "Failed to clone repo for traefik; check the charms.yaml config." = "venv setup failed"
   ∨ "Failed to clone repo for traefik; check the charms.yaml config."
     = fixture_missing Examples.traefik) ∧
  "Failed to clone repo for traefik; check the charms.yaml config."
    ≠ no_fixture_spec (default_root </> Path (name Examples.traefik)).
Proof.
  apply (provisioning_gives_up_in_three_ways (Examples.offline []) Examples.traefik
           "ingress" 2 default_root Examples.fresh _
           (_prepare_repo (Examples.offline []) Examples.traefik "ingress" 2 default_root
              Examples.fresh).2).
  apply raised_pair. vm_compute. reflexivity.
Defined.

Section Present.
Context (h : Host).

Lemma test_charm_present charm_config interface version role w :
  exists_ w (charm_path charm_config) = true →
  _test_charm h charm_config interface version role w =
    match prepare_repo_rest charm_config interface version (charm_path charm_config) w with
    | (Returned (charm_path, test_path), w1) =>
        try_except (_run_test_with_pytest h charm_path test_path ;> ret true)
          (λ e, match e with
                | InterfaceTestError => Some (ret false)
                | _ => None
                end) w1
    | (Raised (SetupError _), w1) => (Returned false, w1)
    | (Raised e, w1) => (Raised e, w1)
    end.
Proof.
  intros Hpresent. unfold _test_charm. unfold bind at 1. unfold try_except at 1.
  unfold bind at 1. rewrite prepare_repo_present by exact Hpresent.
  fold (charm_path charm_config).
  destruct (prepare_repo_rest _ _ _ _ w) as [[[path test_path]|e] w1]; [done|].
  by destruct e.
Qed.

End Present.

(** X5. A charm whose directory is there but whose fixture file is not
    fails its unit of work at once: the verdict is [False], no command is
    spawned, no test file is written, and the world is as it was. *)
Theorem missing_fixture_fails_the_unit
    (h : Host) (charm_config : CharmConfig) (interface : string) (version : Z)
    (role : string) (w : World) :
  exists_ w (charm_path charm_config) = true →
  complete_setup charm_config →
  is_file w (expected_fixture charm_config) = false →
  _test_charm h charm_config interface version role w = (Returned false, w).
Proof.
  intros Hpresent Hsetup Hfixture. rewrite test_charm_present by exact Hpresent.
  unfold prepare_repo_rest. unfold bind at 1. unfold try_except.
  rewrite get_fixture_resolved by exact Hsetup.
  unfold bind at 1. unfold path_is_file. simpl FixtureSpec.path.
  fold (expected_fixture charm_config). by rewrite Hfixture.
Qed.

Lemma missing_fixture_fails_the_unit_witness :
  let w := {| cwd := ["home"];
              fs := mkdirs (charm_location Examples.traefik) (fs Examples.fresh);
              trace := [] |} in
  _test_charm (Examples.healthy []) Examples.traefik "ingress" 2 "provider" w
    = (Returned false, w).
Proof.
  intros w.
  apply (missing_fixture_fails_the_unit (Examples.healthy []) Examples.traefik
           "ingress" 2 "provider" w).
  - vm_compute. reflexivity.
  - exact I.
  - vm_compute. reflexivity.
Defined.

(** X6. A [test_setup] that is not empty and lacks one of its two keys
    aborts the unit of work of a charm whose directory is there: the
    subscript raises KeyError, which neither the provisioner nor
    [_test_charm] handles, so no verdict is recorded. *)
Theorem incomplete_test_setup_aborts_the_unit
    (h : Host) (charm_config : CharmConfig) (interface : string) (version : Z)
    (role : string) (w : World) (setup : gmap string (option string)) :
  exists_ w (charm_path charm_config) = true →
  test_setup charm_config = Some setup →
  setup ≠ ∅ →
  setup !! "location" = None ∨ setup !! "identifier" = None →
  ∃ key,
    (key = "location" ∨ key = "identifier") ∧
    _test_charm h charm_config interface version role w = (Raised (KeyError key), w).
Proof.
  intros Hpresent Hsetup Hne Hmissing. rewrite test_charm_present by exact Hpresent.
  unfold prepare_repo_rest. unfold bind at 1. unfold try_except, _get_fixture.
  rewrite Hsetup, decide_False by exact Hne.
  unfold bind, subscript_map, ret, raise.
  destruct (setup !! "location") as [location|]; [|exists "location"; by split; [left|]].
  destruct Hmissing as [|Hidentifier]; [done|]. rewrite Hidentifier.
  exists "identifier". by split; [right|].
Qed.

Lemma incomplete_test_setup_aborts_the_unit_witness :
  let c := mkCharm "traefik" "https://example.org/traefik.git" None
             (Some {[ "location" := Some "tests/conftest.py" ]}) in
  ∃ key,
    (key = "location" ∨ key = "identifier") ∧
    _test_charm (Examples.healthy []) c "ingress" 2 "provider" Examples.cloned
      = (Raised (KeyError key), Examples.cloned).
Proof.
  intros c.
  apply (incomplete_test_setup_aborts_the_unit (Examples.healthy []) c "ingress" 2
           "provider" Examples.cloned {[ "location" := Some "tests/conftest.py" ]}).
  - vm_compute. reflexivity.
  - reflexivity.
  - apply insert_non_empty.
  - right. vm_compute. reflexivity.
Defined.



(** X8. The environment build, in a charm directory that is there: the
    three commands are spawned in that directory, in their order, each one
    only if the ones before it exited with status zero.  When all of them
    do, the build returns and the process is back in the directory it came
    from; at the first one that does not, it raises SetupError and the
    process stays in the charm directory.  The filesystem the runner looks
    at is not touched. *)
Theorem environment_build_stops_at_first_failure
    (h : Host) (charm_path : PurePath) (w : World) :
  fs w !! resolve w charm_path = Some Dir →
  in_a_directory w →
  let wd := resolve w charm_path in
  let ran := (until_failure h wd venv_commands).1 in
  let ok := (until_failure h wd venv_commands).2 in
  _setup_venv h charm_path w =
    (if ok then Returned tt else Raised (SetupError "venv setup failed"),
     {| cwd := if ok then cwd w else wd;
        fs := fs w;
        trace := trace w ++ map (Spawned wd) ran |}).
Proof.
  intros Hdir Hcwd wd ran ok. subst ran ok. unfold in_a_directory in Hcwd.
  rewrite setup_venv_unfold, Hdir. fold wd.
  unfold venv_steps, try_except, bind, venv_commands, until_failure.
  rewrite check_call_run by done.
  destruct (returncode (spawn h wd MkVenv) =? 0); [|by rewrite Hdir || done].
  rewrite check_call_run by done.
  destruct (returncode (spawn h wd PipInstallTester) =? 0);
    [|simpl; by rewrite <- app_assoc].
  rewrite check_call_run by done.
  destruct (returncode (spawn h wd PipInstallRequirements) =? 0);
    [|simpl; by rewrite <- !app_assoc].
  unfold chdir, resolve. simpl. rewrite Hcwd. by rewrite <- !app_assoc.
Qed.

Lemma environment_build_stops_at_first_failure_witness :
  let h := Examples.broken_requirements [] in
  let wd := resolve Examples.cloned Examples.traefik_path in
  _setup_venv h Examples.traefik_path Examples.cloned =
    (Raised (SetupError "venv setup failed"),
     {| cwd := wd;
        fs := fs Examples.cloned;
        trace := [Spawned wd MkVenv; Spawned wd PipInstallTester;
                  Spawned wd PipInstallRequirements] |}).
Proof.
  intros h wd.
  etrans;
    [apply (environment_build_stops_at_first_failure h Examples.traefik_path
              Examples.cloned)|].
  - vm_compute. reflexivity.
  - vm_compute. reflexivity.
  - reflexivity.
Defined.

Section Verdicts.
Context (h : Host).

Lemma returncode_zero t : (returncode t =? 0) = true → t = Exited 0.
Proof.
  destruct t as [status|signal]; simpl; [|done].
  intros Hzero%Z.eqb_eq. f_equal. lia.
Qed.

(** When the executor returns, pytest has been spawned in the charm
    directory and has exited with status zero. *)
Lemma run_test_with_pytest_passed root test_path w w' :
  _run_test_with_pytest h root test_path w = (Returned tt, w') →
  spawn h (resolve w root) (Pytest test_path) = Exited 0 ∧
  cwd w' = cwd w ∧ fs w' = fs w ∧
  trace w' = trace w ++ [Spawned (resolve w root) (Pytest test_path)].
Proof.
  rewrite run_test_with_pytest_unfold.
  destruct (fs w !! resolve w root) as [[|?]|]; [|done..].
  unfold pytest_step, try_except. rewrite check_call_run by done.
  destruct (returncode _ =? 0) eqn:Hzero; [|done].
  intros (Hcwd & Hfs & Htrace & _)%chdir_returned.
  split; [by apply returncode_zero|]. by rewrite Hcwd, Hfs, Htrace.
Qed.

(** Whatever the executor does, the process ends where it was or in the
    directory it had changed into. *)
Lemma run_test_with_pytest_cwd root test_path w :
  let w' := (_run_test_with_pytest h root test_path w).2 in
  cwd w' = cwd w ∨ cwd w' = resolve w root.
Proof.
  rewrite run_test_with_pytest_unfold.
  destruct (fs w !! resolve w root) as [[|?]|]; [|by left..].
  destruct (pytest_step_run h test_path (resolve w root)) as (r & events & ->).
  destruct r as [[]|e]; [|by right]. unfold chdir, resolve. simpl.
  destruct (fs w !! cwd w) as [[|?]|]; simpl; tauto.
Qed.

Lemma setup_venv_cwd charm_path w :
  let w' := (_setup_venv h charm_path w).2 in
  cwd w' = cwd w ∨ cwd w' = resolve w charm_path.
Proof.
  rewrite setup_venv_unfold.
  destruct (fs w !! resolve w charm_path) as [[|?]|]; [|by left..].
  destruct (venv_steps_run h (resolve w charm_path)) as (r & events & ->).
  destruct r as [[]|e]; [|by right]. unfold chdir, resolve. simpl.
  destruct (fs w !! cwd w) as [[|?]|]; simpl; tauto.
Qed.

Lemma clone_charm_repo_cwd charm_config charm_path w :
  cwd (_clone_charm_repo h charm_config charm_path w).2 = cwd w.
Proof.
  unfold _clone_charm_repo, bind, subprocess_call. by destruct (0 <? _).
Qed.

Lemma prepare_repo_cwd charm_config interface version w :
  let after := _prepare_repo h charm_config interface version default_root w in
  (cwd after.2 = cwd w ∨ cwd after.2 = charm_location charm_config) ∧
  (∀ paths, after.1 = Returned paths → cwd after.2 = cwd w).
Proof.
  pose proof (prepare_repo_rest_stays charm_config interface version
                (charm_path charm_config)) as Hrest.
  unfold steps, stays in Hrest.
  destruct (exists_ w (charm_path charm_config)) eqn:Hpresent.
  - rewrite prepare_repo_present by exact Hpresent. fold (charm_path charm_config).
    simpl. rewrite Hrest. split; [by left|done].
  - rewrite prepare_repo_absent by exact Hpresent. fold (charm_path charm_config).
    unfold bind.
    pose proof (clone_charm_repo_cwd charm_config (charm_path charm_config) w) as Hclone.
    destruct (_clone_charm_repo h charm_config _ w) as [[[]|e] w0]; simpl in Hclone;
      [|simpl; split; [by left|done]].
    pose proof (setup_venv_cwd (charm_path charm_config) w0) as Hvenv.
    pose proof (setup_venv_returned h (charm_path charm_config) w0) as Hreturned.
    rewrite resolve_charm_path in Hvenv.
    destruct (_setup_venv h _ w0) as [[[]|e] w1]; simpl in Hvenv.
    + specialize (Hreturned w1 eq_refl). simpl. rewrite Hrest.
      split; [left|intros ? _]; congruence.
    + simpl. split; [|done]. rewrite <- Hclone. exact Hvenv.
Qed.

Lemma get_fixture_anchored charm_config charm_path w spec w' :
  anchored charm_path = true →
  _get_fixture charm_config charm_path w = (Returned spec, w') →
  anchored (FixtureSpec.path spec) = true.
Proof.
  intros Hanchored. unfold _get_fixture.
  destruct (test_setup charm_config) as [setup|];
    [|intros [= <- _]; by apply joinpath_anchored].
  case_decide; [intros [= <- _]; by apply joinpath_anchored|].
  unfold bind, subscript_map, ret.
  destruct (setup !! "location") as [location|]; [|done].
  destruct (setup !! "identifier") as [identifier|]; [|done].
  intros [= <- _]. simpl. destruct (truthy location); by apply joinpath_anchored.
Qed.

Lemma generate_test_returned interface test_path fixture_id version w path w' :
  _generate_test interface test_path fixture_id version w = (Returned path, w') →
  path = test_path </> Path ("interface-test-" +:+ interface +:+ ".py") ∧
  cwd w' = cwd w ∧
  fs w' = <[resolve w path := File (_TEST_CONTENT interface fixture_id version)]> (fs w) ∧
  trace w' = trace w ++ [Written (resolve w path)].
Proof.
  unfold _generate_test, bind, write_text.
  set (target := test_path </> Path ("interface-test-" +:+ interface +:+ ".py")).
  destruct (fs w !! resolve w target) as [[|?]|],
           (fs w !! removelast (resolve w target)) as [[|?]|];
    try done; by intros [= <- <-].
Qed.

(** What provisioning returns: the charm directory, and the path of the
    test file that it has just written. *)
Lemma prepare_repo_rest_file charm_config interface version charm_path w paths w' :
  anchored charm_path = true →
  prepare_repo_rest charm_config interface version charm_path w = (Returned paths, w') →
  anchored paths.2 = true ∧
  ∃ fixture_id,
    fs w' !! parts paths.2 = Some (File (_TEST_CONTENT interface fixture_id version)).
Proof.
  intros Hanchored. unfold prepare_repo_rest. unfold bind at 1.
  destruct (try_except _ _ w) as [[spec|e] w1] eqn:Hspec; [|done].
  apply guarded_fixture_returned in Hspec; [|intros []; simpl; eauto].
  apply (get_fixture_anchored _ _ _ _ _ Hanchored) in Hspec.
  unfold bind at 1. unfold path_is_file. destruct (is_file w1 _); [|done].
  unfold bind at 1. unfold ret at 1. unfold bind.
  destruct (_generate_test _ _ _ _ w1) as [[test_path|e] w2] eqn:Htest; [|done].
  intros [= <- <-]. simpl.
  apply generate_test_returned in Htest as (Hpath & _ & Hfs & _).
  assert (Htest_anchored : anchored test_path = true).
  { rewrite Hpath. by apply joinpath_anchored. }
  split; [done|]. exists (FixtureSpec.id spec).
  rewrite Hfs, resolve_anchored by done. apply lookup_insert_eq.
Qed.

Lemma prepare_repo_file charm_config interface version w paths w' :
  _prepare_repo h charm_config interface version default_root w = (Returned paths, w') →
  paths.1 = charm_path charm_config ∧
  anchored paths.2 = true ∧
  ∃ fixture_id,
    fs w' !! parts paths.2 = Some (File (_TEST_CONTENT interface fixture_id version)).
Proof.
  intros Hprepare. split; [by apply prepare_repo_returned in Hprepare|].
  assert (Hanchored : anchored (charm_path charm_config) = true)
    by apply joinpath_anchored, default_root_anchored.
  destruct (exists_ w (charm_path charm_config)) eqn:Hpresent.
  - rewrite prepare_repo_present in Hprepare by exact Hpresent.
    by eapply prepare_repo_rest_file.
  - rewrite prepare_repo_absent in Hprepare by exact Hpresent.
    unfold bind at 1 in Hprepare.
    destruct (bind _ _ w) as [[[]|e] w0]; [|done].
    by eapply prepare_repo_rest_file.
Qed.

Lemma appends_prepare_repo charm_config interface version root w :
  steps (appends (λ _, True)) (_prepare_repo h charm_config interface version root) w.
Proof.
  apply steps_prepare_repo; [apply _|..].
  - apply appends_chdir.
  - intros. by apply appends_subprocess_call.
  - intros. by apply appends_subprocess_call.
  - intros. by apply appends_write_text.
Qed.

End Verdicts.

(** X9. A unit of work is recorded as passed only if pytest passed: when
    [_test_charm] returns [True], the last command of the unit is pytest,
    spawned in the charm directory on the generated test file, and it
    exited with status zero; the file is in place, and holds the test
    generated for this interface and this version. *)
Theorem passing_verdict_means_pytest_passed
    (h : Host) (charm_config : CharmConfig) (interface : string) (version : Z)
    (role : string) (w w' : World) :
  _test_charm h charm_config interface version role w = (Returned true, w') →
  ∃ test_path fixture_id events,
    spawn h (charm_location charm_config) (Pytest test_path) = Exited 0 ∧
    trace w' = trace w ++ events
                 ++ [Spawned (charm_location charm_config) (Pytest test_path)] ∧
    fs w' !! parts test_path = Some (File (_TEST_CONTENT interface fixture_id version)).
Proof.
  unfold _test_charm. unfold bind at 1. unfold try_except at 1. unfold bind at 1.
  pose proof (appends_prepare_repo h charm_config interface version default_root w)
    as (events & Htrace & _).
  destruct (_prepare_repo h charm_config interface version default_root w)
    as [[[path test_path]|e] w1] eqn:Hprepare; [|by destruct e].
  apply prepare_repo_file in Hprepare as (Hpath & _ & fixture_id & Hfile).
  simpl in Hpath, Hfile, Htrace. subst path.
  unfold ret at 1. unfold try_except, bind.
  destruct (_run_test_with_pytest h _ test_path w1) as [[[]|e] w2] eqn:Hrun;
    [|by destruct e].
  intros [= <-].
  apply run_test_with_pytest_passed in Hrun as (Hpassed & _ & Hfs & Hspawned).
  rewrite resolve_charm_path in Hpassed, Hspawned.
  exists test_path, fixture_id, events. split; [done|]. split.
  - by rewrite Hspawned, Htrace, <- app_assoc.
  - by rewrite Hfs.
Qed.

Lemma passing_verdict_means_pytest_passed_witness :
  let h := Examples.healthy [] in
  ∃ test_path fixture_id events,
    spawn h (charm_location Examples.traefik) (Pytest test_path) = Exited 0 ∧
    trace (_test_charm h Examples.traefik "ingress" 2 "provider" Examples.fresh).2
      = trace Examples.fresh ++ events
          ++ [Spawned (charm_location Examples.traefik) (Pytest test_path)] ∧
    fs (_test_charm h Examples.traefik "ingress" 2 "provider" Examples.fresh).2
      !! parts test_path = Some (File (_TEST_CONTENT "ingress" fixture_id 2)).
Proof.
  intros h.
  apply (passing_verdict_means_pytest_passed h Examples.traefik "ingress" 2 "provider"
           Examples.fresh).
  apply returned_pair. vm_compute. reflexivity.
Defined.

Lemma test_charm_cwd (h : Host) charm_config interface version role w r w' :
  _test_charm h charm_config interface version role w = (r, w') →
  (cwd w' = cwd w ∨ cwd w' = charm_location charm_config) ∧
  (r = Returned true → cwd w' = cwd w).
Proof.
  intros Hunit. revert Hunit.
  unfold _test_charm. unfold bind at 1. unfold try_except at 1. unfold bind at 1.
  destruct (prepare_repo_cwd h charm_config interface version w) as [Hcwd Hreturned].
  destruct (_prepare_repo h charm_config interface version default_root w)
    as [[[path test_path]|e] w1] eqn:Hprepare; simpl in Hcwd, Hreturned.
  - specialize (Hreturned _ eq_refl).
    apply prepare_repo_returned in Hprepare. simpl in Hprepare. subst path.
    unfold ret at 1. unfold try_except, bind.
    pose proof (run_test_with_pytest_cwd h (charm_path charm_config) test_path w1) as Hrun.
    pose proof (run_test_with_pytest_returned h (charm_path charm_config) test_path w1)
      as Hback.
    rewrite resolve_charm_path in Hrun.
    destruct (_run_test_with_pytest h _ test_path w1) as [[[]|e] w2]; simpl in Hrun.
    + specialize (Hback w2 eq_refl). intros [= <- <-].
      split; [left|intros _]; congruence.
    + rewrite Hreturned in Hrun. destruct e; intros [= <- <-]; by split.
  - destruct e; intros [= <- <-]; by split.
Qed.

(** X10. Where a unit of work leaves the process: in the directory it was
    in, or in the directory of the charm; and in the directory it was in
    whenever the verdict is [True].  Only a unit that fails or aborts can
    leave the process in the charm directory. *)
Theorem working_directory_after_a_unit
    (h : Host) (charm_config : CharmConfig) (interface : string) (version : Z)
    (role : string) (w : World) :
  let after := _test_charm h charm_config interface version role w in
  (cwd after.2 = cwd w ∨ cwd after.2 = charm_location charm_config) ∧
  (after.1 = Returned true → cwd after.2 = cwd w).
Proof.
  intros after. apply (test_charm_cwd h charm_config interface version role w).
  apply surjective_pairing.
Qed.

Lemma working_directory_after_a_unit_witness :
  let h := Examples.healthy [] in
  cwd (_test_charm h Examples.traefik "ingress" 2 "provider" Examples.fresh).2
    = cwd Examples.fresh.
Proof.
  intros h.
  apply (proj2 (working_directory_after_a_unit h Examples.traefik "ingress" 2 "provider"
                  Examples.fresh)).
  vm_compute. reflexivity.
Defined.

Section Afterwards.
Context (R : relation World) `{!PreOrder R}.

(** What comes after a step that is related to its start extends it. *)
Lemma steps_after_bind {T U} (m : M T) (k : T → M U) w :
  (∀ a w', steps R (k a) w') → R (m w).2 (bind m k w).2.
Proof.
  intros Hk. unfold bind. destruct (m w) as [[a|e] w1]; simpl; [apply Hk|reflexivity].
Qed.

Lemma steps_after_try_except {T} (m : M T) handler w :
  (∀ e h0 w', handler e = Some h0 → steps R h0 w') →
  R (m w).2 (try_except m handler w).2.
Proof.
  intros Hhandler. unfold try_except.
  destruct (m w) as [[a|e] w1]; simpl; [reflexivity|].
  destruct (handler e) as [h0|] eqn:He; [by eapply Hhandler|reflexivity].
Qed.

End Afterwards.

Section Everything.
Context (h : Host).

Lemma anything_chdir p w : steps (appends (λ _, True)) (chdir p) w.
Proof. apply appends_chdir. Qed.

Lemma anything_call cmd w : steps (appends (λ _, True)) (subprocess_call h cmd) w.
Proof. by apply appends_subprocess_call. Qed.

Lemma anything_write p content w : steps (appends (λ _, True)) (write_text p content) w.
Proof. by apply appends_write_text. Qed.

(** A unit of work on a charm whose directory is not there starts with
    the clone. *)
Lemma test_charm_starts_with_clone charm_config interface version role w :
  exists_ w (charm_path charm_config) = false →
  ∃ events,
    trace (_test_charm h charm_config interface version role w).2
      = trace w
          ++ Spawned (cwd w) (clone_command charm_config (charm_path charm_config))
             :: events.
Proof.
  intros Habsent.
  set (cloned := (_clone_charm_repo h charm_config (charm_path charm_config) w).2).
  assert (Hcloned : trace cloned
            = trace w ++ [Spawned (cwd w)
                            (clone_command charm_config (charm_path charm_config))]).
  { subst cloned. unfold _clone_charm_repo, bind, subprocess_call.
    by destruct (0 <? _). }
  assert (Hrest : appends (λ _, True) cloned
            (_test_charm h charm_config interface version role w).2).
  { unfold _test_charm.
    etrans; [|apply (steps_after_bind (appends (λ _, True)))].
    - etrans; [|apply (steps_after_try_except (appends (λ _, True)))].
      + etrans; [|apply (steps_after_bind (appends (λ _, True)));
                  intros; apply steps_ret; apply _].
        rewrite prepare_repo_absent by exact Habsent. fold (charm_path charm_config).
        etrans; [|apply (steps_after_bind (appends (λ _, True)))].
        * apply (steps_after_bind (appends (λ _, True))). intros.
          apply steps_setup_venv;
            [apply _|apply anything_chdir|intros; apply anything_call].
        * intros. apply steps_prepare_repo_rest; [apply _|apply anything_write].
      + intros [] ? ? [= <-]. apply steps_ret. apply _.
    - intros [[path test_path]|] w1; [|apply steps_ret; apply _].
      apply steps_try_except; [apply _|..].
      + apply steps_bind; [apply _|..]; [|intros; apply steps_ret; apply _].
        apply steps_run_test_with_pytest;
          [apply _|apply anything_chdir|intros; apply anything_call].
      + intros [] ? ? _ [= <-]. apply steps_ret. apply _. }
  destruct Hrest as (events & Htrace & _). exists events.
  by rewrite Htrace, Hcloned, <- app_assoc.
Qed.

End Everything.

(** X11. Once the workspace has been reset, no checkout of an earlier run
    is reused: if the workspace root was a directory, then after [_clean]
    the directory of a charm does not exist, and the unit of work of the
    charm starts by spawning its clone.  The name of the charm must not
    start with a slash: joined to the root, such a name is a path of its
    own, out of the workspace. *)
Theorem reset_forces_a_fresh_clone
    (h : Host) (charm_config : CharmConfig) (interface : string) (version : Z)
    (role : string) (w : World) :
  is_dir w default_root = true →
  anchored (Path (name charm_config)) = false →
  let w0 := (_clean default_root w).2 in
  exists_ w0 (charm_path charm_config) = false ∧
  ∃ events,
    trace (_test_charm h charm_config interface version role w0).2
      = trace w0
          ++ Spawned (cwd w) (clone_command charm_config (charm_path charm_config))
             :: events.
Proof.
  intros Hdir Hname w0.
  assert (Habsent : exists_ w0 (charm_path charm_config) = false).
  { unfold exists_. rewrite resolve_charm_path. subst w0.
    rewrite clean_removes_tree by exact Hdir.
    rewrite decide_True; [done|].
    rewrite resolve_default_root. unfold charm_location, charm_path, joinpath.
    rewrite Hname. by apply prefix_app_r. }
  split; [exact Habsent|].
  replace (cwd w) with (cwd w0) by (subst w0; rewrite clean_unfold; by destruct (is_dir _ _)).
  by apply test_charm_starts_with_clone.
Qed.

Lemma reset_forces_a_fresh_clone_witness :
  let h := Examples.healthy [] in
  let w0 := (_clean default_root Examples.cloned).2 in
  exists_ w0 (charm_path Examples.traefik) = false ∧
  ∃ events,
    trace (_test_charm h Examples.traefik "ingress" 2 "provider" w0).2
      = trace w0
          ++ Spawned (cwd Examples.cloned)
               (clone_command Examples.traefik (charm_path Examples.traefik))
             :: events.
Proof.
  intros h.
  apply (reset_forces_a_fresh_clone h Examples.traefik "ingress" 2 "provider"
           Examples.cloned).
  - vm_compute. reflexivity.
  - reflexivity.
Defined.

Section Shape.
Context (h : Host).

Lemma test_charms_names interface version role charm_configs :
  ∀ acc w out w',
    for_each charm_configs (_test_charms_body h interface version role) acc w
      = (Returned out, w') →
    ∀ n, is_Some (PyDict.get n out)
         ↔ is_Some (PyDict.get n acc) ∨ n ∈ name <$> charm_configs.
Proof.
  induction charm_configs as [|c rest IH]; intros acc w out w'; simpl.
  - intros [= <- _] n. rewrite elem_of_nil. tauto.
  - unfold bind at 1. unfold _test_charms_body at 1. unfold bind at 1.
    destruct (_test_charm h c interface version role w) as [[success|e] w1]; [|done].
    unfold ret at 1. intros Hrest n. rewrite (IH _ _ _ _ Hrest n).
    rewrite get_set, elem_of_cons. case_decide as Hn.
    + subst n. split; [intros _; right; by left|intros _; left; eauto].
    + split; [intros [|]; tauto|intros [|[|]]; tauto].
Qed.

Lemma test_roles_body_names tests_per_role interface version acc role w acc' w' :
  _test_roles_body h tests_per_role interface version acc role w = (Returned acc', w') →
  ∃ spec per_charm,
    PyDict.get role tests_per_role = Some spec ∧
    acc' = PyDict.set role per_charm acc ∧
    ∀ n, is_Some (PyDict.get n per_charm)
         ↔ tests spec ≠ [] ∧ n ∈ name <$> charms spec.
Proof.
  unfold _test_roles_body, bind, subscript.
  destruct (PyDict.get role tests_per_role) as [spec|]; [|done]. unfold ret at 1.
  destruct (tests spec) as [|t ts] eqn:Htests.
  { intros [= <- _]. exists spec, []. rewrite Htests. split; [done|]. split; [done|].
    intros n. simpl. split; [by intros [? ?]|by intros [? _]]. }
  destruct (charms spec) as [|c cs] eqn:Hcharms.
  { intros [= <- _]. exists spec, []. rewrite Htests, Hcharms. split; [done|].
    split; [done|]. intros n. simpl. rewrite elem_of_nil.
    split; [by intros [? ?]|by intros [_ ?]]. }
  destruct (_test_charms h (c :: cs) interface version role w) as [[per_charm|e] w1]
    eqn:Hcharms_run; [|done].
  intros [= <- _]. exists spec, per_charm. rewrite Htests, Hcharms.
  split; [done|]. split; [done|]. intros n.
  rewrite (test_charms_names _ _ _ _ _ _ _ _ Hcharms_run n). simpl.
  split; [intros [[? ?]|?]; [done|by split]|intros [_ ?]; by right].
Qed.

Lemma test_roles_names tests_per_role interface version w per_role w' :
  _test_roles h tests_per_role interface version w = (Returned per_role, w') →
  ∀ role n, is_Some (outcome_in_roles per_role role n)
            ↔ registered_in_roles tests_per_role role n.
Proof.
  rewrite test_roles_unfold.
  destruct (_test_roles_body _ _ _ _ [] _ _) as [[acc|e] w1] eqn:Hprovider; [|done].
  intros Hrequirer.
  apply test_roles_body_names in Hprovider as (provided & per_provider & Hp & -> & Hpn).
  apply test_roles_body_names in Hrequirer as (required & per_requirer & Hr & -> & Hrn).
  intros role n. unfold outcome_in_roles, registered_in_roles. rewrite !get_set.
  case_decide as Hrequirer; [|case_decide as Hprovider]; subst.
  - rewrite Hrn. split.
    + intros [? ?]. split; [by right|]. by exists required.
    + intros [_ (spec & Hspec & ? & ?)]. by simplify_eq.
  - rewrite Hpn. split.
    + intros [? ?]. split; [by left|]. by exists provided.
    + intros [_ (spec & Hspec & ? & ?)]. by simplify_eq.
  - split; [by intros [? ?]|]. by intros [[->| ->] _].
Qed.

(** What an iteration over the versions of an interface stores. *)
Lemma test_interface_version_body_names interface acc item w acc' w' :
  _test_interface_version_body h interface acc item w = (Returned acc', w') →
  ∃ per_role,
    acc' = PyDict.set item.1 per_role acc ∧
    ∀ role n, is_Some (outcome_in_roles per_role role n)
              ↔ registered_in_roles item.2 role n.
Proof.
  intros (per_role & -> & n & w1 & w2 & Hroles)%test_interface_version_body_sets.
  exists per_role. split; [done|]. by eapply test_roles_names.
Qed.

Lemma test_interface_version_names versions interface w per_version w' :
  NoDup (PyDict.keys versions) →
  _test_interface_version h versions interface w = (Returned per_version, w') →
  ∀ version role n,
    is_Some (outcome_in_versions per_version version role n)
    ↔ registered_in_versions versions version role n.
Proof.
  intros Hnodup Hrun version role n.
  unfold outcome_in_versions, registered_in_versions. split.
  - destruct (PyDict.get version per_version) as [per_role|] eqn:Hget; [|by intros [? ?]].
    intros Hsome.
    destruct (for_each_values _ _ (test_interface_version_body_names interface)
                _ _ _ _ _ _ _ Hrun Hget)
      as [Hnil | ([version' roles] & Hin & Hkey & Hnames)]; [done|].
    simpl in Hkey, Hnames. subst version'. exists roles.
    split; [by apply elem_get_NoDup|]. by apply Hnames.
  - intros (roles & Hroles & Hregistered).
    destruct (for_each_values_NoDup _ _ (test_interface_version_body_names interface)
                _ _ _ _ _ _ Hnodup Hroles Hrun)
      as (per_role & -> & Hnames).
    by apply Hnames.
Qed.

(** What an iteration over the interfaces stores. *)
Lemma run_interface_tests_body_names acc item w acc' w' :
  run_interface_tests_body h acc item w = (Returned acc', w') →
  ∃ per_version,
    acc' = PyDict.set item.1 per_version acc ∧
    (NoDup (PyDict.keys item.2) →
     ∀ version role n,
       is_Some (outcome_in_versions per_version version role n)
       ↔ registered_in_versions item.2 version role n).
Proof.
  intros (per_version & -> & w1 & w2 & Hversions)%run_interface_tests_body_sets.
  exists per_version. split; [done|]. intros Hnodup.
  by eapply test_interface_version_names.
Qed.

End Shape.

(** X12. The tree of results mirrors the registry.  In the tree a run
    returns, there is a verdict under interface, version, role and charm
    name exactly when the registry has this interface and this version,
    the role is [provider] or [requirer], the role has tests, and a charm
    of this name is registered for it.  No registered charm is skipped and
    no verdict is made up. *)
Theorem results_mirror_the_registry
    (h : Host) (path : PurePath) (include : string) (w : World)
    (tree : ResultsPerInterface) (w' : World) :
  well_keyed (collect_tests h path include) →
  run_interface_tests h path include w = (Returned tree, w') →
  ∀ interface version role charm,
    is_Some (outcome tree interface version role charm)
    ↔ registered (collect_tests h path include) interface version role charm.
Proof.
  intros [Hinterfaces Hversions] Hrun%run_interface_tests_traversal
    interface version role charm.
  change (outcome tree interface version role charm)
    with (match PyDict.get interface tree with
          | Some per_version => outcome_in_versions per_version version role charm
          | None => None
          end).
  unfold registered. split.
  - destruct (PyDict.get interface tree) as [per_version|] eqn:Hget; [|by intros [? ?]].
    intros Hsome.
    destruct (for_each_values _ _ (run_interface_tests_body_names h)
                _ _ _ _ _ _ _ Hrun Hget)
      as [Hnil | ([interface' versions] & Hin & Hkey & Hnames)]; [done|].
    simpl in Hkey, Hnames. subst interface'. exists versions.
    split; [by apply elem_get_NoDup|]. apply Hnames; [|done].
    by apply (Hversions (interface, versions)).
  - intros (versions & Hget & Hregistered).
    destruct (for_each_values_NoDup _ _ (run_interface_tests_body_names h)
                _ _ _ _ _ _ Hinterfaces Hget Hrun)
      as (per_version & -> & Hnames).
    apply Hnames; [|done].
    apply (Hversions (interface, versions)). by apply get_Some_elem.
Qed.

Lemma results_mirror_the_registry_witness :
  let h := Examples.traefik_broken Examples.two_charms in
  is_Some (outcome
             [("ingress",
               [("v2", [("provider", [("traefik", false); ("nginx", true)]);
                        ("requirer", [("nginx", true)])])])]
             "ingress" "v2" "requirer" "traefik")
  ↔ registered (collect_tests h (Path ".") "*") "ingress" "v2" "requirer" "traefik".
Proof.
  intros h.
  apply (results_mirror_the_registry h (Path ".") "*" Examples.fresh _
           (run_interface_tests h (Path ".") "*" Examples.fresh).2).
  - split; [apply NoDup_singleton|].
    intros item ->%list_elem_of_singleton. apply NoDup_singleton.
  - apply returned_pair. vm_compute. reflexivity.
Defined.

Section Numerals.

Lemma digit_of_pretty_N_char (d : N) :
  (d < 10)%N → digit_of (pretty_N_char d) = Some (Z.of_N d).
Proof.
  intros Hd. destruct d as [|p]; [reflexivity|].
  repeat (destruct p as [p|p|]; try reflexivity; try lia).
Qed.

Lemma digit_not_space c d : digit_of c = Some d → is_space c = false.
Proof.
  intros Hd. destruct c as [[] [] [] [] [] [] [] []];
    vm_compute in Hd; try discriminate Hd; reflexivity.
Qed.

Lemma all_digits_go (x : N) :
  ∀ s, all_digits s = true → all_digits (pretty_N_go x s) = true.
Proof.
  induction (N.lt_wf_0 x) as [x _ IH]. intros s Hs.
  destruct (decide (x = 0)%N) as [->|Hx]; [by rewrite pretty_N_go_0|].
  rewrite pretty_N_go_step by lia. apply IH.
  - apply N.div_lt; lia.
  - simpl. rewrite digit_of_pretty_N_char by (apply N.mod_lt; lia). exact Hs.
Qed.

Lemma digits_go (x : N) :
  (0 < x)%N → ∀ s, digits 0 false (pretty_N_go x s) = digits (Z.of_N x) true s.
Proof.
  induction (N.lt_wf_0 x) as [x _ IH]. intros Hx s.
  rewrite pretty_N_go_step by exact Hx.
  assert (Hdigit : digit_of (pretty_N_char (x `mod` 10)) = Some (Z.of_N (x `mod` 10)))
    by (apply digit_of_pretty_N_char, N.mod_lt; lia).
  pose proof (N.div_mod x 10 ltac:(lia)) as Hdiv.
  destruct (decide (x `div` 10 = 0)%N) as [Hsmall|Hbig].
  - rewrite Hsmall, pretty_N_go_0. simpl. rewrite Hdigit. f_equal. lia.
  - assert (Hless : (x `div` 10 < x)%N) by (apply N.div_lt; lia).
    assert (Hpos : (0 < x `div` 10)%N) by (apply N.neq_0_lt_0; exact Hbig).
    rewrite (IH _ Hless Hpos). simpl. rewrite Hdigit. f_equal. lia.
Qed.

Lemma lstrip_digits s : all_digits s = true → lstrip s = s.
Proof.
  destruct s as [|c rest]; [done|]. simpl.
  destruct (digit_of c) as [d|] eqn:Hd; [|done]. intros _.
  by rewrite (digit_not_space _ _ Hd).
Qed.

Lemma rstrip_digits s : all_digits s = true → rstrip s = s.
Proof.
  induction s as [|c rest IH]; [done|]. simpl.
  destruct (digit_of c) as [d|] eqn:Hd; [|done]. intros Hrest.
  rewrite IH by exact Hrest. rewrite (digit_not_space _ _ Hd). by destruct rest.
Qed.

Lemma py_int_digits s : all_digits s = true → py_int s = digits 0 false s.
Proof.
  intros Hs. unfold py_int, strip. rewrite lstrip_digits, rstrip_digits by exact Hs.
  destruct s as [|c rest]; [done|]. simpl in Hs.
  destruct (digit_of c) as [d|] eqn:Hd; [|done].
  destruct c as [[] [] [] [] [] [] [] []];
    vm_compute in Hd; try discriminate Hd; reflexivity.
Qed.

Lemma py_int_pretty_positive (p : positive) :
  all_digits (pretty (N.pos p)) = true ∧
  digits 0 false (pretty (N.pos p)) = Some (Z.pos p).
Proof.
  unfold pretty, pretty_N. rewrite decide_False by done. split.
  - by apply all_digits_go.
  - by rewrite digits_go.
Qed.

(** The decimal notation of an integer is read back as that integer. *)
Lemma py_int_pretty (z : Z) : py_int (pretty z) = Some z.
Proof.
  destruct z as [|p|p].
  - reflexivity.
  - destruct (py_int_pretty_positive p) as [Hdigits Hvalue].
    change (pretty (Z.pos p)) with (pretty (N.pos p)).
    by rewrite py_int_digits.
  - destruct (py_int_pretty_positive p) as [Hdigits Hvalue].
    change (pretty (Z.neg p)) with (String "-" (pretty (N.pos p))).
    unfold py_int, strip.
    change (lstrip (String "-" ?s)) with (String "-" s).
    assert (Hstrip : rstrip (String "-" (pretty (N.pos p))) = String "-" (pretty (N.pos p))).
    { simpl. rewrite rstrip_digits by exact Hdigits. by destruct (pretty (N.pos p)). }
    rewrite Hstrip. by rewrite Hvalue.
Qed.

End Numerals.


Section Names.

Lemma split_on_plain s : plain s = true → split_on "/" s = [s].
Proof.
  induction s as [|c rest IH]; [done|]. simpl.
  destruct (Ascii.eqb c "/"); [done|]. simpl. intros Hrest. by rewrite IH.
Qed.

Lemma plain_app s t : plain (s +:+ t) = plain s && plain t.
Proof.
  induction s as [|c rest IH]; [done|].
  change (String c rest +:+ t) with (String c (rest +:+ t)). simpl.
  by rewrite IH, andb_assoc.
Qed.

Lemma length_app s t :
  String.length (s +:+ t) = (String.length s + String.length t)%nat.
Proof.
  induction s as [|c rest IH]; [done|].
  change (String c rest +:+ t) with (String c (rest +:+ t)). simpl. by rewrite IH.
Qed.

Lemma app_inj_r s s' t : s +:+ t = s' +:+ t → s = s'.
Proof.
  revert s'. induction s as [|c rest IH]; intros [|c' rest'] Heq.
  - done.
  - apply (f_equal String.length) in Heq. rewrite !length_app in Heq. simpl in Heq. lia.
  - apply (f_equal String.length) in Heq. rewrite !length_app in Heq. simpl in Heq. lia.
  - change (String c (rest +:+ t) = String c' (rest' +:+ t)) in Heq.
    injection Heq as -> Heq. f_equal. by apply IH.
Qed.

Lemma test_filename_inj interface interface' :
  test_filename interface = test_filename interface' → interface = interface'.
Proof.
  unfold test_filename. intros Heq%(inj (String.app _)). by apply app_inj_r in Heq.
Qed.

(** The name of the test file of an interface without a slash is one
    path component. *)
Lemma test_filename_path interface :
  plain interface = true →
  Path (test_filename interface)
    = {| anchored := false; parts := [test_filename interface] |}.
Proof.
  intros Hplain. unfold Path. f_equal.
  rewrite split_on_plain; [done|].
  unfold test_filename. rewrite !plain_app, Hplain. reflexivity.
Qed.

End Names.

(** X14. The test files of two interfaces do not clobber each other.
    When the tests of two different interfaces, neither of which has a
    slash in its name, are generated one after the other in the same
    directory, both files are there afterwards, each with the test
    generated for its interface. *)
Theorem generated_tests_do_not_clobber
    (interface interface' : string) (test_path : PurePath)
    (fixture_id fixture_id' : string) (version version' : Z)
    (w : World) (path : PurePath) (w1 : World) (path' : PurePath) (w2 : World) :
  plain interface = true →
  plain interface' = true →
  interface ≠ interface' →
  _generate_test interface test_path fixture_id version w = (Returned path, w1) →
  _generate_test interface' test_path fixture_id' version' w1 = (Returned path', w2) →
  fs w2 !! resolve w path = Some (File (_TEST_CONTENT interface fixture_id version)) ∧
  fs w2 !! resolve w path' = Some (File (_TEST_CONTENT interface' fixture_id' version')).
Proof.
  intros Hplain Hplain' Hne
    (-> & Hcwd & Hfs & _)%generate_test_returned
    (-> & _ & Hfs' & _)%generate_test_returned.
  fold (test_filename interface) in *. fold (test_filename interface') in *.
  assert (Hsame : ∀ p, resolve w1 p = resolve w p)
    by (intros p; unfold resolve; by rewrite Hcwd).
  rewrite Hsame in Hfs'. rewrite Hfs', Hfs.
  split; [|apply lookup_insert_eq].
  rewrite lookup_insert_ne; [apply lookup_insert_eq|].
  unfold resolve, joinpath. rewrite !test_filename_path by done. simpl.
  intros Heq. apply Hne, test_filename_inj.
  destruct (anchored test_path).
  - apply app_inv_head in Heq. congruence.
  - do 2 apply app_inv_head in Heq. congruence.
Qed.

Lemma generated_tests_do_not_clobber_witness :
  let dir := Examples.traefik_path </> Path "tests/interface" in
  let w1 := (_generate_test "ingress" dir "interface_tester" 2 Examples.cloned).2 in
  let w2 := (_generate_test "tracing" dir "interface_tester" 1 w1).2 in
  fs w2 !! resolve Examples.cloned (dir </> Path (test_filename "ingress"))
    = Some (File (_TEST_CONTENT "ingress" "interface_tester" 2)) ∧
  fs w2 !! resolve Examples.cloned (dir </> Path (test_filename "tracing"))
    = Some (File (_TEST_CONTENT "tracing" "interface_tester" 1)).
Proof.
  intros dir w1 w2.
  apply (generated_tests_do_not_clobber "ingress" "tracing" dir
           "interface_tester" "interface_tester" 2 1 Examples.cloned _ w1 _ w2).
  - reflexivity.
  - reflexivity.
  - discriminate.
  - apply returned_pair. vm_compute. reflexivity.
  - apply returned_pair. vm_compute. reflexivity.
Defined.

Section Provenance.
Context (h : Host).

Lemma test_charms_verdicts interface version role charm_configs :
  ∀ acc w out w' n verdict,
    for_each charm_configs (_test_charms_body h interface version role) acc w
      = (Returned out, w') →
    PyDict.get n out = Some verdict →
    PyDict.get n acc = Some verdict
    ∨ verdict_of_unit h (mkRole [] charm_configs) interface version role n verdict.
Proof.
  induction charm_configs as [|c rest IH]; intros acc w out w' n verdict; simpl.
  - intros [= <- _] Hget. by left.
  - unfold bind at 1. unfold _test_charms_body at 1. unfold bind at 1.
    destruct (_test_charm h c interface version role w) as [[success|e] w1] eqn:Hunit;
      [|done].
    unfold ret at 1. intros Hrest Hget.
    destruct (IH _ _ _ _ _ _ Hrest Hget) as [Hacc | (c' & w0 & w0' & Hin & Hname & Hrun)].
    + rewrite get_set in Hacc. case_decide as Hn; [|by left].
      injection Hacc as ->. right. exists c, w, w1. simpl. split; [by left|done].
    + right. exists c', w0, w0'. simpl in *. split; [by right|done].
Qed.

Lemma test_roles_body_verdicts tests_per_role interface version acc role w acc' w' :
  _test_roles_body h tests_per_role interface version acc role w = (Returned acc', w') →
  ∃ per_charm,
    acc' = PyDict.set role per_charm acc ∧
    ∀ n verdict, PyDict.get n per_charm = Some verdict →
      verdict_in_roles h tests_per_role interface version role n verdict.
Proof.
  unfold _test_roles_body, bind, subscript.
  destruct (PyDict.get role tests_per_role) as [spec|] eqn:Hspec; [|done].
  unfold ret at 1.
  destruct (tests spec) as [|t ts]; [intros [= <- _]; by exists []|].
  destruct (charms spec) as [|c cs] eqn:Hcharms; [intros [= <- _]; by exists []|].
  destruct (_test_charms h (c :: cs) interface version role w) as [[per_charm|e] w1]
    eqn:Hrun; [|done].
  intros [= <- _]. exists per_charm. split; [done|]. intros n verdict Hget.
  destruct (test_charms_verdicts _ _ _ _ _ _ _ _ _ _ Hrun Hget)
    as [Hnil | (c' & w0 & w0' & Hin & Hname & Hunit)]; [done|].
  exists spec. split; [done|]. exists c', w0, w0'. by rewrite Hcharms.
Qed.

Lemma test_roles_verdicts tests_per_role interface version w per_role w' :
  _test_roles h tests_per_role interface version w = (Returned per_role, w') →
  ∀ role n verdict, outcome_in_roles per_role role n = Some verdict →
    verdict_in_roles h tests_per_role interface version role n verdict.
Proof.
  rewrite test_roles_unfold.
  destruct (_test_roles_body _ _ _ _ [] _ _) as [[acc|e] w1] eqn:Hprovider; [|done].
  intros Hrequirer.
  apply test_roles_body_verdicts in Hprovider as (per_provider & -> & Hp).
  apply test_roles_body_verdicts in Hrequirer as (per_requirer & -> & Hr).
  intros role n verdict. unfold outcome_in_roles. rewrite !get_set.
  case_decide as Hrequirer; [|case_decide as Hprovider]; subst; [apply Hr|apply Hp|done].
Qed.

Lemma test_interface_version_body_verdicts interface acc item w acc' w' :
  _test_interface_version_body h interface acc item w = (Returned acc', w') →
  ∃ per_role,
    acc' = PyDict.set item.1 per_role acc ∧
    ∃ version_int,
      py_int (slice_from_1 item.1) = Some version_int ∧
      ∀ role n verdict, outcome_in_roles per_role role n = Some verdict →
        verdict_in_roles h item.2 interface version_int role n verdict.
Proof.
  destruct item as [version tests_per_role]. unfold _test_interface_version_body, bind.
  destruct (py_int (slice_from_1 version)) as [version_int|] eqn:Hlabel; [|done].
  unfold ret at 1.
  destruct (_test_roles h tests_per_role interface version_int w) as [[per_role|e] w1]
    eqn:Hroles; [|done].
  intros [= <- _]. exists per_role. split; [done|]. exists version_int.
  split; [done|]. by eapply test_roles_verdicts.
Qed.

Lemma test_interface_version_verdicts versions interface w per_version w' :
  _test_interface_version h versions interface w = (Returned per_version, w') →
  ∀ version role n verdict,
    outcome_in_versions per_version version role n = Some verdict →
    verdict_in_versions h versions interface version role n verdict.
Proof.
  intros Hrun version role n verdict. unfold outcome_in_versions.
  destruct (PyDict.get version per_version) as [per_role|] eqn:Hget; [|done].
  intros Hverdict.
  destruct (for_each_values _ _ (test_interface_version_body_verdicts interface)
              _ _ _ _ _ _ _ Hrun Hget)
    as [Hnil | ([version' roles] & Hin & Hkey & version_int & Hlabel & Hverdicts)];
    [done|].
  simpl in Hkey, Hlabel, Hverdicts. subst version'.
  exists roles, version_int. split; [done|]. split; [done|]. by apply Hverdicts.
Qed.

Lemma run_interface_tests_body_verdicts acc item w acc' w' :
  run_interface_tests_body h acc item w = (Returned acc', w') →
  ∃ per_version,
    acc' = PyDict.set item.1 per_version acc ∧
    ∀ version role n verdict,
      outcome_in_versions per_version version role n = Some verdict →
      verdict_in_versions h item.2 item.1 version role n verdict.
Proof.
  destruct item as [interface versions]. unfold run_interface_tests_body, bind.
  destruct (_test_interface_version h versions interface w) as [[per_version|e] w1]
    eqn:Hversions; [|done].
  intros [= <- _]. exists per_version. split; [done|].
  by eapply test_interface_version_verdicts.
Qed.

End Provenance.

(** X15. No verdict is made up.  Every verdict in the tree a run returns
    is the value that [_test_charm] returned for a charm of that name,
    registered under that interface, version and role, when it was called
    with the interface, the role, and the integer read from the version
    label. *)
Theorem every_verdict_comes_from_a_unit
    (h : Host) (path : PurePath) (include : string) (w : World)
    (tree : ResultsPerInterface) (w' : World)
    (interface version role charm : string) (verdict : bool) :
  run_interface_tests h path include w = (Returned tree, w') →
  outcome tree interface version role charm = Some verdict →
  ∃ versions,
    (interface, versions) ∈ collect_tests h path include ∧
    verdict_in_versions h versions interface version role charm verdict.
Proof.
  intros Hrun%run_interface_tests_traversal.
  change (outcome tree interface version role charm)
    with (match PyDict.get interface tree with
          | Some per_version => outcome_in_versions per_version version role charm
          | None => None
          end).
  destruct (PyDict.get interface tree) as [per_version|] eqn:Hget; [|done].
  intros Hverdict.
  destruct (for_each_values _ _ (run_interface_tests_body_verdicts h)
              _ _ _ _ _ _ _ Hrun Hget)
    as [Hnil | ([interface' versions] & Hin & Hkey & Hverdicts)]; [done|].
  simpl in Hkey, Hverdicts. subst interface'. exists versions.
  split; [done|]. by apply Hverdicts.
Qed.

Lemma every_verdict_comes_from_a_unit_witness :
  let h := Examples.traefik_broken Examples.two_charms in
  ∃ versions,
    (("ingress", versions) : string * TestsPerVersion) ∈ collect_tests h (Path ".") "*" ∧
    verdict_in_versions h versions "ingress" "v2" "provider" "traefik" false.
Proof.
  intros h.
  apply (every_verdict_comes_from_a_unit h (Path ".") "*" Examples.fresh
           [("ingress", [("v2", [("provider", [("traefik", false); ("nginx", true)]);
                                 ("requirer", [("nginx", true)])])])]
           (run_interface_tests h (Path ".") "*" Examples.fresh).2).
  - apply returned_pair. vm_compute. reflexivity.
  - reflexivity.
Defined.

Section Wandering.
Context (h : Host) (known : list CharmConfig).

#[global] Instance wanders_preorder charm_configs : PreOrder (wanders charm_configs).
Proof.
  split.
  - intros w. by left.
  - intros w1 w2 w3 [H12|H12] [H23|H23]; unfold wanders.
    + left. congruence.
    + by right.
    + right. destruct H12 as (c & Hc & Hcwd). exists c. split; [done|congruence].
    + by right.
Qed.

Lemma wanders_test_charm c interface version role w :
  c ∈ known → steps (wanders known) (_test_charm h c interface version role) w.
Proof.
  intros Hc. unfold steps.
  destruct (test_charm_cwd h c interface version role w _ _ (surjective_pairing _))
    as [[Hstay|Hcharm] _]; [by left|right; by exists c].
Qed.

Lemma wanders_test_charms charm_configs interface version role w :
  charm_configs ⊆ known →
  steps (wanders known) (_test_charms h charm_configs interface version role) w.
Proof.
  intros Hknown. unfold _test_charms. apply steps_for_each; [apply _|].
  intros out c w0 Hc. unfold _test_charms_body.
  apply steps_bind; [apply _|apply wanders_test_charm; by apply Hknown|].
  intros. apply steps_ret. apply _.
Qed.

Lemma wanders_test_roles tests_per_role interface version w :
  charms_of_roles tests_per_role ⊆ known →
  steps (wanders known) (_test_roles h tests_per_role interface version) w.
Proof.
  intros Hknown. unfold _test_roles. apply steps_for_each; [apply _|].
  intros results role w0 _. unfold _test_roles_body, subscript.
  destruct (PyDict.get role tests_per_role) as [spec|] eqn:Hspec;
    [|apply steps_bind; [apply _|apply steps_raise; apply _|done]].
  apply steps_bind; [apply _|apply steps_ret; apply _|]. intros spec' w1 [= <- <-].
  destruct (tests spec), (charms spec) as [|c cs] eqn:Hcharms; try (apply steps_ret; apply _).
  apply steps_bind; [apply _|..]; [|intros; apply steps_ret; apply _].
  apply wanders_test_charms. intros c' Hc'. apply Hknown.
  unfold charms_of_roles. apply list_elem_of_In, in_flat_map. exists (role, spec).
  split; [by apply list_elem_of_In, get_Some_elem|].
  simpl. rewrite Hcharms. by apply list_elem_of_In.
Qed.

Lemma wanders_test_interface_version versions interface w :
  charms_of_versions versions ⊆ known →
  steps (wanders known) (_test_interface_version h versions interface) w.
Proof.
  intros Hknown. unfold _test_interface_version. apply steps_for_each; [apply _|].
  intros results [version tests_per_role] w0 Hitem. unfold _test_interface_version_body.
  apply steps_bind; [apply _|..].
  { destruct (py_int (slice_from_1 version)); [apply steps_ret|apply steps_raise]; apply _. }
  intros version_int w1 _.
  apply steps_bind; [apply _|..]; [|intros; apply steps_ret; apply _].
  apply wanders_test_roles. intros c Hc. apply Hknown.
  unfold charms_of_versions. apply list_elem_of_In, in_flat_map.
  exists (version, tests_per_role). split; by apply list_elem_of_In.
Qed.

Lemma wanders_traversal registry results w :
  charms_of registry ⊆ known →
  steps (wanders known) (for_each registry (run_interface_tests_body h) results) w.
Proof.
  intros Hknown. apply steps_for_each; [apply _|].
  intros acc [interface versions] w0 Hitem. unfold run_interface_tests_body.
  apply steps_bind; [apply _|..]; [|intros; apply steps_ret; apply _].
  apply wanders_test_interface_version. intros c Hc. apply Hknown.
  unfold charms_of. apply list_elem_of_In, in_flat_map.
  exists (interface, versions). split; by apply list_elem_of_In.
Qed.

End Wandering.

(** X16. Where a run leaves the process: in the directory it was started
    in, or in the directory of one of the registered charms.  The working
    directory is not restored when a unit of work fails, so the run can
    end in the directory of a charm; it cannot end anywhere else. *)
Theorem run_ends_where_it_started_or_in_a_charm_directory
    (h : Host) (path : PurePath) (include : string) (w : World) :
  wanders (charms_of (collect_tests h path include)) w
    (run_interface_tests h path include w).2.
Proof.
  unfold run_interface_tests, bind. rewrite clean_unfold.
  match goal with |- wanders _ _ (for_each ?xs ?body ?s ?w0).2 =>
    pose proof (wanders_traversal h (charms_of xs) xs s w0 (λ c Hc, Hc)) as Hrun;
    assert (Hcwd : cwd w0 = cwd w) by (by destruct (is_dir w default_root))
  end.
  unfold steps, wanders in Hrun |- *. by rewrite Hcwd in Hrun.
Qed.

Section Places.
Context (h : Host) (charm_config : CharmConfig) (start : Location).

Lemma in_place_write ev : is_write ev → in_place charm_config start ev.
Proof. by destruct ev. Qed.

Lemma in_place_check_call cmd wd disk history :
  is_git cmd = false →
  wd = charm_location charm_config →
  steps (appends (in_place charm_config start)) (subprocess_check_call h cmd)
    {| cwd := wd; fs := disk; trace := history |}.
Proof.
  intros Hcmd Hwd. unfold steps. rewrite check_call_run by exact Hcmd. simpl.
  exists [Spawned wd cmd]. split; [done|]. repeat constructor. simpl. by rewrite Hcmd.
Qed.

Lemma in_place_chdir p w : steps (appends (in_place charm_config start)) (chdir p) w.
Proof. apply appends_chdir. Qed.

(** Once the process has changed into the charm directory, the guarded
    commands are spawned there. *)
Lemma in_place_guarded (step : M unit) w :
  (∀ wd disk history, wd = charm_location charm_config →
     let w0 := {| cwd := wd; fs := disk; trace := history |} in
     steps (appends (in_place charm_config start)) step w0) →
  steps (appends (in_place charm_config start))
    (original_wd <~ getcwd;
     chdir (charm_path charm_config) ;>
     step ;>
     chdir original_wd) w.
Proof.
  intros Hstep. unfold getcwd. unfold bind at 1.
  change (steps (appends (in_place charm_config start))
            (chdir (charm_path charm_config) ;>
             step ;> chdir {| anchored := true; parts := cwd w |}) w).
  apply steps_bind; [apply _|apply in_place_chdir|].
  intros [] w1 (Hcwd & _)%chdir_returned. rewrite resolve_charm_path in Hcwd.
  apply steps_bind; [apply _|..]; [|intros; apply in_place_chdir].
  destruct w1 as [wd disk history]. by apply Hstep.
Qed.

Lemma in_place_setup_venv w :
  steps (appends (in_place charm_config start))
    (_setup_venv h (charm_path charm_config)) w.
Proof.
  apply (in_place_guarded (venv_steps h)). intros wd disk history Hwd w0.
  unfold venv_steps. apply steps_try_except; [apply _|..].
  - apply steps_bind; [apply _|by apply in_place_check_call|].
    intros [] [wd1 disk1 history1] Hrun1.
    pose proof (subprocess_check_call_cwd h MkVenv w0) as Hcwd1.
    rewrite Hrun1 in Hcwd1. simpl in Hcwd1. subst wd1.
    apply steps_bind; [apply _|by apply in_place_check_call|].
    intros [] [wd2 disk2 history2] Hrun2.
    pose proof (subprocess_check_call_cwd h PipInstallTester
                  {| cwd := wd; fs := disk1; trace := history1 |}) as Hcwd2.
    rewrite Hrun2 in Hcwd2. simpl in Hcwd2. subst wd2.
    by apply in_place_check_call.
  - intros [] ? ? _ [= <-]. apply steps_raise. apply _.
Qed.

Lemma in_place_run_test_with_pytest test_path w :
  steps (appends (in_place charm_config start))
    (_run_test_with_pytest h (charm_path charm_config) test_path) w.
Proof.
  apply (in_place_guarded (pytest_step h test_path)). intros wd disk history Hwd w0.
  unfold pytest_step. apply steps_try_except; [apply _|by apply in_place_check_call|].
  intros [] ? ? _ [= <-]. apply steps_raise. apply _.
Qed.

Lemma in_place_rest interface version w :
  steps (appends (in_place charm_config start))
    (prepare_repo_rest charm_config interface version (charm_path charm_config)) w.
Proof.
  eapply appends_weaken; [exact in_place_write|]. apply prepare_repo_rest_writes.
Qed.

Lemma in_place_clone w :
  cwd w = start →
  steps (appends (in_place charm_config start))
    (_clone_charm_repo h charm_config (charm_path charm_config)) w.
Proof.
  intros Hstart. unfold _clone_charm_repo.
  fold (clone_command charm_config (charm_path charm_config)).
  apply steps_bind; [apply _|..].
  - apply appends_subprocess_call. simpl. by rewrite Hstart.
  - intros retcode ? _. destruct (0 <? retcode); [apply steps_raise|apply steps_ret]; apply _.
Qed.

Lemma in_place_test_charm interface version role w :
  cwd w = start →
  steps (appends (in_place charm_config start))
    (_test_charm h charm_config interface version role) w.
Proof.
  intros Hstart. unfold _test_charm. apply steps_bind; [apply _|..].
  - apply steps_try_except; [apply _|..];
      [|intros [] ? ? _ [= <-]; apply steps_ret; apply _].
    apply steps_bind; [apply _|..]; [|intros; apply steps_ret; apply _].
    unfold _prepare_repo. fold (charm_path charm_config).
    fold (prepare_repo_rest charm_config interface version (charm_path charm_config)).
    apply steps_bind; [apply _|apply steps_same; [apply _|done]|].
    intros present w0 [= _ <-].
    apply steps_bind; [apply _|..]; [|intros; apply in_place_rest].
    destruct present; [apply steps_ret; apply _|].
    apply steps_bind; [apply _|by apply in_place_clone|].
    intros. apply in_place_setup_venv.
  - intros [[path test_path]|] w1 Hprepared; [|apply steps_ret; apply _].
    assert (path = charm_path charm_config) as ->.
    { unfold try_except, bind in Hprepared.
      destruct (_prepare_repo h charm_config interface version default_root w)
        as [[paths|e] w0] eqn:Hprepare.
      - injection Hprepared as -> _. by apply prepare_repo_returned in Hprepare.
      - by destruct e. }
    apply steps_try_except; [apply _|..];
      [|intros [] ? ? _ [= <-]; apply steps_ret; apply _].
    apply steps_bind; [apply _|..]; [|intros; apply steps_ret; apply _].
    apply in_place_run_test_with_pytest.
Qed.

End Places.

(** X17. Every command of a unit of work is spawned where it belongs.
    The clone, if there is one, is the clone of the charm and is spawned
    from the directory the process is in when the unit starts; the
    commands of the environment build and pytest are spawned in the
    directory of the charm, wherever the process was; nothing else is
    spawned, and the workspace is not reset.  So a unit that starts in the
    directory an earlier failure has left the process in still builds and
    tests in the directory of its own charm. *)
Theorem commands_are_spawned_in_place
    (h : Host) (charm_config : CharmConfig) (interface : string) (version : Z)
    (role : string) (w : World) :
  Forall (in_place charm_config (cwd w))
    (new_events w (_test_charm h charm_config interface version role w).2).
Proof.
  destruct (in_place_test_charm h charm_config (cwd w) interface version role w eq_refl)
    as (events & Htrace & Hevents).
  by rewrite (new_events_app _ _ _ Htrace).
Qed.

Section Soundness.
Context (h : Host).

Lemma raises_for_each_in {T S} P (xs : list T) (body : S → T → M S) :
  (∀ s x, x ∈ xs → raises P (body s x)) → ∀ s, raises P (for_each xs body s).
Proof.
  induction xs as [|x rest IH]; intros Hbody s; simpl.
  - apply raises_ret.
  - apply raises_bind; [apply Hbody; by left|].
    intros s'. apply IH. intros ? ? ?. apply Hbody. by right.
Qed.

Lemma filesystem_chdir p : raises filesystem_error (chdir p).
Proof.
  intros w e w'. unfold chdir.
  destruct (fs w !! resolve w p) as [[|?]|]; [done|..]; by intros [= <- _].
Qed.

Lemma filesystem_write_text p content : raises filesystem_error (write_text p content).
Proof.
  intros w e w'. unfold write_text.
  destruct (fs w !! resolve w p) as [[|?]|], (fs w !! removelast (resolve w p)) as [[|?]|];
    try done; by intros [= <- _].
Qed.

(** What the guarded steps raise has been turned into the runner's own
    exception. *)
Lemma filesystem_guarded (step : M unit) (P : Exn → Prop) p :
  raises P step →
  raises (λ e, filesystem_error e ∨ P e)
    (original_wd <~ getcwd; chdir p ;> step ;> chdir original_wd).
Proof.
  intros Hstep. apply raises_bind; [by intros w e w'|]. intros original_wd.
  apply raises_bind;
    [eapply raises_weaken; [|apply filesystem_chdir]; by left|]. intros _.
  apply raises_bind;
    [eapply raises_weaken; [|exact Hstep]; by right|].
  intros _. eapply raises_weaken; [|apply filesystem_chdir]. by left.
Qed.

Lemma filesystem_setup_venv p :
  raises (λ e, filesystem_error e ∨ is_setup_error e) (_setup_venv h p).
Proof.
  apply (filesystem_guarded (venv_steps h)). unfold venv_steps.
  eapply raises_try_except.
  - repeat (apply raises_bind; [apply raises_check_call|]; intros _).
    apply raises_check_call.
  - intros []; try done. intros _. by apply raises_raise.
Qed.

Lemma filesystem_run_test_with_pytest root test_path :
  raises (λ e, filesystem_error e ∨ e = InterfaceTestError)
    (_run_test_with_pytest h root test_path).
Proof.
  apply (filesystem_guarded (pytest_step h test_path)). unfold pytest_step.
  eapply raises_try_except; [apply raises_check_call|].
  intros []; try done. intros _. by apply raises_raise.
Qed.

Lemma filesystem_prepare_repo charm_config interface version root :
  complete_setup charm_config →
  raises (λ e, filesystem_error e ∨ is_setup_error e)
    (_prepare_repo h charm_config interface version root).
Proof.
  intros Hsetup. unfold _prepare_repo.
  apply raises_bind; [by intros w e w'|]. intros present.
  apply raises_bind.
  { destruct present; [apply raises_ret|].
    apply raises_bind; [|intros; apply filesystem_setup_venv].
    unfold _clone_charm_repo. apply raises_bind; [by intros w e w'|].
    intros retcode. destruct (0 <? retcode); [apply raises_raise; by right|apply raises_ret]. }
  intros _. apply raises_bind.
  { intros w e w'. unfold try_except. by rewrite get_fixture_resolved. }
  intros spec. apply raises_bind; [by intros w e w'|]. intros found.
  apply raises_bind; [destruct found; [apply raises_ret|apply raises_raise; by right]|].
  intros _. apply raises_bind; [|intros; apply raises_ret].
  unfold _generate_test. apply raises_bind; [|intros; apply raises_ret].
  eapply raises_weaken; [|apply filesystem_write_text]. by left.
Qed.

Lemma filesystem_test_charm charm_config interface version role :
  complete_setup charm_config →
  raises filesystem_error (_test_charm h charm_config interface version role).
Proof.
  intros Hsetup. unfold _test_charm. apply raises_bind.
  - eapply raises_try_except.
    + apply raises_bind; [by apply filesystem_prepare_repo|]. intros; apply raises_ret.
    + intros [] [He|He]; first [done|apply raises_ret].
  - intros [[charm_path test_path]|]; [|apply raises_ret].
    eapply raises_try_except.
    + apply raises_bind; [apply filesystem_run_test_with_pytest|]. intros; apply raises_ret.
    + intros [] [He|He]; first [done|apply raises_ret].
Qed.

Lemma filesystem_test_roles tests_per_role interface version :
  sound_roles tests_per_role →
  raises filesystem_error (_test_roles h tests_per_role interface version).
Proof.
  intros (Hprovider & Hrequirer & Hsetups). unfold _test_roles.
  apply raises_for_each_in. intros results role Hrole.
  assert (Hspec : is_Some (PyDict.get role tests_per_role)).
  { apply elem_of_cons in Hrole as [->|Hrole]; [done|].
    by apply list_elem_of_singleton in Hrole as ->. }
  destruct Hspec as [spec Hspec]. unfold _test_roles_body, subscript. rewrite Hspec.
  unfold bind at 1. unfold ret at 1. cbv beta iota.
  destruct (tests spec), (charms spec) as [|c0 cs] eqn:Hcharms; try apply raises_ret.
  apply raises_bind; [|intros; apply raises_ret].
  unfold _test_charms. apply raises_for_each_in. intros out c Hc.
  unfold _test_charms_body. apply raises_bind; [|intros; apply raises_ret].
  apply filesystem_test_charm. rewrite Forall_forall in Hsetups. apply Hsetups.
  unfold charms_of_roles. apply list_elem_of_In, in_flat_map. exists (role, spec).
  split; [by apply list_elem_of_In, get_Some_elem|].
  simpl. rewrite Hcharms. by apply list_elem_of_In.
Qed.

Lemma filesystem_test_interface_version versions interface :
  sound_versions versions →
  raises filesystem_error (_test_interface_version h versions interface).
Proof.
  intros Hsound. unfold _test_interface_version. apply raises_for_each_in.
  intros results [version tests_per_role] Hitem.
  unfold sound_versions in Hsound. rewrite Forall_forall in Hsound.
  destruct (Hsound _ Hitem) as [[version_int Hlabel] Hroles]. simpl in Hlabel, Hroles.
  unfold _test_interface_version_body. rewrite Hlabel.
  unfold bind at 1. unfold ret at 1. cbv beta iota.
  apply raises_bind; [|intros; apply raises_ret].
  by apply filesystem_test_roles.
Qed.

End Soundness.


